(** * ShapeShifter: the canvas component and the path engine it drives

    A shallow embedding of [src/app/canvas/canvas.component.ts]: the
    pointer handlers, the hit-test and projection wrappers, the layer
    transform lookup, the preview interpolation and the hover preview,
    together with the properties the design document states about them.

    Numbers are JavaScript numbers in the source.  The component only
    compares them, negates them and divides by the CSS scale, so they are
    modelled as rationals ([Q]); the curve mathematics itself lives in
    [scripts/paths] and [scripts/common], which are collaborators of the
    component and are taken here as an interface ([Collaborators]). *)

From Stdlib Require Import List String Bool Arith Lia ZArith QArith Qminmax Qround Qabs.
From Stdlib Require Import Lqa Permutation.
Import ListNotations.

Set Implicit Arguments.

(** ** Geometry and the path data model *)

Record Point : Type := mkPoint { px : Q; py : Q }.

(** The six coefficients read by [executeCommands] ([m.a] .. [m.f]). *)
Record Matrix : Type := mkMatrix { ma : Q; mb : Q; mc : Q; md : Q; me : Q; mf : Q }.

Inductive CommandKind : Type := Move | Line | Quad | Cubic | Close.

Record Command : Type := mkCommand {
  cmd_kind : CommandKind;
  cmd_points : list Point;
  cmd_isSplit : bool
}.

Record SubPath : Type := mkSubPath {
  sp_commands : list Command;
  sp_isSplit : bool
}.

Definition Path : Type := list SubPath.

(** [path.getSubPaths()[subIdx].getCommands()[cmdIdx]]; an index out of
    range reads [undefined] in the source, [None] here. *)
Definition Path_commandAt (p : Path) (subIdx cmdIdx : nat) : option Command :=
  match nth_error p subIdx with
  | Some sp => nth_error (sp_commands sp) cmdIdx
  | None => None
  end.

Record CommandIndex : Type := mkIndex { subIdx : nat; cmdIdx : nat }.

Record Projection : Type := mkProjection {
  proj_x : Q; proj_y : Q; proj_d : Q; proj_t : Q
}.

Record ProjectionOntoPath : Type := mkProjOntoPath {
  pp_subIdx : nat;
  pp_cmdIdx : nat;
  pp_projection : Projection
}.

Record SegmentHit : Type := mkSegmentHit {
  sh_subIdx : nat;
  sh_cmdIdx : nat;
  sh_projection : Projection
}.

Record HitResult : Type := mkHitResult {
  isHit : bool;
  isEndPointHit : bool;
  isSegmentHit : bool;
  endPointHits : list CommandIndex;
  segmentHits : list SegmentHit;
  shapeHits : list CommandIndex
}.

(** The object literal [performHitTest] hands to [Path.hitTest]; a range
    predicate that was left unassigned is [undefined], [None] here. *)
Record HitTestArgs : Type := mkHitTestArgs {
  isPointInRangeFn : option (Q -> Command -> bool);
  isSegmentInRangeFn : option (Q -> Command -> bool);
  findShapesInRange : bool
}.

(** [interface HitTestOpts]: three optional booleans. *)
Record HitTestOpts : Type := mkHitTestOpts {
  noPoints : option bool;
  noSegments : option bool;
  noShapes : option bool
}.

(** [opts: HitTestOpts = {}] *)
Definition emptyOpts : HitTestOpts := mkHitTestOpts None None None.

(** JavaScript truthiness of an optional boolean and of an optional string. *)
Definition truthy (b : option bool) : bool :=
  match b with Some true => true | _ => false end.

Definition truthyStr (s : option string) : bool :=
  match s with Some s' => negb (String.eqb s' ""%string) | None => false end.

(** ** The layer tree *)

#[warnings="-register-all"]
Inductive Layer : Type :=
| VectorLayer (id : string) (children : list Layer) (width height alpha : Q)
| GroupLayer (id : string) (children : list Layer)
    (pivotX pivotY translateX translateY rotation scaleX scaleY : Q)
| PathLayer (id : string) (pathData : Path) (filled stroked : bool) (strokeWidth : Q)
| ClipPathLayer (id : string) (pathData : Path).

Definition Layer_id (l : Layer) : string :=
  match l with
  | VectorLayer id _ _ _ _ => id
  | GroupLayer id _ _ _ _ _ _ _ _ => id
  | PathLayer id _ _ _ _ => id
  | ClipPathLayer id _ => id
  end.

(** [layer.children]: only vector and group layers have the field. *)
Definition Layer_children (l : Layer) : option (list Layer) :=
  match l with
  | VectorLayer _ cs _ _ _ => Some cs
  | GroupLayer _ cs _ _ _ _ _ _ _ => Some cs
  | _ => None
  end.

Definition Layer_pathData (l : Layer) : option Path :=
  match l with
  | PathLayer _ p _ _ _ => Some p
  | ClipPathLayer _ p => Some p
  | _ => None
  end.

(** [current.id === layerId], where the caller may pass [undefined]. *)
Definition idIs (l : Layer) (layerId : option string) : bool :=
  match layerId with
  | Some id => String.eqb (Layer_id l) id
  | None => false
  end.

(** Induction over the tree with the hypothesis available for every child. *)
Section LayerInduction.
Variable P : Layer -> Prop.
Hypothesis HVector : forall id cs w h a,
  Forall P cs -> P (VectorLayer id cs w h a).
Hypothesis HGroup : forall id cs pX pY tX tY r sX sY,
  Forall P cs -> P (GroupLayer id cs pX pY tX tY r sX sY).
Hypothesis HPath : forall id p f s w, P (PathLayer id p f s w).
Hypothesis HClip : forall id p, P (ClipPathLayer id p).

Fixpoint Layer_tree_ind (l : Layer) : P l :=
  let fix children_ind (cs : list Layer) : Forall P cs :=
    match cs with
    | [] => Forall_nil P
    | c :: cs' => Forall_cons c (Layer_tree_ind c) (children_ind cs')
    end in
  match l with
  | VectorLayer id cs w h a => HVector id w h a (children_ind cs)
  | GroupLayer id cs pX pY tX tY r sX sY =>
      HGroup id pX pY tX tY r sX sY (children_ind cs)
  | PathLayer id p f s w => HPath id p f s w
  | ClipPathLayer id p => HClip id p
  end.
End LayerInduction.

(** ** The path engine, seen from the component

    [scripts/paths], [scripts/common] and [scripts/layers] are imported by
    the component but are not part of it.  What the component calls is
    collected in one interface; every theorem below holds for every
    implementation of it. *)

Inductive ErrorKind : Type :=
| IndexOutOfRangeError
| InvalidParameterError
| NotSplitError
| NotClosedError
| NotMorphableError.

(** The calls the component makes on a [PathMutator]. *)
Inductive MutOp : Type :=
| SplitCommand (subIdx cmdIdx : nat) (t : Q)
| SplitCommandInHalf (subIdx cmdIdx : nat)
| UnsplitCommand (subIdx cmdIdx : nat)
| ReverseSubPath (subIdx : nat)
| ShiftSubPathForward (subIdx : nat)
| ShiftSubPathBack (subIdx : nat)
| SplitFilledSubPath (subIdx firstCmdIdx secondCmdIdx : nat)
| SplitStrokedSubPath (subIdx cmdIdx : nat).

(** Modelled from the spec: [PathMutator] (scripts/paths) is not among the
    source files.  Section 2 describes it as a builder that "accumulates
    structural edit operations against a source Path and produces a new
    Path; never mutates the source", each operation "returns the mutator
    itself".  It is the source path with the operations issued so far,
    oldest first. *)
Record PathMutator : Type := mkMutator {
  mut_source : Path;
  mut_ops : list MutOp
}.

(** [path.mutate()] *)
Definition Path_mutate (p : Path) : PathMutator := mkMutator p [].

Class Collaborators : Type := {
  (* scripts/common *)
  Matrix_fromTranslation : Q -> Q -> Matrix;
  Matrix_fromRotation : Q -> Matrix;
  Matrix_fromScaling : Q -> Q -> Matrix;
  Matrix_flatten : list Matrix -> Matrix;
  Matrix_invert : Matrix -> Matrix;
  MathUtil_flattenTransforms : list Matrix -> Matrix;
  MathUtil_transformPoint : Point -> list Matrix -> Point;
  MathUtil_distance : Point -> Point -> Q;
  (* scripts/paths *)
  Path_project : Path -> Point -> option ProjectionOntoPath;
  Path_hitTest : Path -> Point -> HitTestArgs -> HitResult;
  Path_isMorphableWith : Path -> Path -> bool;
  Path_blend : Path -> Path -> Q -> Path;
  Command_splitAt : Command -> Q -> Command * Command;
  (* the error, if any, with which the mutator rejects an operation issued
     after the given ones on the given source path *)
  PathMutator_reject : Path -> list MutOp -> MutOp -> option ErrorKind;
  PathMutator_build : PathMutator -> Path;
  (* scripts/layers: the attribute interpolation of group and vector
     layers, returning the new preview layer *)
  GroupLayer_interpolate : Layer -> Layer -> Layer -> Q -> Layer;
  VectorLayer_interpolate : Layer -> Layer -> Layer -> Q -> Layer;
  (* services: the id of the group layer the state service treats as the
     rotation layer of a tree, given the active path id *)
  StateService_rotationLayerId : Layer -> option string -> option string
}.

(** ** [getTransformsForLayer] *)

Section Transforms.
Context {C : Collaborators}.

(** The recursive closure [getTransformsFn(parents, current)].  The [for]
    loop over [current.children] returns the first defined result. *)
Fixpoint getTransformsFn (layerId : option string) (parents : list Layer)
    (current : Layer) {struct current} : option (list Matrix) :=
  if idIs current layerId then
    Some (flat_map (fun layer =>
            match layer with
            | GroupLayer _ _ pivotX pivotY translateX translateY rotation scaleX scaleY =>
                [ Matrix_fromTranslation pivotX pivotY;
                  Matrix_fromTranslation translateX translateY;
                  Matrix_fromRotation rotation;
                  Matrix_fromScaling scaleX scaleY;
                  Matrix_fromTranslation (- pivotX) (- pivotY) ]
            | _ => []
            end) parents)
  else
    let fix each (children : list Layer) : option (list Matrix) :=
      match children with
      | [] => None
      | child :: rest =>
          match getTransformsFn layerId (parents ++ [current]) child with
          | Some transforms => Some transforms
          | None => each rest
          end
      end in
    match current with
    | VectorLayer _ children _ _ _ => each children
    | GroupLayer _ children _ _ _ _ _ _ _ => each children
    | _ => None
    end.

Definition getTransformsForLayer (vectorLayer : Layer) (layerId : option string)
    : option (list Matrix) :=
  getTransformsFn layerId [] vectorLayer.

End Transforms.

(** ** Services and component state *)

Inductive CanvasType : Type := CanvasStart | CanvasPreview | CanvasEnd.

Definition CanvasType_eqb (a b : CanvasType) : bool :=
  match a, b with
  | CanvasStart, CanvasStart | CanvasPreview, CanvasPreview | CanvasEnd, CanvasEnd => true
  | _, _ => false
  end.

Inductive AppMode : Type := SelectPoints | AddPoints | PairSubPaths | SplitSubPaths.

Inductive HoverType : Type :=
| HoverCommand | HoverSubPath
| HoverSplit | HoverUnsplit | HoverReverse | HoverShiftForward | HoverShiftBack.

Record Hover : Type := mkHover {
  hover_type : HoverType;
  hover_source : CanvasType;
  hover_index : CommandIndex
}.

Inductive SelectionType : Type := SelectionSubPath | SelectionCommand.

Record Selection : Type := mkSelection {
  sel_type : SelectionType;
  sel_source : CanvasType;
  sel_subIdx : nat;
  sel_cmdIdx : option nat
}.

Record MouseEvent : Type := mkMouseEvent {
  pageX : Q; pageY : Q; shiftKey : bool; metaKey : bool
}.

(** [class PointDragger] *)
Record PointDragger : Type := mkPointDragger {
  pd_mouseDown : Point;
  pd_selectedCommandIndex : CommandIndex;
  pd_selectedPointSplit : bool;
  pd_isDragTriggered : bool;
  pd_isMouseDown : bool
}.

(** One value per canvas, as the state service keeps them. *)
Record PerCanvas (A : Type) : Type := mkPerCanvas {
  atStart : A; atPreview : A; atEnd : A
}.

Definition pcGet {A} (m : PerCanvas A) (t : CanvasType) : A :=
  match t with
  | CanvasStart => atStart m
  | CanvasPreview => atPreview m
  | CanvasEnd => atEnd m
  end.

Definition pcSet {A} (m : PerCanvas A) (t : CanvasType) (a : A) : PerCanvas A :=
  match t with
  | CanvasStart => mkPerCanvas a (atPreview m) (atEnd m)
  | CanvasPreview => mkPerCanvas (atStart m) a (atEnd m)
  | CanvasEnd => mkPerCanvas (atStart m) (atPreview m) a
  end.

(** What the component asks of its collaborators, in the order asked. *)
Inductive Event : Type :=
| EvProject (path : Path) (point : Point)
| EvHitTest (path : Path) (point : Point) (args : HitTestArgs)
| EvMutate (source : Path)
| EvMutOp (op : MutOp)
| EvBuild (mutator : PathMutator)
| EvUpdateActivePath (type : CanvasType) (path : Path)
| EvInterpolate (startPath endPath : Path) (fraction : Q)
| EvHoverReset
| EvSetHover (hover : Hover)
| EvSelectionReset
| EvSelectionToggle (selection : Selection) (appendTo : bool).

(** The fields of [CanvasComponent] the handlers read or write, the state
    held by the injected services, and the log of calls made so far. *)
Record Comp : Type := mkComp {
  canvasType : CanvasType;
  isViewInit : bool;
  cssContainerWidth : Q;
  cssContainerHeight : Q;
  cssScale : Q;
  canvasOffsetLeft : Q;
  canvasOffsetTop : Q;
  currentHoverPreviewPath : option Path;
  pointDragger : option PointDragger;
  shouldPerformActionOnMouseUp : bool;
  lastKnownMouseLocation : option Point;
  initialFilledSubPathProjOntoPath : option ProjectionOntoPath;
  (* appModeService, animatorService, stateService *)
  appMode : AppMode;
  animatedValue : Q;
  vectorLayers : PerCanvas (option Layer);
  activePathIds : PerCanvas (option string);
  trace : list Event
}.

Definition set_currentHoverPreviewPath (v : option Path) (s : Comp) : Comp :=
  mkComp (canvasType s) (isViewInit s) (cssContainerWidth s) (cssContainerHeight s)
    (cssScale s) (canvasOffsetLeft s) (canvasOffsetTop s)
    v (pointDragger s) (shouldPerformActionOnMouseUp s)
    (lastKnownMouseLocation s) (initialFilledSubPathProjOntoPath s)
    (appMode s) (animatedValue s) (vectorLayers s) (activePathIds s) (trace s).

Definition set_pointDragger (v : option PointDragger) (s : Comp) : Comp :=
  mkComp (canvasType s) (isViewInit s) (cssContainerWidth s) (cssContainerHeight s)
    (cssScale s) (canvasOffsetLeft s) (canvasOffsetTop s)
    (currentHoverPreviewPath s) v (shouldPerformActionOnMouseUp s)
    (lastKnownMouseLocation s) (initialFilledSubPathProjOntoPath s)
    (appMode s) (animatedValue s) (vectorLayers s) (activePathIds s) (trace s).

Definition set_shouldPerformActionOnMouseUp (v : bool) (s : Comp) : Comp :=
  mkComp (canvasType s) (isViewInit s) (cssContainerWidth s) (cssContainerHeight s)
    (cssScale s) (canvasOffsetLeft s) (canvasOffsetTop s)
    (currentHoverPreviewPath s) (pointDragger s) v
    (lastKnownMouseLocation s) (initialFilledSubPathProjOntoPath s)
    (appMode s) (animatedValue s) (vectorLayers s) (activePathIds s) (trace s).

Definition set_lastKnownMouseLocation (v : option Point) (s : Comp) : Comp :=
  mkComp (canvasType s) (isViewInit s) (cssContainerWidth s) (cssContainerHeight s)
    (cssScale s) (canvasOffsetLeft s) (canvasOffsetTop s)
    (currentHoverPreviewPath s) (pointDragger s) (shouldPerformActionOnMouseUp s)
    v (initialFilledSubPathProjOntoPath s)
    (appMode s) (animatedValue s) (vectorLayers s) (activePathIds s) (trace s).

Definition set_initialFilledSubPathProjOntoPath (v : option ProjectionOntoPath)
    (s : Comp) : Comp :=
  mkComp (canvasType s) (isViewInit s) (cssContainerWidth s) (cssContainerHeight s)
    (cssScale s) (canvasOffsetLeft s) (canvasOffsetTop s)
    (currentHoverPreviewPath s) (pointDragger s) (shouldPerformActionOnMouseUp s)
    (lastKnownMouseLocation s) v
    (appMode s) (animatedValue s) (vectorLayers s) (activePathIds s) (trace s).

Definition set_appMode (v : AppMode) (s : Comp) : Comp :=
  mkComp (canvasType s) (isViewInit s) (cssContainerWidth s) (cssContainerHeight s)
    (cssScale s) (canvasOffsetLeft s) (canvasOffsetTop s)
    (currentHoverPreviewPath s) (pointDragger s) (shouldPerformActionOnMouseUp s)
    (lastKnownMouseLocation s) (initialFilledSubPathProjOntoPath s)
    v (animatedValue s) (vectorLayers s) (activePathIds s) (trace s).

Definition set_animatedValue (v : Q) (s : Comp) : Comp :=
  mkComp (canvasType s) (isViewInit s) (cssContainerWidth s) (cssContainerHeight s)
    (cssScale s) (canvasOffsetLeft s) (canvasOffsetTop s)
    (currentHoverPreviewPath s) (pointDragger s) (shouldPerformActionOnMouseUp s)
    (lastKnownMouseLocation s) (initialFilledSubPathProjOntoPath s)
    (appMode s) v (vectorLayers s) (activePathIds s) (trace s).

Definition set_vectorLayers (v : PerCanvas (option Layer)) (s : Comp) : Comp :=
  mkComp (canvasType s) (isViewInit s) (cssContainerWidth s) (cssContainerHeight s)
    (cssScale s) (canvasOffsetLeft s) (canvasOffsetTop s)
    (currentHoverPreviewPath s) (pointDragger s) (shouldPerformActionOnMouseUp s)
    (lastKnownMouseLocation s) (initialFilledSubPathProjOntoPath s)
    (appMode s) (animatedValue s) v (activePathIds s) (trace s).

Definition set_activePathIds (v : PerCanvas (option string)) (s : Comp) : Comp :=
  mkComp (canvasType s) (isViewInit s) (cssContainerWidth s) (cssContainerHeight s)
    (cssScale s) (canvasOffsetLeft s) (canvasOffsetTop s)
    (currentHoverPreviewPath s) (pointDragger s) (shouldPerformActionOnMouseUp s)
    (lastKnownMouseLocation s) (initialFilledSubPathProjOntoPath s)
    (appMode s) (animatedValue s) (vectorLayers s) v (trace s).

Definition set_trace (v : list Event) (s : Comp) : Comp :=
  mkComp (canvasType s) (isViewInit s) (cssContainerWidth s) (cssContainerHeight s)
    (cssScale s) (canvasOffsetLeft s) (canvasOffsetTop s)
    (currentHoverPreviewPath s) (pointDragger s) (shouldPerformActionOnMouseUp s)
    (lastKnownMouseLocation s) (initialFilledSubPathProjOntoPath s)
    (appMode s) (animatedValue s) (vectorLayers s) (activePathIds s) v.

(** ** Handlers as state transformers that may throw

    A handler runs on the component state and either returns or throws;
    fields assigned before a throw stay assigned, so both outcomes carry
    the state. *)

Inductive Exn : Type :=
| TypeError
| EngineError (e : ErrorKind).

Inductive Res (A : Type) : Type :=
| Ok (a : A) (s : Comp)
| Throw (e : Exn) (s : Comp).

Arguments Throw {A} e s.

Definition stateOf {A} (r : Res A) : Comp :=
  match r with Ok _ s => s | Throw _ s => s end.

Definition M (A : Type) : Type := Comp -> Res A.

Definition ret {A} (a : A) : M A := fun s => Ok a s.

Definition bind {A B} (m : M A) (f : A -> M B) : M B :=
  fun s => match m s with
           | Ok a s' => f a s'
           | Throw e s' => Throw e s'
           end.

Definition throw {A} (e : Exn) : M A := fun s => Throw e s.

Definition get : M Comp := fun s => Ok s s.

Definition modify (f : Comp -> Comp) : M unit := fun s => Ok tt (f s).

Definition emit (ev : Event) : M unit :=
  modify (fun s => set_trace (trace s ++ [ev]) s).

(** Reading a property of, or calling a method on, a value that may be
    [undefined]. *)
Definition must {A} (o : option A) : M A :=
  match o with
  | Some a => ret a
  | None => throw TypeError
  end.

Declare Scope comp_scope.
Delimit Scope comp_scope with comp.
Notation "x <- c1 ;; c2" := (bind c1 (fun x => c2))
  (at level 61, c1 at next level, right associativity) : comp_scope.
Notation "c1 ;; c2" := (bind c1 (fun _ => c2))
  (at level 61, right associativity) : comp_scope.
Open Scope comp_scope.

Definition MIN_SNAP_THRESHOLD : Q := 3 # 2.
Definition DRAG_TRIGGER_TOUCH_SLOP : Q := 1.
Definition SPLIT_POINT_RADIUS_FACTOR : Q := 4 # 5.

(** [_.last(array)]: [undefined] on the empty array. *)
Definition lastOf {A} (l : list A) : option A :=
  match rev l with
  | x :: _ => Some x
  | [] => None
  end.

(** [x < y] and [x <= y] on numbers. *)
Definition ltQ (x y : Q) : bool := negb (Qle_bool y x).
Definition leQ (x y : Q) : bool := Qle_bool x y.

(** ** Layer lookup and the state service *)

(** Modelled from the spec: [Layer.findLayer] (scripts/layers) is not among
    the source files; the spec only says a host "associates a Path with a
    drawable layer".  It is the lookup by id in the order
    [getTransformsFn] walks the tree: the layer itself, then its children,
    first match wins. *)
Fixpoint findLayer (l : Layer) (layerId : option string) {struct l} : option Layer :=
  if idIs l layerId then Some l
  else
    let fix each (children : list Layer) : option Layer :=
      match children with
      | [] => None
      | child :: rest =>
          match findLayer child layerId with
          | Some found => Some found
          | None => each rest
          end
      end in
    match l with
    | VectorLayer _ children _ _ _ => each children
    | GroupLayer _ children _ _ _ _ _ _ _ => each children
    | _ => None
    end.

(** Layers are objects shared between the tree and whoever looked them up:
    an assignment to a field of the layer [findLayer] returned is an update
    of the tree at that first match. *)
Fixpoint updateLayer (f : Layer -> Layer) (layerId : option string) (l : Layer)
    {struct l} : option Layer :=
  if idIs l layerId then Some (f l)
  else
    let fix each (children : list Layer) : option (list Layer) :=
      match children with
      | [] => None
      | child :: rest =>
          match updateLayer f layerId child with
          | Some child' => Some (child' :: rest)
          | None =>
              match each rest with
              | Some rest' => Some (child :: rest')
              | None => None
              end
          end
      end in
    match l with
    | VectorLayer id children w h a =>
        match each children with
        | Some children' => Some (VectorLayer id children' w h a)
        | None => None
        end
    | GroupLayer id children pX pY tX tY r sX sY =>
        match each children with
        | Some children' => Some (GroupLayer id children' pX pY tX tY r sX sY)
        | None => None
        end
    | _ => None
    end.

(** [layer.pathData = path] *)
Definition Layer_setPathData (path : Path) (l : Layer) : Layer :=
  match l with
  | PathLayer id _ f s w => PathLayer id path f s w
  | ClipPathLayer id _ => ClipPathLayer id path
  | other => other
  end.

(** [layer.isFilled()], [layer.isStroked()], [layer.strokeWidth]: members
    of path layers only. *)
Definition Layer_isFilled (l : Layer) : option bool :=
  match l with PathLayer _ _ f _ _ => Some f | _ => None end.

Definition Layer_isStroked (l : Layer) : option bool :=
  match l with PathLayer _ _ _ s _ => Some s | _ => None end.

Definition Layer_strokeWidth (l : Layer) : option Q :=
  match l with PathLayer _ _ _ _ w => Some w | _ => None end.

(** [stateService.getVectorLayer(type)], [stateService.getActivePathId(type)] *)
Definition getVectorLayer (s : Comp) (type : CanvasType) : option Layer :=
  pcGet (vectorLayers s) type.

Definition getActivePathId (s : Comp) (type : CanvasType) : option string :=
  pcGet (activePathIds s) type.

(** Modelled from the spec: [StateService] (services) is not among the
    source files.  The active path layer of a canvas is the layer of that
    canvas's vector layer whose id is the canvas's active path id; the
    component relies on it being the very object [vectorLayer.findLayer]
    returns (it assigns [activeLayer.pathData] and then projects through
    [this.vectorLayer]). *)
Definition getActivePathLayer (s : Comp) (type : CanvasType) : option Layer :=
  match getVectorLayer s type with
  | Some vl => findLayer vl (getActivePathId s type)
  | None => None
  end.

(** The assignment [layer.pathData = path] on the active path layer of a
    canvas. *)
Definition assignActivePathData (type : CanvasType) (path : Path) (s : Comp) : Comp :=
  match getVectorLayer s type with
  | Some vl =>
      match updateLayer (Layer_setPathData path) (getActivePathId s type) vl with
      | Some vl' => set_vectorLayers (pcSet (vectorLayers s) type (Some vl')) s
      | None => s
      end
  | None => s
  end.

(** Modelled from the spec: [stateService.updateActivePath(type, path)]
    makes [path] the path data of the active path layer of the canvas ("a
    new Path, which replaces the old one in the owning collaborator's
    state"). *)
Definition updateActivePath (type : CanvasType) (path : Path) : M unit :=
  emit (EvUpdateActivePath type path) ;;
  modify (assignActivePathData type path).

(** ** The component *)

Section Component.
Context {C : Collaborators}.

(** Modelled from the spec: [stateService.getActiveRotationLayer(type)]
    is a group layer of the canvas's tree; which one is the service's
    business ([StateService_rotationLayerId]). *)
Definition getActiveRotationLayer (s : Comp) (type : CanvasType) : option Layer :=
  match getVectorLayer s type with
  | Some vl => findLayer vl (StateService_rotationLayerId vl (getActivePathId s type))
  | None => None
  end.

(** *** Getters *)

Definition vectorLayer (s : Comp) : option Layer :=
  getVectorLayer s (canvasType s).

Definition activePathId (s : Comp) : option string :=
  getActivePathId s (canvasType s).

Definition activePathLayer (s : Comp) : option Layer :=
  if truthyStr (activePathId s) then getActivePathLayer s (canvasType s) else None.

(** [this.activePathId ? getActivePathLayer(type).pathData : undefined] *)
Definition activePath : M (option Path) :=
  s <- get ;;
  if truthyStr (activePathId s) then
    layer <- must (getActivePathLayer s (canvasType s)) ;;
    ret (Layer_pathData layer)
  else ret None.

Definition shouldDrawLayers (s : Comp) : bool :=
  match vectorLayer s with
  | Some _ => truthyStr (activePathId s)
  | None => false
  end.

Definition shouldProcessMouseEvents (s : Comp) : bool :=
  negb (CanvasType_eqb (canvasType s) CanvasPreview) && truthyStr (activePathId s).

Definition transformsForActiveLayer : M (option (list Matrix)) :=
  s <- get ;;
  vl <- must (vectorLayer s) ;;
  ret (getTransformsForLayer vl (activePathId s)).

Definition largePointRadius (s : Comp) : Q :=
  let size := Qmin (cssContainerWidth s) (cssContainerHeight s) in
  (size / 50) / Qmax 2 (cssScale s).

(** *** Coordinates *)

Definition mouseEventToPoint (event : MouseEvent) : M Point :=
  s <- get ;;
  let x := (pageX event - canvasOffsetLeft s) / cssScale s in
  let y := (pageY event - canvasOffsetTop s) / cssScale s in
  ret (mkPoint x y).

(** *** [calculateProjectionOntoPath] *)

Definition calculateProjectionOntoPath (vectorLayer : option Layer)
    (pathId : option string) (mousePoint : Point) : M (option ProjectionOntoPath) :=
  vl <- must vectorLayer ;;
  match findLayer vl pathId with
  | None => ret None
  | Some pathLayer =>
      found <- must (getTransformsForLayer vl pathId) ;;
      let transforms := rev found in
      let transformedMousePoint :=
        MathUtil_transformPoint mousePoint
          [Matrix_invert (MathUtil_flattenTransforms transforms)] in
      pathData <- must (Layer_pathData pathLayer) ;;
      emit (EvProject pathData transformedMousePoint) ;;
      match Path_project pathData transformedMousePoint with
      | None => ret None
      | Some projInfo =>
          ret (Some (mkProjOntoPath (pp_subIdx projInfo) (pp_cmdIdx projInfo)
                       (pp_projection projInfo)))
      end
  end.

(** *** [performHitTest] *)

Definition performHitTest (mousePoint : Point) (optsArg : option HitTestOpts)
    : M HitResult :=
  let opts := match optsArg with Some o => o | None => emptyOpts end in
  found <- transformsForActiveLayer ;;
  transforms <- must found ;;
  let transformMatrix := Matrix_invert (Matrix_flatten (rev transforms)) in
  let transformedMousePoint := MathUtil_transformPoint mousePoint [transformMatrix] in
  s <- get ;;
  let isPointInRangeFn :=
    if negb (truthy (noPoints opts)) then
      Some (fun (distance : Q) (cmd : Command) =>
              let multiplyFactor :=
                if cmd_isSplit cmd then SPLIT_POINT_RADIUS_FACTOR else 1 in
              leQ distance (largePointRadius s * multiplyFactor))
    else None in
  let isSegmentInRangeFn :=
    if negb (truthy (noSegments opts)) then
      Some (fun (distance : Q) (_ : Command) =>
              match activePathLayer s with
              | Some layer =>
                  match Layer_strokeWidth layer with
                  | Some w => leQ distance (w / 2)
                  | None => false
                  end
              | None => false
              end)
    else None in
  layer <- must (activePathLayer s) ;;
  filled <- must (Layer_isFilled layer) ;;
  let findShapesInRange := filled && negb (truthy (noShapes opts)) in
  path <- activePath ;;
  path <- must path ;;
  let args := mkHitTestArgs isPointInRangeFn isSegmentInRangeFn findShapesInRange in
  emit (EvHitTest path transformedMousePoint args) ;;
  ret (Path_hitTest path transformedMousePoint args).

(** *** [performSubPathHitTest] *)

Definition performSubPathHitTest (vectorLayer : option Layer)
    (pathId : option string) (mousePoint : Point) : M (option nat) :=
  vl <- must vectorLayer ;;
  match findLayer vl pathId with
  | None => ret None
  | Some pathLayer =>
      found <- must (getTransformsForLayer vl pathId) ;;
      let transforms := rev found in
      let transformedMousePoint :=
        MathUtil_transformPoint mousePoint
          [Matrix_invert (MathUtil_flattenTransforms transforms)] in
      stroked <- must (Layer_isStroked pathLayer) ;;
      let isSegmentInRangeFn :=
        if stroked then
          Some (fun (distance : Q) (_ : Command) =>
                  match Layer_strokeWidth pathLayer with
                  | Some w => leQ distance (w / 2)
                  | None => false
                  end)
        else None in
      findShapesInRange <- must (Layer_isFilled pathLayer) ;;
      pathData <- must (Layer_pathData pathLayer) ;;
      let args := mkHitTestArgs None isSegmentInRangeFn findShapesInRange in
      emit (EvHitTest pathData transformedMousePoint args) ;;
      let hitResult := Path_hitTest pathData transformedMousePoint args in
      if negb (isHit hitResult) then ret None
      else
        match segmentHits hitResult with
        | _ :: _ =>
            hit <- must (lastOf (segmentHits hitResult)) ;;
            ret (Some (sh_subIdx hit))
        | [] =>
            hit <- must (lastOf (shapeHits hitResult)) ;;
            ret (Some (subIdx hit))
        end
  end.

(** *** The mutator, as the component drives it *)

Definition mutate (path : Path) : M PathMutator :=
  emit (EvMutate path) ;;
  ret (Path_mutate path).

(** One call on the mutator: it either rejects the operation by throwing
    or records it and returns itself. *)
Definition callOp (mutator : PathMutator) (op : MutOp) : M PathMutator :=
  emit (EvMutOp op) ;;
  match PathMutator_reject (mut_source mutator) (mut_ops mutator) op with
  | Some e => throw (EngineError e)
  | None => ret (mkMutator (mut_source mutator) (mut_ops mutator ++ [op]))
  end.

Definition build (mutator : PathMutator) : M Path :=
  emit (EvBuild mutator) ;;
  ret (PathMutator_build mutator).

(** *** [PointDragger] *)

Definition PointDragger_new (mouseDown : Point) (index : CommandIndex)
    (selectedPointSplit : bool) : PointDragger :=
  mkPointDragger mouseDown index selectedPointSplit false true.

Definition PointDragger_onMouseMove (mouseMove : Point) (pd : PointDragger)
    : PointDragger :=
  let distance := MathUtil_distance (pd_mouseDown pd) mouseMove in
  if ltQ DRAG_TRIGGER_TOUCH_SLOP distance then
    mkPointDragger (pd_mouseDown pd) (pd_selectedCommandIndex pd)
      (pd_selectedPointSplit pd) true (pd_isMouseDown pd)
  else pd.

Definition PointDragger_onMouseUp (mouseUp : Point) (pd : PointDragger)
    : PointDragger :=
  mkPointDragger (pd_mouseDown pd) (pd_selectedCommandIndex pd)
    (pd_selectedPointSplit pd) (pd_isDragTriggered pd) false.

Definition PointDragger_onMouseLeave (mouseLeave : Point) (pd : PointDragger)
    : PointDragger := pd.

(** *** Drawing

    Painting on the 2-D contexts changes no field of the component and
    calls neither the path engine nor the state service, so of [draw]
    and [drawOverlays] only the guards and the two overlay routines that
    project the mouse onto the path are kept. *)

Definition drawDraggingPoints : M unit :=
  s <- get ;;
  match appMode s, lastKnownMouseLocation s, pointDragger s with
  | SelectPoints, Some location, Some pd =>
      if pd_isMouseDown pd && pd_isDragTriggered pd && pd_selectedPointSplit pd then
        projectionOntoPath <-
          calculateProjectionOntoPath (vectorLayer s) (activePathId s) location ;;
        projectionOntoPath <- must projectionOntoPath ;;
        let projection := pp_projection projectionOntoPath in
        if ltQ (proj_d projection) MIN_SNAP_THRESHOLD then
          vl <- must (vectorLayer s) ;;
          _ <- must (getTransformsForLayer vl (activePathId s)) ;;
          ret tt
        else ret tt
      else ret tt
  | _, _, _ => ret tt
  end.

Definition drawAddPointPreview : M unit :=
  s <- get ;;
  match appMode s, lastKnownMouseLocation s with
  | AddPoints, Some location | SplitSubPaths, Some location =>
      projectionOntoPath <-
        calculateProjectionOntoPath (vectorLayer s) (activePathId s) location ;;
      projectionOntoPath <- must projectionOntoPath ;;
      let projection := pp_projection projectionOntoPath in
      if ltQ (proj_d projection) MIN_SNAP_THRESHOLD then
        vl <- must (vectorLayer s) ;;
        _ <- must (getTransformsForLayer vl (activePathId s)) ;;
        ret tt
      else ret tt
  | _, _ => ret tt
  end.

Definition drawOverlays : M unit :=
  s <- get ;;
  if negb (isViewInit s) then ret tt
  else if shouldDrawLayers s then
    drawDraggingPoints ;;
    drawAddPointPreview
  else ret tt.

Definition draw : M unit :=
  s <- get ;;
  if negb (isViewInit s) then ret tt
  else drawOverlays.

(** *** [processHitResult] *)

Fixpoint mapM {A B} (f : A -> M B) (l : list A) : M (list B) :=
  match l with
  | [] => ret []
  | x :: rest =>
      y <- f x ;;
      ys <- mapM f rest ;;
      ret (y :: ys)
  end.

(** [_.findLastIndex] walks the array from its end and stops at the first
    element the predicate accepts; [l] is the array reversed. *)
Fixpoint findFirstM {A} (pred : A -> M bool) (l : list A) : M (option A) :=
  match l with
  | [] => ret None
  | x :: rest =>
      b <- pred x ;;
      if b then ret (Some x) else findFirstM pred rest
  end.

Definition processHitResult (hitResult : HitResult) : M unit :=
  if isHit hitResult then
    match endPointHits hitResult, shapeHits hitResult with
    | _ :: _, _ =>
        endPointInfos <-
          mapM (fun index =>
                  path <- activePath ;;
                  path <- must path ;;
                  subPath <- must (nth_error path (subIdx index)) ;;
                  ret (index, nth_error (sp_commands subPath) (cmdIdx index)))
               (endPointHits hitResult) ;;
        lastSplit <-
          findFirstM (fun info => cmd <- must (snd info) ;; ret (cmd_isSplit cmd))
                     (rev endPointInfos) ;;
        chosen <- must (match lastSplit with
                        | Some info => Some info
                        | None => lastOf endPointInfos
                        end) ;;
        s <- get ;;
        emit (EvSetHover (mkHover HoverCommand (canvasType s) (fst chosen)))
    | [], _ :: _ =>
        subPathInfos <-
          mapM (fun index =>
                  path <- activePath ;;
                  path <- must path ;;
                  ret (index, nth_error path (subIdx index)))
               (shapeHits hitResult) ;;
        lastSplit <-
          findFirstM (fun info => subPath <- must (snd info) ;; ret (sp_isSplit subPath))
                     (rev subPathInfos) ;;
        chosen <- must (match lastSplit with
                        | Some info => Some info
                        | None => lastOf subPathInfos
                        end) ;;
        s <- get ;;
        emit (EvSetHover (mkHover HoverSubPath (canvasType s) (fst chosen)))
    | [], [] => ret tt
    end
  else emit EvHoverReset.

(** *** Mouse down *)

Definition onMouseDown (event : MouseEvent) : M unit :=
  s <- get ;;
  if negb (shouldProcessMouseEvents s) then ret tt
  else
    mouseDown <- mouseEventToPoint event ;;
    modify (set_lastKnownMouseLocation (Some mouseDown)) ;;
    let hitTestOpts :=
      match appMode s with
      | AddPoints | SplitSubPaths =>
          Some (mkHitTestOpts (Some true) None (Some true))
      | _ => None
      end in
    hitResult <- performHitTest mouseDown hitTestOpts ;;
    match appMode s with
    | SelectPoints =>
        if isEndPointHit hitResult then
          hitPointIndex <- must (lastOf (endPointHits hitResult)) ;;
          path <- activePath ;;
          path <- must path ;;
          subPath <- must (nth_error path (subIdx hitPointIndex)) ;;
          selectedCmd <- must (nth_error (sp_commands subPath) (cmdIdx hitPointIndex)) ;;
          modify (set_pointDragger
                    (Some (PointDragger_new mouseDown hitPointIndex
                             (cmd_isSplit selectedCmd))))
        else ret tt
    | AddPoints | SplitSubPaths =>
        (if isSegmentHit hitResult then
           hit <- must (lastOf (segmentHits hitResult)) ;;
           let projection := sh_projection hit in
           modify (set_shouldPerformActionOnMouseUp
                     (ltQ (proj_d projection) MIN_SNAP_THRESHOLD))
         else ret tt) ;;
        draw
    | PairSubPaths => ret tt
    end.

(** *** Mouse move *)

Definition onMouseMove (event : MouseEvent) : M unit :=
  s <- get ;;
  if negb (shouldProcessMouseEvents s) then ret tt
  else
    mouseMove <- mouseEventToPoint event ;;
    modify (set_lastKnownMouseLocation (Some mouseMove)) ;;
    let rest :=
      hitResult <- performHitTest mouseMove None ;;
      processHitResult hitResult ;;
      draw in
    match appMode s, pointDragger s with
    | SelectPoints, Some pd =>
        let pd' := PointDragger_onMouseMove mouseMove pd in
        modify (set_pointDragger (Some pd')) ;;
        if pd_selectedPointSplit pd' && pd_isDragTriggered pd' then draw
        else rest
    | _, _ => rest
    end.

(** *** Mouse up *)

(** The body of [if (newSubIdx === oldSubIdx)] in the drag of a split
    point: build the mutator, then reset hover and selection and hand
    the built path to the state service. *)
Definition commitSplitDrag (mouseUp : Point) (projOntoPath : ProjectionOntoPath)
    (oldSubIdx oldCmdIdx : nat) : M unit :=
  let newSubIdx := pp_subIdx projOntoPath in
  let newCmdIdx := pp_cmdIdx projOntoPath in
  s <- get ;;
  activeLayer <- must (getActivePathLayer s (canvasType s)) ;;
  startingPath <- must (Layer_pathData activeLayer) ;;
  pathMutator <- mutate startingPath ;;
  pathMutator <-
    (if (oldCmdIdx <? newCmdIdx)%nat then
       m <- callOp pathMutator
              (SplitCommand newSubIdx newCmdIdx (proj_t (pp_projection projOntoPath))) ;;
       callOp m (UnsplitCommand oldSubIdx oldCmdIdx)
     else if (newCmdIdx <? oldCmdIdx)%nat then
       m <- callOp pathMutator (UnsplitCommand oldSubIdx oldCmdIdx) ;;
       callOp m
         (SplitCommand newSubIdx newCmdIdx (proj_t (pp_projection projOntoPath)))
     else
       m <- callOp pathMutator (UnsplitCommand oldSubIdx oldCmdIdx) ;;
       unsplit <- build m ;;
       modify (assignActivePathData (canvasType s) unsplit) ;;
       s' <- get ;;
       tempProjOntoPath <-
         calculateProjectionOntoPath (vectorLayer s') (activePathId s') mouseUp ;;
       tempProjOntoPath <- must tempProjOntoPath ;;
       if (oldSubIdx =? pp_subIdx tempProjOntoPath)%nat then
         callOp m (SplitCommand (pp_subIdx tempProjOntoPath)
                     (pp_cmdIdx tempProjOntoPath)
                     (proj_t (pp_projection tempProjOntoPath)))
       else mutate startingPath) ;;
  emit EvHoverReset ;;
  emit EvSelectionReset ;;
  built <- build pathMutator ;;
  updateActivePath (canvasType s) built.

(** The swap that puts the two split points of a filled subpath in
    order: by command index, then by [t]. *)
Definition orderSplitPoints (firstCmdIdx : nat) (firstT : Q)
    (secondCmdIdx : nat) (secondT : Q) : (nat * Q) * (nat * Q) :=
  if (secondCmdIdx <? firstCmdIdx)%nat
     || ((firstCmdIdx =? secondCmdIdx)%nat && ltQ secondT firstT)
  then ((secondCmdIdx, secondT), (firstCmdIdx, firstT))
  else ((firstCmdIdx, firstT), (secondCmdIdx, secondT)).

(** The body of [if (projection.d < MIN_SNAP_THRESHOLD)] in add-points
    and split-subpaths mode. *)
Definition commitSplit (projOntoPath : ProjectionOntoPath) : M unit :=
  let subIdx := pp_subIdx projOntoPath in
  let cmdIdx := pp_cmdIdx projOntoPath in
  let projection := pp_projection projOntoPath in
  s <- get ;;
  activePathLayer <- must (getActivePathLayer s (canvasType s)) ;;
  pathData <- must (Layer_pathData activePathLayer) ;;
  pathMutator <- mutate pathData ;;
  pathMutator <-
    match appMode s with
    | AddPoints => callOp pathMutator (SplitCommand subIdx cmdIdx (proj_t projection))
    | SplitSubPaths =>
        filled <- must (Layer_isFilled activePathLayer) ;;
        if filled then
          match initialFilledSubPathProjOntoPath s with
          | None =>
              modify (set_initialFilledSubPathProjOntoPath (Some projOntoPath)) ;;
              ret pathMutator
          | Some initial =>
              if negb (pp_subIdx initial =? pp_subIdx projOntoPath)%nat then
                modify (set_initialFilledSubPathProjOntoPath None) ;;
                ret pathMutator
              else
                let '((firstCmdIdx, firstT), (secondCmdIdx, secondT)) :=
                  orderSplitPoints
                    (pp_cmdIdx initial) (proj_t (pp_projection initial))
                    (pp_cmdIdx projOntoPath) (proj_t (pp_projection projOntoPath)) in
                m <- callOp pathMutator
                       (SplitCommand (pp_subIdx projOntoPath) firstCmdIdx firstT) ;;
                m <- callOp m
                       (SplitCommand (pp_subIdx projOntoPath) (secondCmdIdx + 1)%nat secondT) ;;
                m <- callOp m
                       (SplitFilledSubPath (pp_subIdx projOntoPath)
                          firstCmdIdx (secondCmdIdx + 1)%nat) ;;
                modify (set_initialFilledSubPathProjOntoPath None) ;;
                ret m
          end
        else
          stroked <- must (Layer_isStroked activePathLayer) ;;
          if stroked then
            m <- callOp pathMutator (SplitCommand subIdx cmdIdx (proj_t projection)) ;;
            callOp m (SplitStrokedSubPath subIdx cmdIdx)
          else ret pathMutator
    | _ => ret pathMutator
    end ;;
  built <- build pathMutator ;;
  updateActivePath (canvasType s) built.

Definition onMouseUp (event : MouseEvent) : M unit :=
  s <- get ;;
  if negb (shouldProcessMouseEvents s) then ret tt
  else
    mouseUp <- mouseEventToPoint event ;;
    modify (set_lastKnownMouseLocation (Some mouseUp)) ;;
    match appMode s with
    | SelectPoints =>
        match pointDragger s with
        | Some pd =>
            let pd := PointDragger_onMouseUp mouseUp pd in
            modify (set_pointDragger (Some pd)) ;;
            let selectedCommandIndex := pd_selectedCommandIndex pd in
            (if pd_isDragTriggered pd then
               if pd_selectedPointSplit pd then
                 projOntoPath <-
                   calculateProjectionOntoPath (vectorLayer s) (activePathId s) mouseUp ;;
                 projOntoPath <- must projOntoPath ;;
                 if (pp_subIdx projOntoPath =? subIdx selectedCommandIndex)%nat then
                   commitSplitDrag mouseUp projOntoPath
                     (subIdx selectedCommandIndex) (cmdIdx selectedCommandIndex)
                 else ret tt
               else ret tt
             else
               emit (EvSelectionToggle
                       (mkSelection SelectionSubPath (canvasType s)
                          (subIdx selectedCommandIndex) None) false) ;;
               emit (EvSelectionToggle
                       (mkSelection SelectionCommand (canvasType s)
                          (subIdx selectedCommandIndex)
                          (Some (cmdIdx selectedCommandIndex)))
                       (shiftKey event || metaKey event))) ;;
            draw ;;
            modify (set_pointDragger None)
        | None => ret tt
        end
    | mode =>
        _ <- performHitTest mouseUp None ;;
        match mode with
        | AddPoints | SplitSubPaths =>
            s1 <- get ;;
            (if shouldPerformActionOnMouseUp s1 then
               location <- must (lastKnownMouseLocation s1) ;;
               projOntoPath <-
                 calculateProjectionOntoPath (vectorLayer s1) (activePathId s1) location ;;
               projOntoPath <- must projOntoPath ;;
               (if ltQ (proj_d (pp_projection projOntoPath)) MIN_SNAP_THRESHOLD then
                  commitSplit projOntoPath
                else modify (set_initialFilledSubPathProjOntoPath None)) ;;
               modify (set_shouldPerformActionOnMouseUp false)
             else ret tt) ;;
            draw
        | _ => ret tt
        end
    end.

(** *** Mouse leave *)

Definition onMouseLeave (event : MouseEvent) : M unit :=
  s <- get ;;
  if negb (shouldProcessMouseEvents s) then ret tt
  else
    mouseLeave <- mouseEventToPoint event ;;
    modify (set_lastKnownMouseLocation (Some mouseLeave)) ;;
    match appMode s with
    | SelectPoints =>
        match pointDragger s with
        | Some pd =>
            modify (set_pointDragger (Some (PointDragger_onMouseLeave mouseLeave pd))) ;;
            draw
        | None => ret tt
        end
    | AddPoints | SplitSubPaths =>
        modify (set_shouldPerformActionOnMouseUp false) ;;
        modify (set_initialFilledSubPathProjOntoPath None) ;;
        draw
    | PairSubPaths => ret tt
    end.

(** *** The app-mode subscription of the start and end canvases *)

Definition onAppModeChanged : M unit :=
  emit EvSelectionReset ;;
  emit EvHoverReset ;;
  modify (set_pointDragger None) ;;
  modify (set_shouldPerformActionOnMouseUp false) ;;
  modify (set_lastKnownMouseLocation None) ;;
  modify (set_initialFilledSubPathProjOntoPath None) ;;
  draw.

(** *** The hover preview *)

Definition updateCurrentHoverFn (hover : option Hover) : M unit :=
  s <- get ;;
  previewPath <-
    match hover with
    | Some hover =>
        if shouldDrawLayers s then
          path <- activePath ;;
          path <- must path ;;
          mutator <- mutate path ;;
          let subIdx := subIdx (hover_index hover) in
          let cmdIdx := cmdIdx (hover_index hover) in
          match hover_type hover with
          | HoverSplit =>
              m <- callOp mutator (SplitCommandInHalf subIdx cmdIdx) ;;
              built <- build m ;; ret (Some built)
          | HoverUnsplit =>
              m <- callOp mutator (UnsplitCommand subIdx cmdIdx) ;;
              built <- build m ;; ret (Some built)
          | HoverReverse =>
              m <- callOp mutator (ReverseSubPath subIdx) ;;
              built <- build m ;; ret (Some built)
          | HoverShiftForward =>
              m <- callOp mutator (ShiftSubPathForward subIdx) ;;
              built <- build m ;; ret (Some built)
          | HoverShiftBack =>
              m <- callOp mutator (ShiftSubPathBack subIdx) ;;
              built <- build m ;; ret (Some built)
          | HoverCommand | HoverSubPath => ret None
          end
        else ret None
    | None => ret None
    end ;;
  modify (set_currentHoverPreviewPath previewPath) ;;
  drawOverlays.

(** The callback subscribed to the hover service. *)
Definition onHoverChanged (hover : option Hover) : M unit :=
  s <- get ;;
  match hover with
  | None => updateCurrentHoverFn None
  | Some h =>
      if negb (CanvasType_eqb (hover_source h) (canvasType s))
         && negb (match hover_type h with HoverCommand => true | _ => false end)
      then updateCurrentHoverFn None
      else updateCurrentHoverFn (Some h)
  end.

(** *** The preview canvas *)

(** [startPathLayer.isMorphableWith(endPathLayer)] *)
Definition PathLayer_isMorphableWith (a b : Layer) : M bool :=
  pa <- must (Layer_pathData a) ;;
  pb <- must (Layer_pathData b) ;;
  ret (Path_isMorphableWith pa pb).

(** Modelled from the spec: [PathLayer.interpolate] (scripts/layers) is
    not among the source files.  Section 4.5: interpolate "requires
    isMorphableWith(start, end) true (else fails with
    NotMorphableError)" and otherwise produces the blended path, which
    becomes the path data of the preview layer. *)
Definition PathLayer_interpolate (startLayer endLayer : Layer) (fraction : Q)
    : M unit :=
  startPath <- must (Layer_pathData startLayer) ;;
  endPath <- must (Layer_pathData endLayer) ;;
  emit (EvInterpolate startPath endPath fraction) ;;
  if Path_isMorphableWith startPath endPath then
    modify (assignActivePathData CanvasPreview (Path_blend startPath endPath fraction))
  else throw (EngineError NotMorphableError).

Definition interpolatePreview : M unit :=
  s <- get ;;
  let fraction := animatedValue s in
  (match getActivePathLayer s CanvasStart,
         getActivePathLayer s CanvasPreview,
         getActivePathLayer s CanvasEnd with
   | Some startPathLayer, Some previewPathLayer, Some endPathLayer =>
       morphable <- PathLayer_isMorphableWith startPathLayer endPathLayer ;;
       if morphable then PathLayer_interpolate startPathLayer endPathLayer fraction
       else ret tt
   | _, _, _ => ret tt
   end) ;;
  s <- get ;;
  (match getActiveRotationLayer s CanvasStart,
         getActiveRotationLayer s CanvasPreview,
         getActiveRotationLayer s CanvasEnd,
         getVectorLayer s CanvasPreview with
   | Some startGroupLayer, Some previewGroupLayer, Some endGroupLayer, Some vl =>
       match updateLayer
               (fun l => GroupLayer_interpolate l startGroupLayer endGroupLayer fraction)
               (StateService_rotationLayerId vl (getActivePathId s CanvasPreview)) vl with
       | Some vl' =>
           modify (set_vectorLayers (pcSet (vectorLayers s) CanvasPreview (Some vl')))
       | None => ret tt
       end
   | _, _, _, _ => ret tt
   end) ;;
  s <- get ;;
  (match getVectorLayer s CanvasStart,
         getVectorLayer s CanvasPreview,
         getVectorLayer s CanvasEnd with
   | Some startVectorLayer, Some previewVectorLayer, Some endVectorLayer =>
       modify (set_vectorLayers
                 (pcSet (vectorLayers s) CanvasPreview
                    (Some (VectorLayer_interpolate previewVectorLayer
                             startVectorLayer endVectorLayer fraction))))
   | _, _, _ => ret tt
   end) ;;
  draw.

(** *** What can happen to a component *)

Inductive Input : Type :=
| MouseDown (event : MouseEvent)
| MouseMove (event : MouseEvent)
| MouseUp (event : MouseEvent)
| MouseLeave (event : MouseEvent)
| AppModeChanged (mode : AppMode)
| HoverChanged (hover : option Hover)
| AnimatedValueChanged (fraction : Q)
| ActivePathIdChanged (id : option string)
| SelectionChanged
| SettingsChanged
| MorphabilityStatusChanged.

(** The subscriptions of [ngAfterViewInit].  The preview canvas listens
    to the animator and to its active path id, and redraws when the
    settings or the morphability status change; the other two listen to
    the app mode and the hover service, redraw when their active path id
    changes and redraw their overlays when the selection does. *)
Definition handle (i : Input) : M unit :=
  match i with
  | MouseDown event => onMouseDown event
  | MouseMove event => onMouseMove event
  | MouseUp event => onMouseUp event
  | MouseLeave event => onMouseLeave event
  | AppModeChanged mode =>
      modify (set_appMode mode) ;;
      s <- get ;;
      if CanvasType_eqb (canvasType s) CanvasPreview then ret tt
      else onAppModeChanged
  | HoverChanged hover =>
      s <- get ;;
      if CanvasType_eqb (canvasType s) CanvasPreview then ret tt
      else onHoverChanged hover
  | AnimatedValueChanged fraction =>
      modify (set_animatedValue fraction) ;;
      s <- get ;;
      if CanvasType_eqb (canvasType s) CanvasPreview then interpolatePreview
      else ret tt
  | ActivePathIdChanged id =>
      s <- get ;;
      modify (set_activePathIds (pcSet (activePathIds s) (canvasType s) id)) ;;
      if CanvasType_eqb (canvasType s) CanvasPreview then interpolatePreview
      else draw
  | SelectionChanged =>
      s <- get ;;
      if CanvasType_eqb (canvasType s) CanvasPreview then ret tt
      else drawOverlays
  | SettingsChanged | MorphabilityStatusChanged =>
      s <- get ;;
      if CanvasType_eqb (canvasType s) CanvasPreview then draw
      else ret tt
  end.

(** The state the component is left in, whether the handler returned or
    threw. *)
Definition step (s : Comp) (i : Input) : Comp := stateOf (handle i s).

Definition run (inputs : list Input) (s : Comp) : Comp :=
  fold_left step inputs s.

(** The calls a computation adds to the log. *)
Definition emitted {A} (m : M A) (s : Comp) : list Event :=
  skipn (List.length (trace s)) (trace (stateOf (m s))).

End Component.

(** ** [splitCommand], as the design document specifies it *)

Section SplitCommand.
Context {C : Collaborators}.

Definition markSplit (c : Command) : Command :=
  mkCommand (cmd_kind c) (cmd_points c) true.

(** Modelled from the spec: [PathMutator.splitCommand] (scripts/paths) is
    not among the source files.  Section 4.3: it "replaces command at
    cmdIdx with two commands from splitAt(t); all subsequent commands in
    that subpath shift index by +1; new first half inherits split marker
    = true"; indices out of bounds fail with [IndexOutOfRangeError], and
    [splitAt] fails with [InvalidParameterError] unless [0 < t < 1]. *)
Definition SubPath_splitCommand (sp : SubPath) (cmdIdx : nat) (t : Q)
    : ErrorKind + SubPath :=
  match nth_error (sp_commands sp) cmdIdx with
  | None => inl IndexOutOfRangeError
  | Some cmd =>
      if ltQ 0 t && ltQ t 1 then
        let halves := Command_splitAt cmd t in
        inr (mkSubPath
               (firstn cmdIdx (sp_commands sp)
                  ++ [markSplit (fst halves); snd halves]
                  ++ skipn (S cmdIdx) (sp_commands sp))
               (sp_isSplit sp))
      else inl InvalidParameterError
  end.

Definition Path_splitCommand (p : Path) (subIdx cmdIdx : nat) (t : Q)
    : ErrorKind + Path :=
  match nth_error p subIdx with
  | None => inl IndexOutOfRangeError
  | Some sp =>
      match SubPath_splitCommand sp cmdIdx t with
      | inl e => inl e
      | inr sp' => inr (firstn subIdx p ++ [sp'] ++ skipn (S subIdx) p)
      end
  end.

(** The mutator calls among logged events, oldest first. *)
Definition mutOps (events : list Event) : list MutOp :=
  flat_map (fun ev => match ev with EvMutOp op => [op] | _ => [] end) events.

(** The command index an operation on one subpath refers to. *)
Definition cmdIdxOf (op : MutOp) : option nat :=
  match op with
  | SplitCommand _ i _ => Some i
  | SplitCommandInHalf _ i => Some i
  | UnsplitCommand _ i => Some i
  | SplitStrokedSubPath _ i => Some i
  | _ => None
  end.

End SplitCommand.

(** ** Specification vocabulary *)

(** [ancestors root parents target]: [target] occurs in the tree under
    [root], and [parents] are the layers on the way down to it, [root]
    first, [target] excluded. *)
Inductive ancestors : Layer -> list Layer -> Layer -> Prop :=
| ancestors_here : forall l, ancestors l [] l
| ancestors_down : forall l children child parents target,
    Layer_children l = Some children ->
    In child children ->
    ancestors child parents target ->
    ancestors l (l :: parents) target.

(** The ids of all layers of a tree, in the order the lookups visit them. *)
Fixpoint layerIds (l : Layer) : list string :=
  Layer_id l ::
  match l with
  | VectorLayer _ children _ _ _ => flat_map layerIds children
  | GroupLayer _ children _ _ _ _ _ _ _ => flat_map layerIds children
  | _ => []
  end.

(** The transform attributes of the group layers among some layers, in
    order; layers of other kinds are dropped. *)
Record GroupTransform : Type := mkGroupTransform {
  g_pivotX : Q; g_pivotY : Q;
  g_translateX : Q; g_translateY : Q;
  g_rotation : Q;
  g_scaleX : Q; g_scaleY : Q
}.

Fixpoint groupsAmong (layers : list Layer) : list GroupTransform :=
  match layers with
  | [] => []
  | GroupLayer _ _ pX pY tX tY r sX sY :: rest =>
      mkGroupTransform pX pY tX tY r sX sY :: groupsAmong rest
  | _ :: rest => groupsAmong rest
  end.

Section SpecVocabulary.
Context {C : Collaborators}.

(** The loop of [getTransformsFn] over the children, on its own. *)
Fixpoint eachChild (layerId : option string) (parents : list Layer)
    (children : list Layer) : option (list Matrix) :=
  match children with
  | [] => None
  | child :: rest =>
      match getTransformsFn layerId parents child with
      | Some transforms => Some transforms
      | None => eachChild layerId parents rest
      end
  end.

(** The loop of [updateLayer] over the children, on its own. *)
Fixpoint eachUpdate (f : Layer -> Layer) (layerId : option string)
    (children : list Layer) : option (list Layer) :=
  match children with
  | [] => None
  | child :: rest =>
      match updateLayer f layerId child with
      | Some child' => Some (child' :: rest)
      | None =>
          match eachUpdate f layerId rest with
          | Some rest' => Some (child :: rest')
          | None => None
          end
      end
  end.

(** Translate by the pivot, translate, rotate, scale, translate back. *)
Definition pivotedTransform (g : GroupTransform) : list Matrix :=
  [ Matrix_fromTranslation (g_pivotX g) (g_pivotY g);
    Matrix_fromTranslation (g_translateX g) (g_translateY g);
    Matrix_fromRotation (g_rotation g);
    Matrix_fromScaling (g_scaleX g) (g_scaleY g);
    Matrix_fromTranslation (- g_pivotX g) (- g_pivotY g) ].

End SpecVocabulary.

(** The state with further calls logged. *)
Definition addEvents (s : Comp) (events : list Event) : Comp :=
  set_trace (trace s ++ events) s.

(** What is left of a result once the state is dropped. *)
Definition valueOf {A} (r : Res A) : option A :=
  match r with Ok a _ => Some a | Throw _ _ => None end.

(** A layer tree with every path emptied: what remains is the shape of
    the tree, the ids and the attributes. *)
Fixpoint skeleton (l : Layer) : Layer :=
  match l with
  | VectorLayer id children w h a => VectorLayer id (map skeleton children) w h a
  | GroupLayer id children pX pY tX tY r sX sY =>
      GroupLayer id (map skeleton children) pX pY tX tY r sX sY
  | PathLayer id _ f s w => PathLayer id [] f s w
  | ClipPathLayer id _ => ClipPathLayer id []
  end.

(** Calls that hand a path to the state service, and calls that build or
    drive a mutator. *)
Definition isProject (ev : Event) : bool :=
  match ev with EvProject _ _ => true | _ => false end.

Definition isEngineCall (ev : Event) : bool :=
  match ev with EvProject _ _ | EvHitTest _ _ _ => true | _ => false end.

Definition isCommit (ev : Event) : bool :=
  match ev with EvUpdateActivePath _ _ => true | _ => false end.

Definition isEdit (ev : Event) : bool :=
  match ev with
  | EvMutate _ | EvMutOp _ | EvBuild _ | EvUpdateActivePath _ _ => true
  | _ => false
  end.

Section CallVocabulary.
Context {C : Collaborators}.

(** A mouse point taken into the local space of a path: through the
    inverse of the flattened, reversed transform list. *)
Definition toLocal (flat : list Matrix -> Matrix) (transforms : list Matrix)
    (mouse : Point) : Point :=
  MathUtil_transformPoint mouse [Matrix_invert (flat (rev transforms))].

(** The transform list of the active path layer of the component. *)
Definition transformsOf (s : Comp) : option (list Matrix) :=
  match vectorLayer s with
  | Some vl => getTransformsForLayer vl (activePathId s)
  | None => None
  end.

(** A call to [project] or [hitTest] whose point is the given mouse point
    taken through the given transforms. *)
Definition LocalCall (transforms : option (list Matrix)) (mouse : option Point)
    (ev : Event) : Prop :=
  match ev with
  | EvProject _ point =>
      exists ts m, transforms = Some ts /\ mouse = Some m /\
                   point = toLocal MathUtil_flattenTransforms ts m
  | EvHitTest _ point _ =>
      exists ts m, transforms = Some ts /\ mouse = Some m /\
                   point = toLocal Matrix_flatten ts m
  | _ => True
  end.

(** Logged by the overlay routines of a state: projections of its last
    known mouse location through the transforms of its active layer. *)
Definition overlayCall (s : Comp) (ev : Event) : Prop :=
  isProject ev = true /\
  LocalCall (transformsOf s) (lastKnownMouseLocation s) ev.

(** The outcome of redrawing in a state: some such calls logged, nothing
    else changed. *)
Definition drawn (s : Comp) (r : Res unit) : Prop :=
  exists delta,
    (r = Ok tt (addEvents s delta) \/ r = Throw TypeError (addEvents s delta))
    /\ Forall (overlayCall s) delta.

(** A computation that only reads. *)
Definition readOnly {A} (m : M A) : Prop :=
  forall s, stateOf (m s) = s.

(** The calls logged between two states are all of one kind. *)
Definition logs (G : Event -> Prop) (s s' : Comp) : Prop :=
  exists delta, trace s' = trace s ++ delta /\ Forall G delta.

(** Between two states an observation of the state kept its value, and
    the calls logged in between are all of one kind. *)
Definition keeps {X} (observe : Comp -> X) (G : Event -> Prop) (s s' : Comp) : Prop :=
  observe s' = observe s /\ logs G s s'.

(** A state reached under a relation, possibly followed by a redraw. *)
Definition thenDraws (R : Comp -> Comp -> Prop) (s s' : Comp) : Prop :=
  exists s3, R s s3 /\ (s' = s3 \/ s' = stateOf (draw s3)).

(** Between two states the active layer kept its transforms and the
    mouse stayed where it was, and every engine call in between was
    made at that mouse point taken through those transforms. *)
Definition anchored (transforms : option (list Matrix)) (mouse : option Point)
    (s : Comp) : Prop :=
  transformsOf s = transforms /\ lastKnownMouseLocation s = mouse.

Definition local (transforms : option (list Matrix)) (mouse : option Point)
    (s s' : Comp) : Prop :=
  anchored transforms mouse s' /\ logs (LocalCall transforms mouse) s s'.

(** The options of one [hitTest] call, read off the arguments it got. *)
Definition testsPoints (args : HitTestArgs) : bool :=
  match isPointInRangeFn args with Some _ => true | None => false end.

Definition testsSegments (args : HitTestArgs) : bool :=
  match isSegmentInRangeFn args with Some _ => true | None => false end.

(** A [hitTest] call that tests segments and nothing else. *)
Definition segmentsOnly (ev : Event) : Prop :=
  match ev with
  | EvHitTest _ _ args =>
      testsPoints args = false /\ testsSegments args = true /\
      findShapesInRange args = false
  | _ => True
  end.

(** The path data of the active path layer of the component's canvas,
    as the commits read it. *)
Definition activePathData (s : Comp) : option Path :=
  match getActivePathLayer s (canvasType s) with
  | Some layer => Layer_pathData layer
  | None => None
  end.

(** A path interpolation asked of the engine in a state: at the
    animated fraction, between the paths of the active start and end
    path layers, all three active path layers being there and the two
    paths morphable. *)
Definition guardedInterpolation (s : Comp) (ev : Event) : Prop :=
  match ev with
  | EvInterpolate startPath endPath fraction =>
      fraction = animatedValue s /\
      exists startLayer previewLayer endLayer,
        getActivePathLayer s CanvasStart = Some startLayer /\
        getActivePathLayer s CanvasPreview = Some previewLayer /\
        getActivePathLayer s CanvasEnd = Some endLayer /\
        Layer_pathData startLayer = Some startPath /\
        Layer_pathData endLayer = Some endPath /\
        Path_isMorphableWith startPath endPath = true
  | _ => True
  end.

(** The mutator call a hover previews, if any. *)
Definition hoverOp (hover : Hover) : option MutOp :=
  let subIdx := subIdx (hover_index hover) in
  let cmdIdx := cmdIdx (hover_index hover) in
  match hover_type hover with
  | HoverSplit => Some (SplitCommandInHalf subIdx cmdIdx)
  | HoverUnsplit => Some (UnsplitCommand subIdx cmdIdx)
  | HoverReverse => Some (ReverseSubPath subIdx)
  | HoverShiftForward => Some (ShiftSubPathForward subIdx)
  | HoverShiftBack => Some (ShiftSubPathBack subIdx)
  | HoverCommand | HoverSubPath => None
  end.

(** The snapshot a hover shows in a state: the active path with the one
    previewed call applied. *)
Definition hoverPreview (hover : option Hover) (s : Comp) : option Path :=
  match hover with
  | Some h =>
      if shouldDrawLayers s then
        match hoverOp h, activePathData s with
        | Some op, Some path => Some (PathMutator_build (mkMutator path [op]))
        | _, _ => None
        end
      else None
  | None => None
  end.

(** The state with the hover preview and the log of calls blanked: what
    the rest of the application and the other handlers see. *)
Definition besidesHoverPreview (s : Comp) : Comp :=
  set_trace [] (set_currentHoverPreviewPath None s).

(** The viewport point of a mouse event. *)
Definition pointOf (event : MouseEvent) (s : Comp) : Point :=
  mkPoint ((pageX event - canvasOffsetLeft s) / cssScale s)
          ((pageY event - canvasOffsetTop s) / cssScale s).

(** The mouse point an input is about: the point of the event for a mouse
    input, the last known mouse location for the others. *)
Definition mouseFor (i : Input) (s : Comp) : option Point :=
  match i with
  | MouseDown e | MouseMove e | MouseUp e | MouseLeave e => Some (pointOf e s)
  | _ => lastKnownMouseLocation s
  end.

(** Add-points or split-subpaths mode. *)
Definition splitting (s : Comp) : bool :=
  match appMode s with
  | AddPoints | SplitSubPaths => true
  | _ => false
  end.

(** The distance a mouse down measures in these modes: from the mouse to
    the last segment its hit test finds, if it finds one. *)
Definition distanceAtMouseDown (event : MouseEvent) (s : Comp) : option Q :=
  match valueOf (performHitTest (pointOf event s)
                   (Some (mkHitTestOpts (Some true) None (Some true))) s) with
  | Some hitResult =>
      if isSegmentHit hitResult then
        option_map (fun hit => proj_d (sh_projection hit))
          (lastOf (segmentHits hitResult))
      else None
  | None => None
  end.

(** The distance a mouse up measures: from the mouse to its projection
    onto the active path. *)
Definition distanceAtMouseUp (event : MouseEvent) (s : Comp) : option Q :=
  match valueOf (calculateProjectionOntoPath (vectorLayer s) (activePathId s)
                   (pointOf event s) s) with
  | Some (Some projOntoPath) => Some (proj_d (pp_projection projOntoPath))
  | _ => None
  end.

(** A distance that was measured and is strictly below the snap
    threshold. *)
Definition snaps (d : option Q) : bool :=
  match d with
  | Some d => ltQ d MIN_SNAP_THRESHOLD
  | None => false
  end.

(** None of the mouse downs among the inputs snaps to a segment, each
    taken in the state it arrives in. *)
Fixpoint noMouseDownSnaps (inputs : list Input) (s : Comp) : bool :=
  match inputs with
  | [] => true
  | i :: rest =>
      negb (match i with
            | MouseDown down => snaps (distanceAtMouseDown down s)
            | _ => false
            end)
      && noMouseDownSnaps rest (step s i)
  end.

End CallVocabulary.

(** ** Vocabulary for the further properties of the component *)

(** What the pointer handlers and the hover preview keep of a gesture
    in progress, with the canvas the component is. *)
Definition gesture (s : Comp) :=
  (canvasType s, pointDragger s, shouldPerformActionOnMouseUp s,
   lastKnownMouseLocation s, initialFilledSubPathProjOntoPath s,
   currentHoverPreviewPath s).

(** The calls of a preview canvas: projections for its overlay, and
    interpolations. *)
Definition previewCall (ev : Event) : Prop :=
  match ev with
  | EvProject _ _ | EvInterpolate _ _ _ => True
  | _ => False
  end.

(** Whether the command, or the subpath, a hit points at is one that a
    split introduced; a hit that points at nothing counts as not. *)
Definition hitsSplitCommand (path : Path) (index : CommandIndex) : bool :=
  match Path_commandAt path (subIdx index) (cmdIdx index) with
  | Some cmd => cmd_isSplit cmd
  | None => false
  end.

Definition hitsSplitSubPath (path : Path) (index : CommandIndex) : bool :=
  match nth_error path (subIdx index) with
  | Some subPath => sp_isSplit subPath
  | None => false
  end.

(** Of some hits, listed first to last, the one the hover goes to: the
    last that is split, or the last of all when none is. *)
Definition lastSplitOrLast (isSplit : CommandIndex -> bool)
    (hits : list CommandIndex) (chosen : CommandIndex) : Prop :=
  exists before after,
    hits = before ++ chosen :: after /\
    Forall (fun index => isSplit index = false) after /\
    (isSplit chosen = true \/
     after = [] /\ Forall (fun index => isSplit index = false) before).

(** ** Sizing the canvas *)

(** Canvas margin in CSS pixels. *)
Definition CANVAS_MARGIN : Q := 36.

Record Size : Type := mkSize { size_width : Q; size_height : Q }.

Definition set_cssContainerWidth (v : Q) (s : Comp) : Comp :=
  mkComp (canvasType s) (isViewInit s) v (cssContainerHeight s)
    (cssScale s) (canvasOffsetLeft s) (canvasOffsetTop s)
    (currentHoverPreviewPath s) (pointDragger s) (shouldPerformActionOnMouseUp s)
    (lastKnownMouseLocation s) (initialFilledSubPathProjOntoPath s)
    (appMode s) (animatedValue s) (vectorLayers s) (activePathIds s) (trace s).

Definition set_cssContainerHeight (v : Q) (s : Comp) : Comp :=
  mkComp (canvasType s) (isViewInit s) (cssContainerWidth s) v
    (cssScale s) (canvasOffsetLeft s) (canvasOffsetTop s)
    (currentHoverPreviewPath s) (pointDragger s) (shouldPerformActionOnMouseUp s)
    (lastKnownMouseLocation s) (initialFilledSubPathProjOntoPath s)
    (appMode s) (animatedValue s) (vectorLayers s) (activePathIds s) (trace s).

Definition set_cssScale (v : Q) (s : Comp) : Comp :=
  mkComp (canvasType s) (isViewInit s) (cssContainerWidth s) (cssContainerHeight s)
    v (canvasOffsetLeft s) (canvasOffsetTop s)
    (currentHoverPreviewPath s) (pointDragger s) (shouldPerformActionOnMouseUp s)
    (lastKnownMouseLocation s) (initialFilledSubPathProjOntoPath s)
    (appMode s) (animatedValue s) (vectorLayers s) (activePathIds s) (trace s).

(** The component together with the fields only the sizing code uses:
    the viewport size last seen ([vlSize]), the number of physical pixels
    per viewport pixel ([attrScale]), and the size [resizeAndDraw] gives
    the container and the four canvases, all five alike: the [width] and
    [height] attributes, in physical pixels, and the CSS size. *)
Record Sized : Type := mkSized {
  comp : Comp;
  vlSize : Size;
  attrScale : Q;
  canvasAttr : Size;
  canvasCss : Size
}.

Section Sizing.
Context {C : Collaborators}.

(** JavaScript's [/] and [*] on numbers.  They round their result to a
    double, and a division by zero gives an infinity or [NaN]; what they
    answer is left open here, and nothing that is proved of the sizing
    depends on it. *)
Variable Number_div : Q -> Q -> Q.
Variable Number_mul : Q -> Q -> Q.

(** [resizeAndDraw]; [devicePixelRatio] is the browser's.  The rulers,
    redrawn last, are outside this development. *)
Definition resizeAndDraw (devicePixelRatio : Q) (v : Sized) : Sized :=
  let s := comp v in
  if negb (isViewInit s) then v
  else
    let vlWidth := size_width (vlSize v) in
    let vlHeight := size_height (vlSize v) in
    let vectorAspectRatio := Number_div vlWidth vlHeight in
    let containerAspectRatio :=
      Number_div (cssContainerWidth s) (cssContainerHeight s) in
    let cssScale :=
      if ltQ containerAspectRatio vectorAspectRatio
      then Number_div (cssContainerWidth s) vlWidth
      else Number_div (cssContainerHeight s) vlHeight in
    let attrScale := Number_mul cssScale devicePixelRatio in
    let cssWidth := Number_mul vlWidth cssScale in
    let cssHeight := Number_mul vlHeight cssScale in
    mkSized (stateOf (draw (set_cssScale cssScale s))) (vlSize v) attrScale
      (mkSize (Number_mul cssWidth devicePixelRatio)
              (Number_mul cssHeight devicePixelRatio))
      (mkSize cssWidth cssHeight).

(** The callback subscribed to the canvas resize service. *)
Definition onCanvasResize (devicePixelRatio : Q) (size : Size) (v : Sized) : Sized :=
  let s := comp v in
  let oldWidth := cssContainerWidth s in
  let oldHeight := cssContainerHeight s in
  let s1 :=
    set_cssContainerHeight (Qmax 1 (size_height size - CANVAS_MARGIN * 2))
      (set_cssContainerWidth (Qmax 1 (size_width size - CANVAS_MARGIN * 2)) s) in
  let v1 := mkSized s1 (vlSize v) (attrScale v) (canvasAttr v) (canvasCss v) in
  if negb (Qeq_bool (cssContainerWidth s1) oldWidth)
     || negb (Qeq_bool (cssContainerHeight s1) oldHeight)
  then resizeAndDraw devicePixelRatio v1
  else v1.


End Sizing.

(** [_.round(x)], which is [Math.round]: the nearest integer, halves
    going up. *)
Definition round (x : Q) : Z := Qfloor (x + (1 # 2)).

(** [showRuler]: the point every ruler is shown. *)
Definition showRuler (event : MouseEvent) (s : Comp) : Point :=
  let x := (pageX event - canvasOffsetLeft s) / Qmax 1 (cssScale s) in
  let y := (pageY event - canvasOffsetTop s) / Qmax 1 (cssScale s) in
  mkPoint (inject_Z (round x)) (inject_Z (round y)).

(** ** The labelled points of the overlay *)


(** [interface PointInfo] of [drawLabeledPoints]. *)
Record PointInfo : Type := mkPointInfo {
  pi_cmd : Command;
  pi_subIdx : nat;
  pi_cmdIdx : nat
}.


(** The elements of an array with their positions, as the callback of
    [map] gets them. *)
Definition indexed {A} (l : list A) : list (nat * A) :=
  combine (seq 0 (List.length l)) l.

(** [array.push(..._.remove(array, pred))]: the elements the predicate
    accepts are taken out and put back at the end, in their order. *)
Definition moveToEnd {A} (pred : A -> bool) (l : list A) : list A :=
  filter (fun x => negb (pred x)) l ++ filter pred l.

Definition isPointInfoSelectedFn (currSelections : list Selection)
    (pointInfo : PointInfo) : bool :=
  let selectedSubPathIndices :=
    flat_map (fun sel => match sel_cmdIdx sel with
                         | None => [sel_subIdx sel]
                         | Some _ => []
                         end) currSelections in
  let isSubPathSelected :=
    existsb (Nat.eqb (pi_subIdx pointInfo)) selectedSubPathIndices in
  if isSubPathSelected then true
  else
    existsb (fun sel =>
               (sel_subIdx sel =? pi_subIdx pointInfo)%nat
               && match sel_cmdIdx sel with
                  | Some cmdIdx => (cmdIdx =? pi_cmdIdx pointInfo)%nat
                  | None => false
                  end) currSelections.

Definition isPointInfoHoveringFn (currentHover : option Hover)
    (pointInfo : PointInfo) : bool :=
  match currentHover with
  | None => false
  | Some hover =>
      match hover_type hover with
      | HoverSubPath => (pi_subIdx pointInfo =? subIdx (hover_index hover))%nat
      | HoverCommand =>
          (pi_subIdx pointInfo =? subIdx (hover_index hover))%nat
          && (pi_cmdIdx pointInfo =? cmdIdx (hover_index hover))%nat
      | _ => false
      end
  end.

Section LabeledPoints.
Context {C : Collaborators}.

(** [SubPath.isCollapsing] (scripts/paths), the selections held by the
    selection service, the hover held by the hover service and the
    setting [shouldLabelPoints] of the settings service. *)
Variable SubPath_isCollapsing : SubPath -> bool.
Variable selections : list Selection.
Variable currentHover : option Hover.
Variable settingsShouldLabelPoints : bool.

(** The chain that lists the points of a path.  The index [map] hands
    its callback is the position among the subpaths [filter] has kept. *)
Definition pathDataPointInfos (path : Path) : list PointInfo :=
  flat_map (fun '(subIdx, subPath) =>
              map (fun '(cmdIdx, cmd) => mkPointInfo cmd subIdx cmdIdx)
                  (indexed (sp_commands subPath)))
           (indexed (filter (fun subPath => negb (SubPath_isCollapsing subPath))
                            path)).

(** The order the points are painted in: the selected ones are moved to
    the end, then the hovered ones. *)
Definition paintOrder (pointInfos : list PointInfo) : list PointInfo :=
  moveToEnd (isPointInfoHoveringFn currentHover)
    (moveToEnd (isPointInfoSelectedFn selections) pointInfos).







End LabeledPoints.

(** ** Painting: the dash pattern of a trimmed path and the pixel grid *)

(** [x % 1] on numbers: what is left of [x] once its integer part,
    rounded toward zero, is taken off. *)
Definition remainderOfOne (x : Q) : Q :=
  x - inject_Z (Z.quot (Qnum x) (Zpos (Qden x))).

Section Trim.

(** The rounding of an exact result to the double that holds it: each
    arithmetic operation of the source gives its exact result rounded. *)
Variable rnd : Q -> Q.

(** What [drawPaths] makes of the trim attributes of a path layer: the
    argument of [setLineDash], and the [lineDashOffset] it assigns when
    the layer is trimmed.  [pathLength] is
    [layer.pathData.getPathLength()].  The remainder [%] is exact on
    doubles. *)
Definition trimDash (trimPathStart trimPathEnd trimPathOffset pathLength : Q)
    : list Q * option Q :=
  if negb (Qeq_bool trimPathStart 0)
     || negb (Qeq_bool trimPathEnd 1)
     || negb (Qeq_bool trimPathOffset 0)
  then
    let shownFraction := rnd (trimPathEnd - trimPathStart) in
    let shownFraction :=
      if ltQ trimPathEnd trimPathStart then rnd (shownFraction + 1)
      else shownFraction in
    ([ rnd (shownFraction * pathLength);
       rnd (rnd (rnd (1 - shownFraction) + rnd (1 # 1000)) * pathLength) ],
     Some (rnd (pathLength
                * rnd (1 - remainderOfOne (rnd (trimPathStart + trimPathOffset))))))
  else ([], None).

End Trim.

(** One [fillRect(x, y, w, h)]. *)
Record Rect : Type := mkRect { rect_x : Q; rect_y : Q; rect_w : Q; rect_h : Q }.

(** [for (let x = start; x < limit; x++) fillRect(line(x))]; [fuel]
    bounds the number of turns. *)
Fixpoint gridLoop (fuel : nat) (x : Z) (limit : Q) (line : Q -> Rect) : list Rect :=
  match fuel with
  | O => []
  | S fuel =>
      if ltQ (inject_Z x) limit
      then line (inject_Z x) :: gridLoop fuel (x + 1) limit line
      else []
  end.

(** The rectangles the end of [drawOverlays] fills, the vertical lines of
    the grid first.  [windowDevicePixelRatio] is
    [window.devicePixelRatio], which may be missing. *)
Definition pixelGrid (windowDevicePixelRatio : option Q) (cssScale attrScale : Q)
    (vlSize : Size) : list Rect :=
  if ltQ 4 cssScale then
    let devicePixelRatio :=
      match windowDevicePixelRatio with
      | Some r => if Qeq_bool r 0 then 1 else r
      | None => 1
      end in
    gridLoop (Z.to_nat (Qceiling (size_width vlSize))) 1 (size_width vlSize)
      (fun x => mkRect (x * attrScale - (1 # 2) * devicePixelRatio) 0
                  devicePixelRatio (size_height vlSize * attrScale))
    ++ gridLoop (Z.to_nat (Qceiling (size_height vlSize))) 1 (size_height vlSize)
         (fun y => mkRect 0 (y * attrScale - (1 # 2) * devicePixelRatio)
                     (size_width vlSize * attrScale) devicePixelRatio)
  else [].

(** ** A small implementation of the collaborators, and a drawing

    Used only to run the handlers on concrete inputs.  Matrices compose and
    invert as affine maps; the sample path engine measures the distance of
    a point to the path by the point's [y], locates it on the command
    numbered by its [x], and projects onto the first subpath that holds a
    split point (the last subpath if none does); a point or a segment is
    hit when the range function it is given accepts that distance.  The
    sample mutator duplicates a command when it splits and drops it when
    it unsplits. *)

Module Sample.

Definition identity : Matrix := mkMatrix 1 0 0 1 0 0.

Definition multiply (m n : Matrix) : Matrix :=
  mkMatrix (ma m * ma n + mc m * mb n) (mb m * ma n + md m * mb n)
           (ma m * mc n + mc m * md n) (mb m * mc n + md m * md n)
           (ma m * me n + mc m * mf n + me m) (mb m * me n + md m * mf n + mf m).

Definition flatten (ms : list Matrix) : Matrix :=
  fold_left multiply ms identity.

Definition invert (m : Matrix) : Matrix :=
  let det := ma m * md m - mb m * mc m in
  mkMatrix (md m / det) (- mb m / det) (- mc m / det) (ma m / det)
           ((mc m * mf m - md m * me m) / det)
           ((mb m * me m - ma m * mf m) / det).

Definition apply (p : Point) (m : Matrix) : Point :=
  mkPoint (Qred (ma m * px p + mc m * py p + me m))
          (Qred (mb m * px p + md m * py p + mf m)).

(** Quarter turns only; other angles are left out of the sample. *)
Definition rotation (degrees : Q) : Matrix :=
  if Qeq_bool degrees 90 then mkMatrix 0 1 (-1) 0 0 0
  else if Qeq_bool degrees 180 then mkMatrix (-1) 0 0 (-1) 0 0
  else identity.

Definition hasSplit (sp : SubPath) : bool :=
  existsb cmd_isSplit (sp_commands sp).

Fixpoint firstSplitSubPath (p : Path) (i : nat) : nat :=
  match p with
  | [] => i
  | [sp] => i
  | sp :: rest => if hasSplit sp then i else firstSplitSubPath rest (S i)
  end.

Definition floorNat (q : Q) : nat := Z.to_nat (Qfloor q).

Definition project (p : Path) (pt : Point) : option ProjectionOntoPath :=
  match p with
  | [] => None
  | _ =>
      Some (mkProjOntoPath (firstSplitSubPath p 0) (floorNat (px pt))
              (mkProjection (px pt) 0 (Qabs (py pt))
                 (Qred (px pt - inject_Z (Qfloor (px pt))))))
  end.

Definition hitTest (p : Path) (pt : Point) (args : HitTestArgs) : HitResult :=
  match project p pt with
  | None => mkHitResult false false false [] [] []
  | Some pp =>
      let d := proj_d (pp_projection pp) in
      let onPoint :=
        match isPointInRangeFn args with
        | Some inRange => inRange d (mkCommand Line [] false)
        | None => false
        end in
      let onSegment :=
        match isSegmentInRangeFn args with
        | Some inRange => inRange d (mkCommand Line [] false)
        | None => false
        end in
      mkHitResult (onPoint || onSegment) onPoint onSegment
        (if onPoint then [mkIndex (pp_subIdx pp) (pp_cmdIdx pp)] else [])
        (if onSegment
         then [mkSegmentHit (pp_subIdx pp) (pp_cmdIdx pp) (pp_projection pp)]
         else [])
        []
  end.

Definition splitAt (c : Command) (t : Q) : Command * Command := (c, c).

Definition onSubPath (f : list Command -> list Command) (subIdx : nat) (p : Path)
    : Path :=
  match nth_error p subIdx with
  | Some sp =>
      firstn subIdx p ++ [mkSubPath (f (sp_commands sp)) (sp_isSplit sp)]
        ++ skipn (S subIdx) p
  | None => p
  end.

Definition applyOp (p : Path) (op : MutOp) : Path :=
  match op with
  | SplitCommand subIdx cmdIdx t =>
      onSubPath (fun cs =>
        match nth_error cs cmdIdx with
        | Some c => firstn cmdIdx cs ++ [mkCommand (cmd_kind c) (cmd_points c) true; c]
                      ++ skipn (S cmdIdx) cs
        | None => cs
        end) subIdx p
  | UnsplitCommand subIdx cmdIdx =>
      onSubPath (fun cs => firstn cmdIdx cs ++ skipn (S cmdIdx) cs) subIdx p
  | _ => p
  end.

Definition buildPath (m : PathMutator) : Path :=
  fold_left applyOp (mut_ops m) (mut_source m).

Definition sameShape (a b : Path) : bool :=
  (List.length a =? List.length b)%nat.

Definition collaborators : Collaborators := {|
  Matrix_fromTranslation := fun x y => mkMatrix 1 0 0 1 x y;
  Matrix_fromRotation := rotation;
  Matrix_fromScaling := fun sx sy => mkMatrix sx 0 0 sy 0 0;
  Matrix_flatten := flatten;
  Matrix_invert := invert;
  MathUtil_flattenTransforms := flatten;
  MathUtil_transformPoint := fun p ms => fold_left apply ms p;
  MathUtil_distance := fun a b => Qabs (px a - px b) + Qabs (py a - py b);
  Path_project := project;
  Path_hitTest := hitTest;
  Path_isMorphableWith := sameShape;
  Path_blend := fun a b fraction => a;
  Command_splitAt := splitAt;
  PathMutator_reject := fun _ _ _ => None;
  PathMutator_build := buildPath;
  GroupLayer_interpolate := fun preview _ _ _ => preview;
  VectorLayer_interpolate := fun preview _ _ _ => preview;
  StateService_rotationLayerId := fun _ _ => Some "rotation"%string
|}.

Definition origin : Point := mkPoint 0 0.

Definition cmd (k : CommandKind) (x y : Q) (split : bool) : Command :=
  mkCommand k [origin; mkPoint x y] split.

(** A square with a split point on its first edge, and a second contour. *)
Definition square : SubPath :=
  mkSubPath [ cmd Move 0 0 false; cmd Line 4 0 true; cmd Line 8 0 false;
              cmd Line 8 8 false; cmd Line 0 8 false; cmd Close 0 0 false ] false.

Definition stroke : SubPath :=
  mkSubPath [ cmd Move 1 1 false; cmd Line 5 5 false ] false.

Definition path : Path := [square; stroke].

Definition pathLayer : Layer := PathLayer "path" path true true 1.

Definition group : Layer :=
  GroupLayer "rotation" [pathLayer] 12 12 1 2 0 1 1.

Definition drawing : Layer :=
  VectorLayer "vector" [ClipPathLayer "clip" [stroke]; group] 24 24 1.

(** A start canvas showing the drawing, with nothing in progress. *)
Definition component (mode : AppMode) : Comp :=
  mkComp CanvasStart true 240 240 10 0 0
    None None false None None
    mode 0
    (mkPerCanvas (Some drawing) (Some drawing) (Some drawing))
    (mkPerCanvas (Some "path"%string) (Some "path"%string) (Some "path"%string))
    [].

(** The same canvas in select-points mode, in the middle of dragging the
    split point of the square. *)
Definition dragging : Comp :=
  mkComp CanvasStart true 240 240 10 0 0
    None
    (Some (mkPointDragger (mkPoint (5 # 1) (2 # 1)) (mkIndex 0 1) true true true))
    false (Some (mkPoint (5 # 1) (2 # 1))) None
    SelectPoints 0
    (mkPerCanvas (Some drawing) (Some drawing) (Some drawing))
    (mkPerCanvas (Some "path"%string) (Some "path"%string) (Some "path"%string))
    [].

(** The mouse over viewport point [(x, y)], before the group transform. *)
Definition mouseAt (x y : Q) : MouseEvent :=
  mkMouseEvent (x * 10) (y * 10) false false.

(** On the third edge of the square, a quarter of a unit off it; well
    off every edge; and far from the drawing. *)
Definition click : MouseEvent := mouseAt (7 # 2) (9 # 4).

Definition away : MouseEvent := mouseAt (7 # 2) 8.

Definition outside : MouseEvent := mouseAt 30 30.

(** Two points on the square, on its fifth and on its third edge. *)
Definition fifthEdge : ProjectionOntoPath :=
  mkProjOntoPath 0 4 (mkProjection (9 # 2) 0 (1 # 4) (1 # 2)).

Definition thirdEdge : ProjectionOntoPath :=
  mkProjOntoPath 0 2 (mkProjection (5 # 2) 0 (1 # 4) (1 # 2)).

(** The canvas in split-subpaths mode, the first of the two points
    clicked. *)
Definition halfSplit : Comp :=
  set_initialFilledSubPathProjOntoPath (Some fifthEdge) (component SplitSubPaths).

(** The preview canvas of the same drawing. *)
Definition previewCanvas : Comp :=
  mkComp CanvasPreview true 240 240 10 0 0
    None None false None None
    SelectPoints 0
    (mkPerCanvas (Some drawing) (Some drawing) (Some drawing))
    (mkPerCanvas (Some "path"%string) (Some "path"%string) (Some "path"%string))
    [].

(** A rounding for the examples: to the nearest multiple of 1/1024,
    halves going up. *)
Definition toGrid (x : Q) : Q :=
  inject_Z (Qfloor (x * 1024 + (1 # 2))) / 1024.

(** A hit of the second and third points of the square. *)
Definition twoPoints : HitResult :=
  mkHitResult true true false [mkIndex 0 1; mkIndex 0 2] [] [].

End Sample.

(** * Properties *)

Unset Implicit Arguments.

(** ** The transform list of a layer *)

Section TransformFacts.
Context {C : Collaborators}.

Lemma flat_map_group_transforms (parents : list Layer) :
  flat_map (fun layer =>
    match layer with
    | GroupLayer _ _ pivotX pivotY translateX translateY rotation scaleX scaleY =>
        [ Matrix_fromTranslation pivotX pivotY;
          Matrix_fromTranslation translateX translateY;
          Matrix_fromRotation rotation;
          Matrix_fromScaling scaleX scaleY;
          Matrix_fromTranslation (- pivotX) (- pivotY) ]
    | _ => []
    end) parents
  = flat_map pivotedTransform (groupsAmong parents).
Proof.
  induction parents as [|l rest IH]; [reflexivity|].
  destruct l; simpl; rewrite IH; reflexivity.
Qed.

Lemma idIs_true (l : Layer) (id : string) :
  idIs l (Some id) = true <-> Layer_id l = id.
Proof. unfold idIs. apply String.eqb_eq. Qed.

Lemma idIs_false (l : Layer) (id : string) :
  idIs l (Some id) = false <-> Layer_id l <> id.
Proof. unfold idIs. apply String.eqb_neq. Qed.

Lemma getTransformsFn_unfold layerId parents current :
  getTransformsFn layerId parents current =
  if idIs current layerId then
    Some (flat_map pivotedTransform (groupsAmong parents))
  else match Layer_children current with
       | Some children => eachChild layerId (parents ++ [current]) children
       | None => None
       end.
Proof.
  destruct current; simpl; rewrite flat_map_group_transforms;
    destruct (idIs _ layerId); try reflexivity.
  all: match goal with
       | |- context [eachChild _ ?ps _] => generalize ps
       end; intro ps;
       induction children as [|c cs IH]; simpl; [reflexivity|];
       destruct (getTransformsFn layerId ps c); [reflexivity|apply IH].
Qed.

Lemma layerIds_children (l : Layer) :
  layerIds l = Layer_id l ::
    match Layer_children l with
    | Some children => flat_map layerIds children
    | None => []
    end.
Proof. destruct l; reflexivity. Qed.

Lemma ancestors_layerIds root parents target :
  ancestors root parents target -> In (Layer_id target) (layerIds root).
Proof.
  induction 1 as [l|l children child parents target Hc Hin _ IH].
  - rewrite layerIds_children. left. reflexivity.
  - rewrite layerIds_children, Hc. right.
    apply in_flat_map. exists child. split; assumption.
Qed.

Lemma layerIds_ancestors root id :
  In id (layerIds root) ->
  exists parents target, ancestors root parents target /\ Layer_id target = id.
Proof.
  induction root as [i cs w h a IH|i cs pX pY tX tY r sX sY IH|i p f s w|i p]
    using Layer_tree_ind; simpl; intros [Hid|Hin];
    try contradiction;
    try (eexists [], _; split; [constructor|exact Hid]).
  all: apply in_flat_map in Hin; destruct Hin as [c [Hc Hin]];
    rewrite Forall_forall in IH;
    destruct (IH c Hc Hin) as [ps [t [Hanc Ht]]];
    eexists (_ :: ps), t; split; [|exact Ht];
    eapply ancestors_down; [reflexivity|exact Hc|exact Hanc].
Qed.

(** A tree that holds no layer of the id yields [undefined]. *)
Lemma getTransformsFn_absent id root :
  ~ In id (layerIds root) ->
  forall parents, getTransformsFn (Some id) parents root = None.
Proof.
  induction root as [i cs w h a IH|i cs pX pY tX tY r sX sY IH|i p f s w|i p]
    using Layer_tree_ind; intros Hnot parents;
    rewrite getTransformsFn_unfold;
    (destruct (idIs _ (Some id)) eqn:E;
     [apply idIs_true in E; exfalso; apply Hnot; left; exact E|]);
    simpl; try reflexivity.
  all: simpl in Hnot;
    assert (Hcs : ~ In id (flat_map layerIds cs)) by (intro; apply Hnot; right; assumption);
    clear Hnot E; match goal with |- context [eachChild _ ?ps0 _] => generalize ps0 end; intro ps;
    induction cs as [|c cs' IHcs]; simpl; [reflexivity|];
    inversion IH as [|? ? Hc Hrest]; subst;
    rewrite Hc by (intro; apply Hcs; simpl; apply in_or_app; left; assumption);
    apply IHcs; [exact Hrest|];
    intro; apply Hcs; simpl; apply in_or_app; right; assumption.
Qed.

Lemma getTransformsFn_undefined_id root parents :
  getTransformsFn None parents root = None.
Proof.
  revert parents.
  induction root as [i cs w h a IH|i cs pX pY tX tY r sX sY IH|i p f s w|i p]
    using Layer_tree_ind; intros parents;
    rewrite getTransformsFn_unfold; simpl; try reflexivity.
  all: match goal with |- context [eachChild _ ?ps0 _] => generalize ps0 end; intro ps;
    induction cs as [|c cs' IHcs]; simpl; [reflexivity|];
    inversion IH as [|? ? Hc Hrest]; subst;
    rewrite Hc; apply IHcs; exact Hrest.
Qed.

(** The loop returns what the first child holding the id returns. *)
Lemma eachChild_split id ps before child after :
  ~ In id (flat_map layerIds before) ->
  In id (layerIds child) ->
  (exists r, getTransformsFn (Some id) ps child = Some r) ->
  eachChild (Some id) ps (before ++ child :: after)
  = getTransformsFn (Some id) ps child.
Proof.
  intros Hbefore Hin [r Hr].
  induction before as [|b bs IH]; simpl.
  - rewrite Hr. reflexivity.
  - rewrite getTransformsFn_absent
      by (intro; apply Hbefore; simpl; apply in_or_app; left; assumption).
    apply IH. intro. apply Hbefore. simpl. apply in_or_app. right. assumption.
Qed.

(** A tree that holds a layer of the id yields the transforms of the
    ancestors of one such layer. *)
Lemma getTransformsFn_present id root :
  In id (layerIds root) ->
  forall parents,
  exists below target,
    ancestors root below target /\ Layer_id target = id /\
    getTransformsFn (Some id) parents root
    = Some (flat_map pivotedTransform (groupsAmong (parents ++ below))).
Proof.
  induction root as [i cs w h a IH|i cs pX pY tX tY r sX sY IH|i p f s w|i p]
    using Layer_tree_ind; intros Hin parents;
    rewrite getTransformsFn_unfold;
    (destruct (idIs _ (Some id)) eqn:E;
     [apply idIs_true in E; eexists [], _; split; [constructor|split; [exact E|]];
      rewrite app_nil_r; reflexivity|]);
    apply idIs_false in E; simpl in Hin;
    (destruct Hin as [Hid|Hin]; [contradiction|]); try contradiction.
  all: simpl;
    match goal with
    | |- context [eachChild _ (_ ++ [?cur]) _] => set (current := cur)
    end;
    assert (Hgo : forall before rest, cs = before ++ rest ->
              ~ In id (flat_map layerIds before) ->
              In id (flat_map layerIds rest) ->
              exists below target,
                ancestors current below target /\ Layer_id target = id /\
                eachChild (Some id) (parents ++ [current]) rest
                = Some (flat_map pivotedTransform (groupsAmong (parents ++ below))));
    [|exact (Hgo [] cs eq_refl (fun H => H) Hin)].
  all: intros before rest; revert before;
    induction rest as [|c rest' IHrest]; intros before Hcs Hbefore Hrest;
    [contradiction|];
    simpl in Hrest; apply in_app_or in Hrest;
    destruct (in_dec string_dec id (layerIds c)) as [Hc|Hc].
  all: try (
    rewrite Forall_forall in IH;
    assert (Hmem : In c cs) by (rewrite Hcs; apply in_or_app; right; left; reflexivity);
    destruct (IH c Hmem Hc (parents ++ [current])) as [below [target [Hanc [Ht Hres]]]];
    exists (current :: below), target; split;
    [eapply ancestors_down; [reflexivity|exact Hmem|exact Hanc]|];
    split; [exact Ht|];
    simpl; rewrite Hres, <- app_assoc; reflexivity).
  all: destruct Hrest as [Hrest|Hrest]; [contradiction|];
    simpl; rewrite (getTransformsFn_absent _ _ Hc);
    apply (IHrest (before ++ [c]));
    [rewrite <- app_assoc; exact Hcs| |exact Hrest];
    rewrite flat_map_app; intro Hx; apply in_app_or in Hx;
    destruct Hx as [Hx|Hx]; [exact (Hbefore Hx)|];
    simpl in Hx; rewrite app_nil_r in Hx; exact (Hc Hx).
Qed.

Lemma NoDup_app_disjoint {A} (l1 l2 : list A) (x : A) :
  NoDup (l1 ++ l2) -> In x l2 -> ~ In x l1.
Proof.
  induction l1 as [|a l1 IH]; simpl; intros Hnd Hin2 Hin1; [exact Hin1|].
  inversion Hnd as [|? ? Hnotin Hnd']; subst.
  destruct Hin1 as [->|Hin1].
  - apply Hnotin. apply in_or_app. right. exact Hin2.
  - exact (IH Hnd' Hin2 Hin1).
Qed.

Lemma NoDup_app_l {A} (l1 l2 : list A) : NoDup (l1 ++ l2) -> NoDup l1.
Proof.
  induction l1 as [|a l1 IH]; simpl; intros Hnd; [constructor|].
  inversion Hnd as [|? ? Hnotin Hnd']; subst. constructor.
  - intro H. apply Hnotin. apply in_or_app. left. exact H.
  - exact (IH Hnd').
Qed.

Lemma NoDup_app_r {A} (l1 l2 : list A) : NoDup (l1 ++ l2) -> NoDup l2.
Proof.
  induction l1 as [|a l1 IH]; simpl; intros Hnd; [exact Hnd|].
  inversion Hnd; subst. apply IH. assumption.
Qed.

(** When ids are unique, the transforms are those of the ancestors of
    the one layer with the id. *)
Lemma getTransformsFn_unique root below target :
  ancestors root below target ->
  NoDup (layerIds root) ->
  forall parents,
    getTransformsFn (Some (Layer_id target)) parents root
    = Some (flat_map pivotedTransform (groupsAmong (parents ++ below))).
Proof.
  induction 1 as [l|l children child below target Hc Hin Hanc IH];
    intros Hnd parents; rewrite getTransformsFn_unfold.
  - assert (E : idIs l (Some (Layer_id l)) = true) by (apply idIs_true; reflexivity).
    rewrite E, app_nil_r. reflexivity.
  - rewrite layerIds_children, Hc in Hnd.
    inversion Hnd as [|? ? Hself Hkids]; subst.
    pose proof (ancestors_layerIds _ _ _ Hanc) as Hid.
    assert (E : idIs l (Some (Layer_id target)) = false).
    { apply idIs_false. intro Heq. apply Hself. rewrite Heq.
      apply in_flat_map. exists child. split; assumption. }
    rewrite E, Hc.
    destruct (in_split _ _ Hin) as [before [after ->]].
    rewrite flat_map_app in Hkids. simpl in Hkids.
    assert (Hchild : NoDup (layerIds child)).
    { apply NoDup_app_r in Hkids. apply NoDup_app_l in Hkids. exact Hkids. }
    rewrite eachChild_split.
    + rewrite (IH Hchild), <- app_assoc. reflexivity.
    + eapply NoDup_app_disjoint; [exact Hkids|]. apply in_or_app. left. exact Hid.
    + exact Hid.
    + eexists. apply (IH Hchild).
Qed.

(** C6.  For a layer id of the tree, [getTransformsForLayer] returns, for
    the group layers among the ancestors of a layer with that id, taken
    from the root down, the five matrices translate-by-pivot, translate,
    rotate, scale, translate-back-by-pivot, and nothing for ancestors of
    other kinds; when ids are unique these are the ancestors of the
    layer with the id.  For an id no layer of the tree has it returns
    [undefined]. *)
Theorem getTransformsForLayer_ancestors (vectorLayer : Layer) (id : string) :
  ((exists parents target,
      ancestors vectorLayer parents target /\ Layer_id target = id) ->
   exists parents target,
     ancestors vectorLayer parents target /\ Layer_id target = id /\
     getTransformsForLayer vectorLayer (Some id)
     = Some (flat_map pivotedTransform (groupsAmong parents)))
  /\ (forall parents target,
        ancestors vectorLayer parents target -> Layer_id target = id ->
        NoDup (layerIds vectorLayer) ->
        getTransformsForLayer vectorLayer (Some id)
        = Some (flat_map pivotedTransform (groupsAmong parents)))
  /\ ((forall parents target,
         ancestors vectorLayer parents target -> Layer_id target <> id) ->
      getTransformsForLayer vectorLayer (Some id) = None).
Proof.
  unfold getTransformsForLayer. split; [|split].
  - intros [parents [target [Hanc Hid]]].
    apply ancestors_layerIds in Hanc. rewrite Hid in Hanc.
    exact (getTransformsFn_present _ _ Hanc []).
  - intros parents target Hanc Hid Hnd. subst id.
    exact (getTransformsFn_unique _ _ _ Hanc Hnd []).
  - intros Hnone. apply getTransformsFn_absent.
    intro Hin. destruct (layerIds_ancestors _ _ Hin) as [ps [t [Hanc Ht]]].
    exact (Hnone ps t Hanc Ht).
Qed.

End TransformFacts.

(** ** Assigning path data leaves the transforms alone *)

Section Skeleton.
Context {C : Collaborators}.

Lemma skeleton_id l : Layer_id (skeleton l) = Layer_id l.
Proof. destruct l; reflexivity. Qed.

Lemma skeleton_idIs l id : idIs (skeleton l) id = idIs l id.
Proof. unfold idIs. rewrite skeleton_id. reflexivity. Qed.

Lemma skeleton_children l :
  Layer_children (skeleton l) = option_map (map skeleton) (Layer_children l).
Proof. destruct l; reflexivity. Qed.

Lemma skeleton_groupsAmong ps : groupsAmong (map skeleton ps) = groupsAmong ps.
Proof.
  induction ps as [|p ps IH]; [reflexivity|].
  destruct p; simpl; rewrite IH; reflexivity.
Qed.

Lemma getTransformsFn_skeleton id l :
  forall ps,
    getTransformsFn id (map skeleton ps) (skeleton l) = getTransformsFn id ps l.
Proof.
  induction l as [i cs w h a IH|i cs pX pY tX tY r sX sY IH|i p f s w|i p]
    using Layer_tree_ind; intros ps;
    rewrite !getTransformsFn_unfold, skeleton_idIs, skeleton_groupsAmong,
      skeleton_children;
    destruct (idIs _ id); try reflexivity; simpl.
  all: match goal with
       | |- context [eachChild _ (_ ++ [?cur]) (map skeleton _)] =>
           change [cur] with (map skeleton
             ltac:(match cur with
                   | VectorLayer _ _ _ _ _ => exact [VectorLayer i cs w h a]
                   | _ => exact [GroupLayer i cs pX pY tX tY r sX sY]
                   end))
       end;
    rewrite <- map_app;
    match goal with |- context [eachChild _ (map skeleton ?q) _] => generalize q end;
    intro q; induction cs as [|c cs' IHcs]; simpl; [reflexivity|];
    inversion IH as [|? ? Hc Hrest]; subst;
    rewrite Hc; destruct (getTransformsFn id q c); [reflexivity|];
    apply IHcs; exact Hrest.
Qed.

Lemma getTransformsForLayer_skeleton l id :
  getTransformsForLayer (skeleton l) id = getTransformsForLayer l id.
Proof. exact (getTransformsFn_skeleton id l []). Qed.

Lemma updateLayer_unfold f id l :
  updateLayer f id l =
  if idIs l id then Some (f l)
  else match l with
       | VectorLayer i cs w h a =>
           option_map (fun cs' => VectorLayer i cs' w h a) (eachUpdate f id cs)
       | GroupLayer i cs pX pY tX tY r sX sY =>
           option_map (fun cs' => GroupLayer i cs' pX pY tX tY r sX sY)
                      (eachUpdate f id cs)
       | _ => None
       end.
Proof.
  destruct l as [i cs w h a|i cs pX pY tX tY r sX sY|i p fl s w|i p]; simpl;
    destruct (idIs _ id); try reflexivity.
  all: match goal with
       | |- match ?a with _ => _ end = option_map _ ?b =>
           assert (E : a = b); [|rewrite E; destruct b; reflexivity]
       end;
    induction cs as [|c cs' IH]; simpl; [reflexivity|];
    destruct (updateLayer f id c); [reflexivity|];
    rewrite IH; reflexivity.
Qed.

Lemma skeleton_setPathData p l : skeleton (Layer_setPathData p l) = skeleton l.
Proof. destruct l; reflexivity. Qed.

Lemma updateLayer_skeleton p id l :
  forall l', updateLayer (Layer_setPathData p) id l = Some l' ->
             skeleton l' = skeleton l.
Proof.
  induction l as [i cs w h a IH|i cs pX pY tX tY r sX sY IH|i q f s w|i q]
    using Layer_tree_ind; intros l'; rewrite updateLayer_unfold;
    (destruct (idIs _ id);
     [intros [= <-]; reflexivity|]); try discriminate.
  all: destruct (eachUpdate _ id cs) as [cs'|] eqn:E; [|discriminate];
    intros [= <-]; simpl; f_equal;
    revert cs' E; induction cs as [|c rest IHcs]; intros cs' E; [discriminate|];
    inversion IH as [|? ? Hc Hrest]; subst; simpl in E;
    destruct (updateLayer _ id c) as [c'|] eqn:Ec;
    [injection E as <-; simpl; rewrite (Hc _ eq_refl); reflexivity|];
    destruct (eachUpdate _ id rest) as [rest'|]; [|discriminate];
    injection E as <-; simpl; rewrite (IHcs Hrest _ eq_refl); reflexivity.
Qed.

Lemma updateLayer_transforms p id l l' layerId :
  updateLayer (Layer_setPathData p) id l = Some l' ->
  getTransformsForLayer l' layerId = getTransformsForLayer l layerId.
Proof.
  intros H. apply updateLayer_skeleton in H.
  rewrite <- (getTransformsForLayer_skeleton l'), H.
  apply getTransformsForLayer_skeleton.
Qed.

End Skeleton.

(** ** Running the handlers *)

(** One step of a handler: unfold the plumbing, keep what it calls. *)
Ltac run :=
  cbv beta iota zeta delta [bind get must ret throw modify emit].

Section Effects.
Context {C : Collaborators}.

Lemma addEvents_nil (s : Comp) : addEvents s [] = s.
Proof. destruct s. unfold addEvents, set_trace. simpl. rewrite app_nil_r. reflexivity. Qed.

Lemma addEvents_app (s : Comp) (d1 d2 : list Event) :
  addEvents (addEvents s d1) d2 = addEvents s (d1 ++ d2).
Proof. unfold addEvents, set_trace. simpl. rewrite app_assoc. reflexivity. Qed.

Lemma emitted_addEvents {A} (m : M A) (s : Comp) (delta : list Event) :
  stateOf (m s) = addEvents s delta -> emitted m s = delta.
Proof.
  unfold emitted. intros ->. simpl.
  rewrite skipn_app, skipn_all, Nat.sub_diag. reflexivity.
Qed.

(** [calculateProjectionOntoPath] logs at most one call, a projection of
    the mouse point taken through the transforms of the layer; the state
    is otherwise untouched, and the only error is a [TypeError]. *)
Lemma calculateProjectionOntoPath_effect vl id mouse s :
  calculateProjectionOntoPath vl id mouse s = Throw TypeError s
  \/ calculateProjectionOntoPath vl id mouse s = Ok None s
  \/ exists tree layer ts pathData,
       vl = Some tree /\ findLayer tree id = Some layer /\
       getTransformsForLayer tree id = Some ts /\
       Layer_pathData layer = Some pathData /\
       calculateProjectionOntoPath vl id mouse s
       = Ok (Path_project pathData (toLocal MathUtil_flattenTransforms ts mouse))
            (addEvents s [EvProject pathData
                            (toLocal MathUtil_flattenTransforms ts mouse)]).
Proof.
  unfold calculateProjectionOntoPath.
  destruct vl as [tree|]; cbn; [|left; reflexivity].
  destruct (findLayer tree id) as [layer|] eqn:Hfind; cbn; [|right; left; reflexivity].
  destruct (getTransformsForLayer tree id) as [ts|] eqn:Hts; cbn; [|left; reflexivity].
  destruct (Layer_pathData layer) as [pathData|] eqn:Hpd; cbn; [|left; reflexivity].
  right. right. exists tree, layer, ts, pathData.
  repeat (split; [reflexivity || assumption|]).
  unfold toLocal.
  destruct (Path_project pathData _) as [[? ? ?]|]; reflexivity.
Qed.

Arguments calculateProjectionOntoPath : simpl never.

Lemma drawn_nothing s : drawn s (Ok tt s).
Proof. exists []. rewrite addEvents_nil. split; [left; reflexivity|constructor]. Qed.

Lemma drawn_nothing_throw s : drawn s (Throw TypeError s).
Proof. exists []. rewrite addEvents_nil. split; [right; reflexivity|constructor]. Qed.

(** The tail shared by the two overlay routines. *)
Lemma overlay_projection_effect s location :
  lastKnownMouseLocation s = Some location ->
  drawn s
    ((projectionOntoPath <-
        calculateProjectionOntoPath (vectorLayer s) (activePathId s) location ;;
      projectionOntoPath <- must projectionOntoPath ;;
      let projection := pp_projection projectionOntoPath in
      if ltQ (proj_d projection) MIN_SNAP_THRESHOLD then
        vl <- must (vectorLayer s) ;;
        _ <- must (getTransformsForLayer vl (activePathId s)) ;;
        ret tt
      else ret tt) s).
Proof.
  intros Hloc. unfold bind at 1.
  destruct (calculateProjectionOntoPath_effect (vectorLayer s) (activePathId s) location s)
    as [H|[H|(tree & layer & ts & pd & Hvl & Hfind & Hts & Hpd & H)]]; rewrite H.
  - apply drawn_nothing_throw.
  - cbn. apply drawn_nothing_throw.
  - assert (Hcall : Forall (overlayCall s)
              [EvProject pd (toLocal MathUtil_flattenTransforms ts location)]).
    { constructor; [|constructor]. split; [reflexivity|].
      exists ts, location. unfold transformsOf. rewrite Hvl, Hts, Hloc. auto. }
    destruct (Path_project pd _) as [pp|]; cbn.
    + destruct (ltQ _ _); cbn.
      * rewrite Hvl. cbn. rewrite Hts. cbn.
        eexists. split; [left; reflexivity|exact Hcall].
      * eexists. split; [left; reflexivity|exact Hcall].
    + eexists. split; [right; reflexivity|exact Hcall].
Qed.

Lemma drawDraggingPoints_effect s : drawn s (drawDraggingPoints s).
Proof.
  unfold drawDraggingPoints. cbn [bind get].
  destruct (appMode s); try apply drawn_nothing.
  destruct (lastKnownMouseLocation s) as [location|] eqn:Hloc; try apply drawn_nothing.
  destruct (pointDragger s) as [pd|]; try apply drawn_nothing.
  destruct (pd_isMouseDown pd && pd_isDragTriggered pd && pd_selectedPointSplit pd);
    try apply drawn_nothing.
  apply overlay_projection_effect. exact Hloc.
Qed.

Lemma drawAddPointPreview_effect s : drawn s (drawAddPointPreview s).
Proof.
  unfold drawAddPointPreview. cbn [bind get].
  destruct (appMode s); try apply drawn_nothing;
    (destruct (lastKnownMouseLocation s) as [location|] eqn:Hloc;
     [|apply drawn_nothing]);
    apply overlay_projection_effect; exact Hloc.
Qed.

Lemma overlayCall_addEvents s delta ev :
  overlayCall s ev -> overlayCall (addEvents s delta) ev.
Proof. exact (fun H => H). Qed.

Lemma drawOverlays_effect s : drawn s (drawOverlays s).
Proof.
  unfold drawOverlays. cbn [bind get].
  destruct (isViewInit s); cbn; [|apply drawn_nothing].
  destruct (shouldDrawLayers s); [|apply drawn_nothing].
  unfold bind.
  destruct (drawDraggingPoints_effect s) as [d1 [[H1|H1] F1]]; rewrite H1.
  - destruct (drawAddPointPreview_effect (addEvents s d1)) as [d2 [[H2|H2] F2]];
      rewrite H2, addEvents_app; exists (d1 ++ d2);
      (split; [auto|apply Forall_app; split; assumption]).
  - exists d1. split; [right; reflexivity|exact F1].
Qed.

Lemma draw_effect s : drawn s (draw s).
Proof.
  unfold draw. cbn [bind get].
  destruct (isViewInit s); cbn; [|apply drawn_nothing].
  apply drawOverlays_effect.
Qed.

(** [performHitTest] either throws a [TypeError] before calling the
    engine, or makes one [hitTest] call on the active path, at the mouse
    point taken through the transforms of the active layer, with the
    range predicates and the shape flag chosen by the options. *)
Lemma performHitTest_effect mouse optsArg s :
  let opts := match optsArg with Some o => o | None => emptyOpts end in
  performHitTest mouse optsArg s = Throw TypeError s
  \/ exists ts layer filled path args,
       transformsOf s = Some ts /\
       activePathLayer s = Some layer /\
       Layer_isFilled layer = Some filled /\
       Layer_pathData layer = Some path /\
       testsPoints args = negb (truthy (noPoints opts)) /\
       testsSegments args = negb (truthy (noSegments opts)) /\
       findShapesInRange args = filled && negb (truthy (noShapes opts)) /\
       performHitTest mouse optsArg s
       = Ok (Path_hitTest path (toLocal Matrix_flatten ts mouse) args)
            (addEvents s [EvHitTest path (toLocal Matrix_flatten ts mouse) args]).
Proof.
  intros opts. unfold performHitTest, transformsForActiveLayer, activePath, transformsOf.
  run.
  destruct (vectorLayer s) as [vl|]; run; [|left; reflexivity].
  destruct (getTransformsForLayer vl (activePathId s)) as [ts|]; run;
    [|left; reflexivity].
  destruct (activePathLayer s) as [layer|] eqn:Hlayer; run; [|left; reflexivity].
  destruct (Layer_isFilled layer) as [filled|] eqn:Hfilled; run; [|left; reflexivity].
  unfold activePathLayer in Hlayer.
  destruct (truthyStr (activePathId s)); [|discriminate].
  rewrite Hlayer. run.
  destruct (Layer_pathData layer) as [path|] eqn:Hpath; run; [|left; reflexivity].
  right. eexists ts, layer, filled, path, _.
  repeat (split; [reflexivity || assumption|]).
  split; [|split; [|split]]; cycle 3.
  - reflexivity.
  - unfold testsPoints. cbn. fold opts. destruct (truthy (noPoints opts)); reflexivity.
  - unfold testsSegments. cbn. fold opts. destruct (truthy (noSegments opts)); reflexivity.
  - reflexivity.
Qed.

End Effects.

(** ** Every engine call is made in local coordinates *)

Section Locality.
Context {C : Collaborators}.
Variables (ts : option (list Matrix)) (mo : option Point).

Lemma logs_refl G s : logs G s s.
Proof. exists []. rewrite app_nil_r. split; [reflexivity|constructor]. Qed.

Lemma logs_trans G s s1 s2 : logs G s s1 -> logs G s1 s2 -> logs G s s2.
Proof.
  intros [d1 [E1 F1]] [d2 [E2 F2]]. exists (d1 ++ d2).
  rewrite E2, E1, app_assoc. split; [reflexivity|].
  apply Forall_app. split; assumption.
Qed.

Lemma logs_impl (G G' : Event -> Prop) s s' :
  (forall ev, G ev -> G' ev) -> logs G s s' -> logs G' s s'.
Proof.
  intros HG [delta [E F]]. exists delta. split; [exact E|].
  eapply Forall_impl; [exact HG|exact F].
Qed.

Lemma logs_same_trace (G : Event -> Prop) s s' :
  trace s' = trace s -> logs G s s'.
Proof.
  intros E. exists []. rewrite E, app_nil_r. split; [reflexivity|constructor].
Qed.

Lemma logs_addEvents (G : Event -> Prop) s delta :
  Forall G delta -> logs G s (addEvents s delta).
Proof. intros F. exists delta. split; [reflexivity|exact F]. Qed.

Lemma local_refl s : anchored ts mo s -> local ts mo s s.
Proof. intros H. split; [exact H|apply logs_refl]. Qed.

Lemma local_trans s s1 s2 :
  local ts mo s s1 -> local ts mo s1 s2 -> local ts mo s s2.
Proof. intros [_ L1] [A2 L2]. split; [exact A2|exact (logs_trans _ _ _ _ L1 L2)]. Qed.

Lemma local_bind {A B} (m : M A) (f : A -> M B) s :
  local ts mo s (stateOf (m s)) ->
  (forall a s1, m s = Ok a s1 -> anchored ts mo s1 ->
                local ts mo s1 (stateOf (f a s1))) ->
  local ts mo s (stateOf (bind m f s)).
Proof.
  intros Hm Hf. unfold bind. destruct (m s) as [a s1|e s1] eqn:E; simpl in *.
  - eapply local_trans; [exact Hm|]. apply (Hf a s1 eq_refl). exact (proj1 Hm).
  - exact Hm.
Qed.

Lemma pcGet_pcSet {A} (m : PerCanvas A) t (a : A) : pcGet (pcSet m t a) t = a.
Proof. destruct t; reflexivity. Qed.

Lemma assignActivePathData_cases type path s :
  assignActivePathData type path s = s
  \/ exists vl vl',
       getVectorLayer s type = Some vl /\
       updateLayer (Layer_setPathData path) (getActivePathId s type) vl = Some vl' /\
       assignActivePathData type path s
       = set_vectorLayers (pcSet (vectorLayers s) type (Some vl')) s.
Proof.
  unfold assignActivePathData.
  destruct (getVectorLayer s type) as [vl|]; [|left; reflexivity].
  destruct (updateLayer _ _ vl) as [vl'|] eqn:E; [|left; reflexivity].
  right. exists vl, vl'. auto.
Qed.

Lemma transformsOf_assign type path s :
  transformsOf (assignActivePathData type path s) = transformsOf s.
Proof.
  destruct (assignActivePathData_cases type path s) as [->|(vl & vl' & Hvl & Hup & ->)];
    [reflexivity|].
  unfold transformsOf, vectorLayer, activePathId, getVectorLayer, getActivePathId in *.
  simpl.
  destruct type, (canvasType s); simpl in *; try reflexivity; rewrite Hvl;
    apply (updateLayer_transforms _ _ _ _ _ Hup).
Qed.

Lemma lastKnown_assign type path s :
  lastKnownMouseLocation (assignActivePathData type path s)
  = lastKnownMouseLocation s.
Proof.
  destruct (assignActivePathData_cases type path s) as [->|(vl & vl' & _ & _ & ->)];
    reflexivity.
Qed.

Lemma trace_assign type path s :
  trace (assignActivePathData type path s) = trace s.
Proof.
  destruct (assignActivePathData_cases type path s) as [->|(vl & vl' & _ & _ & ->)];
    reflexivity.
Qed.

Lemma local_stay {A} (r : Res A) s :
  stateOf r = s -> anchored ts mo s -> local ts mo s (stateOf r).
Proof. intros ->. apply local_refl. Qed.

Lemma local_emit ev s :
  LocalCall ts mo ev -> anchored ts mo s -> local ts mo s (stateOf (emit ev s)).
Proof.
  intros Hev Ha. split; [exact Ha|].
  exists [ev]. split; [reflexivity|]. constructor; [exact Hev|constructor].
Qed.

Lemma local_quiet {A} (r : Res A) s delta :
  stateOf r = addEvents s delta ->
  Forall (LocalCall ts mo) delta ->
  anchored ts mo s -> local ts mo s (stateOf r).
Proof.
  intros -> F Ha. split; [exact Ha|]. apply logs_addEvents. exact F.
Qed.

Lemma local_assign type path s :
  anchored ts mo s ->
  local ts mo s (stateOf (modify (assignActivePathData type path) s)).
Proof.
  intros [Ht Hm]. simpl. split.
  - split; [rewrite transformsOf_assign; exact Ht|rewrite lastKnown_assign; exact Hm].
  - exists []. rewrite trace_assign, app_nil_r. split; [reflexivity|constructor].
Qed.

Lemma performHitTest_local mouse optsArg s :
  mo = Some mouse -> anchored ts mo s ->
  local ts mo s (stateOf (performHitTest mouse optsArg s)).
Proof.
  intros Hmo Ha.
  destruct (performHitTest_effect mouse optsArg s)
    as [H|(ts' & layer & filled & path & args & Hts & _ & _ & _ & _ & _ & _ & H)];
    rewrite H.
  - apply local_stay; [reflexivity|exact Ha].
  - eapply local_quiet; [reflexivity| |exact Ha].
    constructor; [|constructor]. exists ts', mouse.
    destruct Ha as [Ht _]. rewrite <- Ht, Hts. auto.
Qed.

Lemma calculateProjectionOntoPath_local vl id mouse s :
  mo = Some mouse ->
  match vl with Some tree => getTransformsForLayer tree id | None => None end = ts ->
  anchored ts mo s ->
  local ts mo s (stateOf (calculateProjectionOntoPath vl id mouse s)).
Proof.
  intros Hmo Hvl Ha.
  destruct (calculateProjectionOntoPath_effect vl id mouse s)
    as [H|[H|(tree & layer & ts' & pd & -> & _ & Hts & _ & H)]]; rewrite H.
  - apply local_stay; [reflexivity|exact Ha].
  - apply local_stay; [reflexivity|exact Ha].
  - eapply local_quiet; [reflexivity| |exact Ha].
    constructor; [|constructor]. exists ts', mouse.
    rewrite <- Hvl, Hts. auto.
Qed.

Lemma draw_local s :
  anchored ts mo s -> local ts mo s (stateOf (draw s)).
Proof.
  intros Ha. destruct (draw_effect s) as [delta [[H|H] F]]; rewrite H;
    (eapply local_quiet; [reflexivity| |exact Ha]);
    destruct Ha as [<- <-];
    (eapply Forall_impl; [|exact F]); intros ev [_ Hev]; exact Hev.
Qed.

Lemma readOnly_bind {A B} (m : M A) (f : A -> M B) :
  readOnly m -> (forall a, readOnly (f a)) -> readOnly (bind m f).
Proof.
  intros Hm Hf s. unfold bind. specialize (Hm s).
  destruct (m s) as [a s1|e s1]; simpl in *; subst; [apply Hf|reflexivity].
Qed.

Lemma readOnly_ret {A} (a : A) : readOnly (ret a).
Proof. intros s. reflexivity. Qed.

Lemma readOnly_get : readOnly get.
Proof. intros s. reflexivity. Qed.

Lemma readOnly_must {A} (o : option A) : readOnly (must o).
Proof. intros s. destruct o; reflexivity. Qed.

Lemma readOnly_activePath : readOnly activePath.
Proof.
  unfold activePath. apply readOnly_bind; [apply readOnly_get|]. intros s.
  destruct (truthyStr _); [|apply readOnly_ret].
  apply readOnly_bind; [apply readOnly_must|]. intros. apply readOnly_ret.
Qed.

Lemma readOnly_mapM {A B} (f : A -> M B) (l : list A) :
  (forall a, readOnly (f a)) -> readOnly (mapM f l).
Proof.
  intros Hf. induction l as [|x rest IH]; simpl; [apply readOnly_ret|].
  apply readOnly_bind; [apply Hf|]. intros.
  apply readOnly_bind; [exact IH|]. intros. apply readOnly_ret.
Qed.

Lemma readOnly_findFirstM {A} (pred : A -> M bool) (l : list A) :
  (forall a, readOnly (pred a)) -> readOnly (findFirstM pred l).
Proof.
  intros Hp. induction l as [|x rest IH]; simpl; [apply readOnly_ret|].
  apply readOnly_bind; [apply Hp|]. intros [|]; [apply readOnly_ret|exact IH].
Qed.

Lemma local_readOnly {A} (m : M A) s :
  readOnly m -> anchored ts mo s -> local ts mo s (stateOf (m s)).
Proof. intros H. apply local_stay. apply H. Qed.

Lemma readOnly_Ok {A} (m : M A) s a s1 :
  readOnly m -> m s = Ok a s1 -> s1 = s.
Proof. intros H E. specialize (H s). rewrite E in H. exact H. Qed.

End Locality.

Create HintDb readonly.
#[local] Hint Resolve readOnly_ret readOnly_get readOnly_must readOnly_activePath
  readOnly_mapM readOnly_findFirstM : readonly.

Ltac read_only :=
  repeat first
    [ apply readOnly_bind; [|intros]
    | apply readOnly_mapM; intros
    | apply readOnly_findFirstM; intros
    | solve [auto with readonly]
    | match goal with
      | |- readOnly (if ?b then _ else _) => destruct b
      | |- readOnly (match ?x with _ => _ end) => destruct x
      end ].

(** Walk a handler statement by statement, keeping the anchor. *)
Ltac local_prim E :=
  cbv beta iota delta [get ret modify emit throw] in E;
  try (injection E as <- <-); try discriminate.

Ltac local_go :=
  lazymatch goal with
  | |- local _ _ ?s (stateOf (bind (must ?o) ?f ?s)) =>
      destruct o eqn:?;
      [ lazymatch goal with
        | |- local ?t ?m s (stateOf (bind (must (Some ?x)) ?g s)) =>
            change (local t m s (stateOf (g x s))); cbv beta
        end; local_go
      | apply local_stay; [reflexivity|assumption] ]
  | |- local _ _ ?s (stateOf (bind ?m ?f ?s)) =>
      apply local_bind;
      [ local_go
      | let a := fresh "a" in let s1 := fresh "s" in
        let E := fresh "E" in let Ha := fresh "Ha" in
        intros a s1 E Ha; local_prim E; local_go ]
  | |- local _ _ ?s (stateOf ((if ?b then _ else _) ?s)) =>
      destruct b eqn:?; local_go
  | |- local _ _ ?s (stateOf ((match ?x with _ => _ end) ?s)) =>
      destruct x eqn:?; local_go
  | |- local _ _ ?s (stateOf (let (_, _) := ?x in _)) =>
      destruct x eqn:?; local_go
  | |- local _ _ ?s (stateOf (ret _ ?s)) => apply local_stay; [reflexivity|assumption]
  | |- local _ _ ?s (stateOf (get ?s)) => apply local_stay; [reflexivity|assumption]
  | |- local _ _ ?s (stateOf (throw _ ?s)) => apply local_stay; [reflexivity|assumption]
  | |- local _ _ ?s (stateOf (must ?o ?s)) =>
      apply local_readOnly; [apply readOnly_must|assumption]
  | |- local _ _ ?s (stateOf (emit ?ev ?s)) =>
      apply local_emit; [exact I|assumption]
  | |- local _ _ ?s (stateOf (modify (assignActivePathData _ _) ?s)) =>
      apply local_assign; assumption
  | |- local ?t ?m ?s (stateOf (modify _ ?s)) =>
      split;
      [ match goal with H : anchored _ _ s |- _ => exact H end
      | exact (logs_refl (LocalCall t m) s) ]
  | |- local _ _ ?s (stateOf (draw ?s)) => apply draw_local; assumption
  | |- local _ _ ?s (stateOf (performHitTest _ _ ?s)) =>
      apply performHitTest_local; [try reflexivity; try assumption|assumption]
  | _ => first [ apply local_readOnly; [solve [read_only]|assumption] | idtac ]
  end.

Section LocalityOfHandlers.
Context {C : Collaborators}.
Variables (ts : option (list Matrix)) (mo : option Point).

Lemma processHitResult_local hitResult s :
  anchored ts mo s -> local ts mo s (stateOf (processHitResult hitResult s)).
Proof.
  intros Ha. unfold processHitResult.
  destruct (isHit hitResult); [|local_go].
  destruct (endPointHits hitResult); [destruct (shapeHits hitResult)|]; local_go.
Qed.

Lemma mutate_local path s :
  anchored ts mo s -> local ts mo s (stateOf (mutate path s)).
Proof. intros Ha. unfold mutate. local_go. Qed.

Lemma callOp_local mutator op s :
  anchored ts mo s -> local ts mo s (stateOf (callOp mutator op s)).
Proof. intros Ha. unfold callOp. local_go. Qed.

Lemma build_local mutator s :
  anchored ts mo s -> local ts mo s (stateOf (build mutator s)).
Proof. intros Ha. unfold build. local_go. Qed.

Lemma updateActivePath_local type path s :
  anchored ts mo s -> local ts mo s (stateOf (updateActivePath type path s)).
Proof. intros Ha. unfold updateActivePath. local_go. Qed.

End LocalityOfHandlers.

Ltac local_call :=
  lazymatch goal with
  | |- local _ _ ?s (stateOf (mutate _ ?s)) => apply mutate_local; assumption
  | |- local _ _ ?s (stateOf (callOp _ _ ?s)) => apply callOp_local; assumption
  | |- local _ _ ?s (stateOf (build _ ?s)) => apply build_local; assumption
  | |- local _ _ ?s (stateOf (updateActivePath _ _ ?s)) =>
      apply updateActivePath_local; assumption
  | |- local _ _ ?s (stateOf (processHitResult _ ?s)) =>
      apply processHitResult_local; assumption
  | |- local _ _ ?s (stateOf (calculateProjectionOntoPath (vectorLayer ?s0) _ _ ?s)) =>
      apply calculateProjectionOntoPath_local;
      [ first
          [ reflexivity
          | assumption
          | match goal with
            | H : anchored _ _ ?x, E : lastKnownMouseLocation ?x = _ |- _ =>
                rewrite <- (proj2 H); exact E
            end ]
      | first
          [ match goal with H : anchored _ _ s0 |- _ => exact (proj1 H) end
          | reflexivity ]
      | assumption ]
  end.

Ltac local_all :=
  repeat (local_go; try local_call).

Section LocalityOfCommits.
Context {C : Collaborators}.
Variables (ts : option (list Matrix)) (mouse : Point).

Lemma commitSplitDrag_local projOntoPath oldSubIdx oldCmdIdx s :
  anchored ts (Some mouse) s ->
  local ts (Some mouse) s
    (stateOf (commitSplitDrag mouse projOntoPath oldSubIdx oldCmdIdx s)).
Proof.
  intros Ha. unfold commitSplitDrag. local_all.
Qed.

Lemma commitSplit_local projOntoPath s mo :
  anchored ts mo s ->
  local ts mo s (stateOf (commitSplit projOntoPath s)).
Proof.
  intros Ha. unfold commitSplit. local_all.
Qed.

End LocalityOfCommits.

Ltac local_commit :=
  lazymatch goal with
  | |- local _ _ ?s (stateOf (commitSplitDrag _ _ _ _ ?s)) =>
      apply commitSplitDrag_local; assumption
  | |- local _ _ ?s (stateOf (commitSplit _ ?s)) =>
      apply commitSplit_local; assumption
  end.

Ltac local_handler :=
  repeat (local_go; try local_call; try local_commit).

Section LocalityOfInputs.
Context {C : Collaborators}.

Lemma bind_get {A} (f : Comp -> M A) s : bind get f s = f s s.
Proof. reflexivity. Qed.

Lemma bind_modify {A} (g : Comp -> Comp) (f : unit -> M A) s :
  bind (modify g) f s = f tt (g s).
Proof. reflexivity. Qed.

Lemma bind_Ok {A B} (m : M A) (f : A -> M B) s a s1 :
  m s = Ok a s1 -> bind m f s = f a s1.
Proof. unfold bind. intros ->. reflexivity. Qed.

Lemma bind_Throw {A B} (m : M A) (f : A -> M B) s e s1 :
  m s = Throw e s1 -> bind m f s = Throw e s1.
Proof. unfold bind. intros ->. reflexivity. Qed.

Lemma bind_mouseEventToPoint {A} e (f : Point -> M A) s :
  bind (mouseEventToPoint e) f s = f (pointOf e s) s.
Proof. reflexivity. Qed.

(** What the mouse handlers have in common: past the guard, the mouse
    point is stored and everything after is anchored at it. *)
Lemma mouse_handler_local e s (rest : Comp -> Point -> M unit) s' :
  s' = stateOf
         ((s <- get ;;
           if negb (shouldProcessMouseEvents s) then ret tt
           else
             mouse <- mouseEventToPoint e ;;
             modify (set_lastKnownMouseLocation (Some mouse)) ;;
             rest s mouse) s) ->
  (forall s0, anchored (transformsOf s) (Some (pointOf e s)) s0 ->
              local (transformsOf s) (Some (pointOf e s)) s0
                (stateOf (rest s (pointOf e s) s0))) ->
  transformsOf s' = transformsOf s /\
  logs (LocalCall (transformsOf s) (Some (pointOf e s))) s s'.
Proof.
  intros -> Hrest. rewrite bind_get.
  destruct (shouldProcessMouseEvents s); cbv beta iota delta [negb].
  - rewrite bind_mouseEventToPoint, bind_modify.
    destruct (Hrest (set_lastKnownMouseLocation (Some (pointOf e s)) s))
      as [[Ht _] L]; [split; reflexivity|].
    split; [exact Ht|exact L].
  - split; [reflexivity|apply logs_refl].
Qed.

Lemma onMouseDown_local e s :
  transformsOf (stateOf (onMouseDown e s)) = transformsOf s /\
  logs (LocalCall (transformsOf s) (Some (pointOf e s))) s (stateOf (onMouseDown e s)).
Proof.
  eapply mouse_handler_local; [reflexivity|].
  intros s0 Ha. cbv beta zeta. local_handler.
Qed.

Lemma onMouseMove_local e s :
  transformsOf (stateOf (onMouseMove e s)) = transformsOf s /\
  logs (LocalCall (transformsOf s) (Some (pointOf e s))) s (stateOf (onMouseMove e s)).
Proof.
  eapply mouse_handler_local; [reflexivity|].
  intros s0 Ha. cbv beta zeta. local_handler.
Qed.

Lemma onMouseUp_local e s :
  transformsOf (stateOf (onMouseUp e s)) = transformsOf s /\
  logs (LocalCall (transformsOf s) (Some (pointOf e s))) s (stateOf (onMouseUp e s)).
Proof.
  eapply mouse_handler_local; [reflexivity|].
  intros s0 Ha. cbv beta zeta. local_handler.
Qed.

Lemma onMouseLeave_local e s :
  transformsOf (stateOf (onMouseLeave e s)) = transformsOf s /\
  logs (LocalCall (transformsOf s) (Some (pointOf e s))) s (stateOf (onMouseLeave e s)).
Proof.
  eapply mouse_handler_local; [reflexivity|].
  intros s0 Ha. cbv beta zeta. local_handler.
Qed.

Lemma LocalCall_no_mouse ts mo ev : LocalCall ts None ev -> LocalCall ts mo ev.
Proof.
  destruct ev; simpl; try exact (fun H => H);
    intros (? & ? & _ & Habs & _); discriminate.
Qed.

Lemma drawOverlays_local ts mo s :
  anchored ts mo s -> local ts mo s (stateOf (drawOverlays s)).
Proof.
  intros Ha. destruct (drawOverlays_effect s) as [delta [[H|H] F]]; rewrite H;
    (eapply local_quiet; [reflexivity| |exact Ha]);
    destruct Ha as [<- <-];
    (eapply Forall_impl; [|exact F]); intros ev [_ Hev]; exact Hev.
Qed.

Lemma onAppModeChanged_local s :
  transformsOf (stateOf (onAppModeChanged s)) = transformsOf s /\
  logs (LocalCall (transformsOf s) (lastKnownMouseLocation s)) s
    (stateOf (onAppModeChanged s)).
Proof.
  unfold onAppModeChanged.
  cbv beta iota delta [bind emit modify].
  match goal with |- context [draw ?x] => set (s4 := x) end.
  destruct (draw_local (transformsOf s) None s4) as [[Ht _] L];
    [split; reflexivity|].
  split; [exact Ht|].
  eapply logs_trans; [|eapply logs_impl; [|exact L]].
  - exists [EvSelectionReset; EvHoverReset]. subst s4. simpl.
    rewrite <- app_assoc. split; [reflexivity|repeat constructor].
  - intros ev. apply LocalCall_no_mouse.
Qed.

Lemma updateCurrentHoverFn_local hover s :
  local (transformsOf s) (lastKnownMouseLocation s) s
    (stateOf (updateCurrentHoverFn hover s)).
Proof.
  assert (Ha : anchored (transformsOf s) (lastKnownMouseLocation s) s)
    by (split; reflexivity).
  unfold updateCurrentHoverFn.
  repeat (local_go; try local_call; try (apply drawOverlays_local; assumption)).
Qed.

Lemma onHoverChanged_local hover s :
  local (transformsOf s) (lastKnownMouseLocation s) s
    (stateOf (onHoverChanged hover s)).
Proof.
  unfold onHoverChanged. rewrite bind_get.
  destruct hover as [h|]; [destruct (_ && _)|]; apply updateCurrentHoverFn_local.
Qed.

End LocalityOfInputs.

(** ** What a handler leaves alone *)

Section Keeps.
Context {C : Collaborators}.
Context {X : Type}.
Variable observe : Comp -> X.
Variable G : Event -> Prop.
Hypothesis observe_trace : forall s t, observe (set_trace t s) = observe s.

Lemma keeps_refl s : keeps observe G s s.
Proof. split; [reflexivity|apply logs_refl]. Qed.

Lemma keeps_trans s s1 s2 :
  keeps observe G s s1 -> keeps observe G s1 s2 -> keeps observe G s s2.
Proof.
  intros [O1 L1] [O2 L2]. split; [congruence|exact (logs_trans _ _ _ _ L1 L2)].
Qed.

Lemma keeps_bind {A B} (m : M A) (f : A -> M B) s :
  keeps observe G s (stateOf (m s)) ->
  (forall a s1, m s = Ok a s1 -> observe s1 = observe s ->
                keeps observe G s1 (stateOf (f a s1))) ->
  keeps observe G s (stateOf (bind m f s)).
Proof.
  intros Hm Hf. unfold bind. destruct (m s) as [a s1|e s1] eqn:E; simpl in *.
  - eapply keeps_trans; [exact Hm|]. exact (Hf a s1 eq_refl (proj1 Hm)).
  - exact Hm.
Qed.

Lemma keeps_stay {A} (r : Res A) s : stateOf r = s -> keeps observe G s (stateOf r).
Proof. intros ->. apply keeps_refl. Qed.

Lemma keeps_readOnly {A} (m : M A) s :
  readOnly m -> keeps observe G s (stateOf (m s)).
Proof. intros H. apply keeps_stay. apply H. Qed.

Lemma keeps_addEvents s delta :
  Forall G delta -> keeps observe G s (addEvents s delta).
Proof.
  intros F. split; [apply observe_trace|apply logs_addEvents; exact F].
Qed.

Lemma keeps_emit ev s : G ev -> keeps observe G s (stateOf (emit ev s)).
Proof.
  intros Hev. apply (keeps_addEvents s [ev]).
  constructor; [exact Hev|constructor].
Qed.

Lemma keeps_modify (f : Comp -> Comp) s :
  observe (f s) = observe s -> trace (f s) = trace s ->
  keeps observe G s (stateOf (modify f s)).
Proof.
  intros Ho Ht. split; [exact Ho|]. exists []. simpl.
  rewrite Ht, app_nil_r. split; [reflexivity|constructor].
Qed.

Lemma keeps_draw s :
  (forall ev, isProject ev = true -> G ev) ->
  keeps observe G s (stateOf (draw s)).
Proof.
  intros HG. destruct (draw_effect s) as [delta [[H|H] F]]; rewrite H;
    apply keeps_addEvents;
    (eapply Forall_impl; [|exact F]); intros ev [Hev _]; exact (HG ev Hev).
Qed.

Lemma keeps_drawOverlays s :
  (forall ev, isProject ev = true -> G ev) ->
  keeps observe G s (stateOf (drawOverlays s)).
Proof.
  intros HG. destruct (drawOverlays_effect s) as [delta [[H|H] F]]; rewrite H;
    apply keeps_addEvents;
    (eapply Forall_impl; [|exact F]); intros ev [Hev _]; exact (HG ev Hev).
Qed.

Lemma keeps_calculateProjectionOntoPath vl id mouse s :
  (forall ev, isProject ev = true -> G ev) ->
  keeps observe G s (stateOf (calculateProjectionOntoPath vl id mouse s)).
Proof.
  intros HG.
  destruct (calculateProjectionOntoPath_effect vl id mouse s)
    as [H|[H|(tree & layer & ts' & pd & _ & _ & _ & _ & H)]]; rewrite H;
    try (apply keeps_stay; reflexivity).
  apply keeps_addEvents. constructor; [apply HG; reflexivity|constructor].
Qed.

Lemma keeps_performHitTest mouse optsArg s :
  (forall path point args, G (EvHitTest path point args)) ->
  keeps observe G s (stateOf (performHitTest mouse optsArg s)).
Proof.
  intros HG.
  destruct (performHitTest_effect mouse optsArg s)
    as [H|(ts' & layer & filled & path & args & _ & _ & _ & _ & _ & _ & _ & H)];
    rewrite H; [apply keeps_stay; reflexivity|].
  apply keeps_addEvents. constructor; [apply HG|constructor].
Qed.

Lemma keeps_assign type path s :
  (forall s0, observe (assignActivePathData type path s0) = observe s0) ->
  keeps observe G s (stateOf (modify (assignActivePathData type path) s)).
Proof.
  intros Ho. apply keeps_modify; [apply Ho|apply trace_assign].
Qed.

Lemma thenDraws_bind {A B} (m : M A) (f : A -> M B) s :
  keeps observe G s (stateOf (m s)) ->
  (forall a s1, m s = Ok a s1 ->
                thenDraws (keeps observe G) s1 (stateOf (f a s1))) ->
  thenDraws (keeps observe G) s (stateOf (bind m f s)).
Proof.
  intros Hm Hf. unfold bind. destruct (m s) as [a s1|e s1] eqn:E; simpl in *.
  - destruct (Hf a s1 eq_refl) as [s3 [K H]].
    exists s3. split; [exact (keeps_trans _ _ _ Hm K)|exact H].
  - exists s1. split; [exact Hm|left; reflexivity].
Qed.

Lemma thenDraws_draw s : thenDraws (keeps observe G) s (stateOf (draw s)).
Proof. exists s. split; [apply keeps_refl|right; reflexivity]. Qed.

End Keeps.

Create HintDb frame.
#[local] Hint Resolve lastKnown_assign trace_assign : frame.

(** Walk a handler statement by statement; what is left are the
    statements that write or log, to be checked against the observation
    and the kind of calls allowed. *)
Ltac keeps_prim E :=
  cbv beta iota delta [get ret modify emit throw] in E;
  try (injection E as <- <-); try discriminate.

Ltac keeps_go :=
  lazymatch goal with
  | |- keeps _ _ ?s (stateOf (bind (must ?o) ?f ?s)) =>
      destruct o eqn:?;
      [ lazymatch goal with
        | |- keeps ?ob ?g s (stateOf (bind (must (Some ?x)) ?h s)) =>
            change (keeps ob g s (stateOf (h x s))); cbv beta
        end; keeps_go
      | apply keeps_stay; reflexivity ]
  | |- keeps _ _ ?s (stateOf (bind ?m ?f ?s)) =>
      apply keeps_bind;
      [ keeps_go
      | let a := fresh "a" in let s1 := fresh "s" in let E := fresh "E" in
        let O := fresh "O" in
        intros a s1 E O; keeps_prim E; keeps_go ]
  | |- keeps _ _ ?s (stateOf ((if ?b then _ else _) ?s)) =>
      destruct b eqn:?; keeps_go
  | |- keeps _ _ ?s (stateOf ((match ?x with _ => _ end) ?s)) =>
      destruct x eqn:?; keeps_go
  | |- keeps _ _ ?s (stateOf (ret _ ?s)) => apply keeps_stay; reflexivity
  | |- keeps _ _ ?s (stateOf (get ?s)) => apply keeps_stay; reflexivity
  | |- keeps _ _ ?s (stateOf (throw _ ?s)) => apply keeps_stay; reflexivity
  | |- keeps _ _ ?s (stateOf (emit ?ev ?s)) =>
      apply keeps_emit; [reflexivity|try (exact I); try reflexivity; auto]
  | |- keeps _ _ ?s (stateOf (modify (assignActivePathData _ _) ?s)) =>
      first [ apply keeps_assign; solve [intros; auto with frame] | idtac ]
  | |- keeps _ _ ?s (stateOf (modify _ ?s)) =>
      first [ apply keeps_modify; [reflexivity|reflexivity] | idtac ]
  | |- keeps _ _ ?s (stateOf (draw ?s)) =>
      apply keeps_draw; [reflexivity|try (intros [] ; simpl; intros; auto; discriminate)]
  | |- keeps _ _ ?s (stateOf (drawOverlays ?s)) =>
      apply keeps_drawOverlays;
      [reflexivity|try (intros [] ; simpl; intros; auto; discriminate)]
  | |- keeps _ _ ?s (stateOf (calculateProjectionOntoPath _ _ _ ?s)) =>
      apply keeps_calculateProjectionOntoPath;
      [reflexivity|try (intros [] ; simpl; intros; auto; discriminate)]
  | |- keeps _ _ ?s (stateOf (performHitTest _ _ ?s)) =>
      apply keeps_performHitTest; [reflexivity|try (intros; simpl; auto)]
  | _ => first [ apply keeps_readOnly; solve [read_only] | idtac ]
  end.

Section LocalityOfPreview.
Context {C : Collaborators}.

Lemma interpolatePreview_calm s :
  thenDraws (keeps lastKnownMouseLocation (fun ev => isEngineCall ev = false))
    s (stateOf (interpolatePreview s)).
Proof.
  unfold interpolatePreview, PathLayer_interpolate, PathLayer_isMorphableWith.
  apply thenDraws_bind; [keeps_go|intros s0 ? E; keeps_prim E].
  apply thenDraws_bind; [repeat keeps_go|intros _ s1 _].
  apply thenDraws_bind; [keeps_go|intros s2 ? E; keeps_prim E].
  apply thenDraws_bind; [repeat keeps_go|intros _ s3 _].
  apply thenDraws_bind; [keeps_go|intros s4 ? E; keeps_prim E].
  apply thenDraws_bind; [repeat keeps_go|intros _ s5 _].
  apply thenDraws_draw.
Qed.

Lemma interpolatePreview_local s :
  logs (LocalCall (transformsOf (stateOf (interpolatePreview s)))
          (lastKnownMouseLocation s))
    s (stateOf (interpolatePreview s)).
Proof.
  destruct (interpolatePreview_calm s) as [s3 [[Hm L] [-> | ->]]].
  - eapply logs_impl; [|exact L]. intros [] H; try exact I; discriminate.
  - destruct (draw_effect s3) as [delta [[H|H] F]]; rewrite H; simpl stateOf;
      (eapply logs_trans;
       [eapply logs_impl; [|exact L]; intros [] Hq; try exact I; discriminate|]);
      apply logs_addEvents;
      (eapply Forall_impl; [|exact F]); intros ev [_ Hev];
      rewrite <- Hm; exact Hev.
Qed.

End LocalityOfPreview.

Section LocalCoordinates.
Context {C : Collaborators}.

Lemma performSubPathHitTest_effect vl id mouse s :
  exists delta,
    stateOf (performSubPathHitTest vl id mouse s) = addEvents s delta /\
    Forall (fun ev =>
              exists tree ts path args,
                vl = Some tree /\ getTransformsForLayer tree id = Some ts /\
                ev = EvHitTest path (toLocal MathUtil_flattenTransforms ts mouse) args)
           delta.
Proof.
  unfold performSubPathHitTest. run.
  destruct vl as [tree|]; run;
    [|exists []; rewrite addEvents_nil; split; [reflexivity|constructor]].
  destruct (findLayer tree id) as [layer|]; run;
    [|exists []; rewrite addEvents_nil; split; [reflexivity|constructor]].
  destruct (getTransformsForLayer tree id) as [ts|] eqn:Hts; run;
    [|exists []; rewrite addEvents_nil; split; [reflexivity|constructor]].
  destruct (Layer_isStroked layer) as [stroked|]; run;
    [|exists []; rewrite addEvents_nil; split; [reflexivity|constructor]].
  destruct (Layer_isFilled layer) as [filled|]; run;
    [|exists []; rewrite addEvents_nil; split; [reflexivity|constructor]].
  destruct (Layer_pathData layer) as [path|]; run;
    [|exists []; rewrite addEvents_nil; split; [reflexivity|constructor]].
  eexists [_]. split.
  - destruct (negb (isHit _)); [reflexivity|].
    destruct (segmentHits _); [destruct (lastOf (shapeHits _))|destruct (lastOf _)];
      reflexivity.
  - constructor; [|constructor]. exists tree, ts. eexists _, _.
    split; [reflexivity|]. split; [exact Hts|reflexivity].
Qed.

(** C5.  Whatever happens to the component, every call it makes to
    [project] or [hitTest] is made at the mouse point (the point of the
    mouse event being handled, the last known mouse location otherwise)
    taken through the inverse of the flattened, reversed transform list
    of the active path layer; the mouse point as such is not what the
    engine gets.  The same holds of [performSubPathHitTest]. *)
Theorem engine_calls_in_local_space (i : Input) (s : Comp) :
  logs (LocalCall (transformsOf (step s i)) (mouseFor i s)) s (step s i)
  /\ forall vl id mouse,
       exists delta,
         stateOf (performSubPathHitTest vl id mouse s) = addEvents s delta /\
         Forall (fun ev =>
                   exists tree ts path args,
                     vl = Some tree /\ getTransformsForLayer tree id = Some ts /\
                     ev = EvHitTest path
                            (toLocal MathUtil_flattenTransforms ts mouse) args)
                delta.
Proof.
  split; [|intros; apply performSubPathHitTest_effect].
  unfold step. destruct i as [e|e|e|e|mode|hover|fraction|id| | |]; simpl handle.
  - destruct (onMouseDown_local e s) as [-> L]. exact L.
  - destruct (onMouseMove_local e s) as [-> L]. exact L.
  - destruct (onMouseUp_local e s) as [-> L]. exact L.
  - destruct (onMouseLeave_local e s) as [-> L]. exact L.
  - rewrite bind_modify, bind_get. simpl mouseFor.
    destruct (CanvasType_eqb _ _); [apply logs_same_trace; reflexivity|].
    destruct (onAppModeChanged_local (set_appMode mode s)) as [-> L]. exact L.
  - rewrite bind_get. simpl mouseFor.
    destruct (CanvasType_eqb _ _); [apply logs_same_trace; reflexivity|].
    destruct (onHoverChanged_local hover s) as [[-> _] L]. exact L.
  - rewrite bind_modify, bind_get. simpl mouseFor.
    destruct (CanvasType_eqb _ _); [|apply logs_same_trace; reflexivity].
    exact (interpolatePreview_local (set_animatedValue fraction s)).
  - rewrite bind_get, bind_modify. simpl mouseFor.
    match goal with |- context [set_activePathIds ?ids s] =>
      set (s1 := set_activePathIds ids s)
    end.
    destruct (CanvasType_eqb _ _); [exact (interpolatePreview_local s1)|].
    destruct (draw_local (transformsOf s1) (lastKnownMouseLocation s1) s1)
      as [[-> _] L]; [split; reflexivity|exact L].
  - rewrite bind_get. simpl mouseFor.
    destruct (CanvasType_eqb _ _); [apply logs_same_trace; reflexivity|].
    destruct (drawOverlays_local (transformsOf s) (lastKnownMouseLocation s) s)
      as [[-> _] L]; [split; reflexivity|exact L].
  - rewrite bind_get. simpl mouseFor.
    destruct (CanvasType_eqb _ _); [|apply logs_same_trace; reflexivity].
    destruct (draw_local (transformsOf s) (lastKnownMouseLocation s) s)
      as [[-> _] L]; [split; reflexivity|exact L].
  - rewrite bind_get. simpl mouseFor.
    destruct (CanvasType_eqb _ _); [|apply logs_same_trace; reflexivity].
    destruct (draw_local (transformsOf s) (lastKnownMouseLocation s) s)
      as [[-> _] L]; [split; reflexivity|exact L].
Qed.

End LocalCoordinates.

(** ** The categories a hit test looks at *)

Section HitTestCategories.
Context {C : Collaborators}.

Lemma emitted_of_trace {A} (m : M A) s delta :
  trace (stateOf (m s)) = trace s ++ delta -> emitted m s = delta.
Proof.
  unfold emitted. intros ->.
  rewrite skipn_app, skipn_all, Nat.sub_diag. reflexivity.
Qed.

Lemma emitted_logs {A} (G : Event -> Prop) (m : M A) s :
  logs G s (stateOf (m s)) -> Forall G (emitted m s).
Proof. intros [delta [E F]]. rewrite (emitted_of_trace m s delta E). exact F. Qed.

Lemma onMouseDown_add_points event s :
  appMode s = AddPoints \/ appMode s = SplitSubPaths ->
  shouldProcessMouseEvents s = true ->
  (exists s', onMouseDown event s = Throw TypeError s' /\ trace s' = trace s)
  \/ exists path point args delta,
       segmentsOnly (EvHitTest path point args) /\
       Forall segmentsOnly delta /\
       trace (stateOf (onMouseDown event s))
       = trace s ++ EvHitTest path point args :: delta.
Proof.
  intros Hmode Hproc. unfold onMouseDown. rewrite bind_get, Hproc.
  cbv beta iota delta [negb].
  rewrite bind_mouseEventToPoint, bind_modify.
  set (s0 := set_lastKnownMouseLocation _ s).
  set (opts := match appMode s with
               | AddPoints | SplitSubPaths =>
                   Some (mkHitTestOpts (Some true) None (Some true))
               | _ => None
               end).
  assert (Hopts : opts = Some (mkHitTestOpts (Some true) None (Some true)))
    by (subst opts; destruct Hmode as [-> | ->]; reflexivity).
  rewrite Hopts. clear opts Hopts. cbv zeta.
  destruct (performHitTest_effect (pointOf event s)
              (Some (mkHitTestOpts (Some true) None (Some true))) s0)
    as [H|(ts & layer & filled & path & args & _ & _ & _ & _ & Hp & Hs & Hf & H)].
  - erewrite bind_Throw by exact H. left. exists s0. split; reflexivity.
  - erewrite bind_Ok by exact H.
    right. simpl in Hp, Hs, Hf. rewrite andb_false_r in Hf.
    set (s1 := addEvents s0 _).
    match goal with
    | |- context [stateOf (?b s1)] =>
        assert (K : keeps (fun _ : Comp => tt) segmentsOnly s1 (stateOf (b s1)))
    end.
    { destruct Hmode as [-> | ->]; repeat keeps_go. }
    destruct K as [_ [delta [E F]]].
    exists path, (toLocal Matrix_flatten ts (pointOf event s)), args, delta.
    split; [simpl; auto|]. split; [exact F|].
    rewrite E. subst s1 s0. simpl. rewrite <- app_assoc. reflexivity.
Qed.

Lemma onMouseDown_segments_only event s :
  appMode s = AddPoints \/ appMode s = SplitSubPaths ->
  logs segmentsOnly s (stateOf (onMouseDown event s))
  /\ (forall s', onMouseDown event s = Ok tt s' ->
                 shouldProcessMouseEvents s = true ->
                 exists path point args,
                   In (EvHitTest path point args) (emitted (onMouseDown event) s)).
Proof.
  intros Hmode.
  destruct (shouldProcessMouseEvents s) eqn:Hproc.
  - destruct (onMouseDown_add_points event s Hmode Hproc)
      as [(s1 & H & Ht)|(path & point & args & delta & Hev & F & Et)].
    + rewrite H. split; [apply logs_same_trace; exact Ht|].
      intros s' Habs. discriminate Habs.
    + split.
      * eexists. split; [exact Et|]. constructor; assumption.
      * intros s' _ _. exists path, point, args.
        erewrite emitted_of_trace by exact Et. left. reflexivity.
  - unfold onMouseDown. rewrite bind_get, Hproc. cbv beta iota delta [negb].
    split; [apply logs_refl|]. intros ? ? Habs. discriminate Habs.
Qed.

(** C7.  [performHitTest] hands the engine an endpoint predicate exactly
    when [opts.noPoints] is not set, a segment predicate exactly when
    [opts.noSegments] is not set, and asks for shapes exactly when the
    active path layer is filled and [opts.noShapes] is not set.  On
    mouse down in add-points and split-subpaths mode every hit test made
    tests segments only, and one is made whenever the handler runs to
    its end. *)
Theorem hit_test_categories (mouse : Point) (optsArg : option HitTestOpts)
    (event : MouseEvent) (s : Comp) :
  let opts := match optsArg with Some o => o | None => emptyOpts end in
  (forall r s', performHitTest mouse optsArg s = Ok r s' ->
     exists layer filled path point args,
       activePathLayer s = Some layer /\
       Layer_isFilled layer = Some filled /\
       emitted (performHitTest mouse optsArg) s = [EvHitTest path point args] /\
       r = Path_hitTest path point args /\
       testsPoints args = negb (truthy (noPoints opts)) /\
       testsSegments args = negb (truthy (noSegments opts)) /\
       findShapesInRange args = filled && negb (truthy (noShapes opts)))
  /\ (appMode s = AddPoints \/ appMode s = SplitSubPaths ->
      Forall segmentsOnly (emitted (onMouseDown event) s)
      /\ (forall s', onMouseDown event s = Ok tt s' ->
                     shouldProcessMouseEvents s = true ->
                     exists path point args,
                       In (EvHitTest path point args)
                          (emitted (onMouseDown event) s))).
Proof.
  intros opts. split.
  - intros r s' Hok.
    destruct (performHitTest_effect mouse optsArg s)
      as [H|(ts & layer & filled & path & args & _ & Hl & Hfl & _ & Hp & Hs & Hf & H)];
      [rewrite H in Hok; discriminate|].
    exists layer, filled, path, (toLocal Matrix_flatten ts mouse), args.
    repeat (split; [assumption|]).
    split; [apply emitted_addEvents; rewrite H; reflexivity|].
    split; [rewrite H in Hok; injection Hok as <- _; reflexivity|].
    auto.
  - intros Hmode. destruct (onMouseDown_segments_only event s Hmode) as [L Hex].
    split; [apply emitted_logs; exact L|exact Hex].
Qed.

End HitTestCategories.

(** ** Dragging a split point *)

(** Bring the log of a finished run into the form [trace s ++ calls]. *)
Ltac calls_made :=
  unfold emitted;
  repeat rewrite trace_assign;
  cbn [stateOf trace set_trace addEvents set_currentHoverPreviewPath
       set_pointDragger set_shouldPerformActionOnMouseUp set_lastKnownMouseLocation
       set_initialFilledSubPathProjOntoPath set_appMode set_animatedValue
       set_vectorLayers set_activePathIds];
  repeat rewrite trace_assign;
  cbn [stateOf trace set_trace addEvents set_currentHoverPreviewPath
       set_pointDragger set_shouldPerformActionOnMouseUp set_lastKnownMouseLocation
       set_initialFilledSubPathProjOntoPath set_appMode set_animatedValue
       set_vectorLayers set_activePathIds];
  rewrite <- ?app_assoc;
  first [ rewrite skipn_app, skipn_all, Nat.sub_diag | rewrite skipn_all ];
  cbn [skipn app mutOps flat_map].

(** Case analysis on whatever the run of a handler is waiting for,
    innermost first; redraws are left for their own lemmas. *)
Ltac crack :=
  repeat (match goal with
          | |- context [match ?x with _ => _ end] =>
              lazymatch x with
              | context [match _ with _ => _ end] => fail
              | draw _ => fail
              | drawOverlays _ => fail
              | _ => destruct x eqn:?
              end
          end; run).

(** Split on whether the engine rejects the next operation. *)
Ltac engine_answers :=
  cbn [mut_source mut_ops Path_mutate app];
  match goal with
  | |- context [PathMutator_reject ?a ?b ?c] => destruct (PathMutator_reject a b c)
  end; run.

Section DragCommit.
Context {C : Collaborators}.

(** C1.  When the drag of a split point lands on a command index other
    than the one it started from, the mutator is asked to split and to
    unsplit, and of the two the call on the higher command index comes
    first: split before unsplit when the new index is the higher one,
    unsplit before split when it is the lower.  The calls issued are
    that pair or, when the engine rejects one, a leading part of it; the
    call on the lower index is never the first.  When the commit runs to
    its end both were issued and the path built from them is handed to
    the state service. *)
Theorem drag_commit_higher_index_first (mouseUp : Point)
    (projOntoPath : ProjectionOntoPath) (oldSubIdx oldCmdIdx : nat) (s : Comp) :
  let newCmdIdx := pp_cmdIdx projOntoPath in
  let split := SplitCommand (pp_subIdx projOntoPath) newCmdIdx
                 (proj_t (pp_projection projOntoPath)) in
  let unsplit := UnsplitCommand oldSubIdx oldCmdIdx in
  let commit := commitSplitDrag mouseUp projOntoPath oldSubIdx oldCmdIdx in
  newCmdIdx <> oldCmdIdx ->
  exists first second hi lo,
    (first = split /\ second = unsplit /\ (oldCmdIdx < newCmdIdx)%nat
     \/ first = unsplit /\ second = split /\ (newCmdIdx < oldCmdIdx)%nat) /\
    cmdIdxOf first = Some hi /\ cmdIdxOf second = Some lo /\ (lo < hi)%nat /\
    (mutOps (emitted commit s) = []
     \/ mutOps (emitted commit s) = [first]
     \/ mutOps (emitted commit s) = [first; second]) /\
    (forall s', commit s = Ok tt s' ->
       mutOps (emitted commit s) = [first; second] /\
       exists startingPath,
         activePathData s = Some startingPath /\
         In (EvUpdateActivePath (canvasType s)
               (PathMutator_build (mkMutator startingPath [first; second])))
            (emitted commit s)).
Proof.
  intros newCmdIdx split unsplit commit Hne.
  assert (Hcases :
    (oldCmdIdx < newCmdIdx)%nat /\ (oldCmdIdx <? newCmdIdx)%nat = true
    \/ (newCmdIdx < oldCmdIdx)%nat /\ (oldCmdIdx <? newCmdIdx)%nat = false
       /\ (newCmdIdx <? oldCmdIdx)%nat = true).
  { destruct (Nat.ltb_spec oldCmdIdx newCmdIdx); [left; auto|right].
    destruct (Nat.ltb_spec newCmdIdx oldCmdIdx); [auto|lia]. }
  destruct Hcases as [[Hlt E1]|[Hlt [E1 E2]]];
    [ exists split, unsplit, newCmdIdx, oldCmdIdx; split; [left; auto|]
    | exists unsplit, split, oldCmdIdx, newCmdIdx; split; [right; auto|] ];
    (do 3 (split; [reflexivity || exact Hlt|]));
    subst commit; unfold emitted, commitSplitDrag, activePathData, mutate, callOp,
      build, updateActivePath; run;
    (destruct (getActivePathLayer s (canvasType s)) as [layer|]; run;
     [|split; [left; calls_made; reflexivity|discriminate]]);
    (destruct (Layer_pathData layer) as [sp|]; run;
     [|split; [left; calls_made; reflexivity|discriminate]]);
    fold newCmdIdx; rewrite ?E1, ?E2;
    (engine_answers;
     [split; [right; left; calls_made; reflexivity|discriminate]|]);
    (engine_answers;
     [split; [right; right; calls_made; reflexivity|discriminate]|]);
    (split; [right; right; calls_made; reflexivity|]);
    intros s' _; (split; [calls_made; reflexivity|]);
    exists sp; (split; [reflexivity|]); calls_made; simpl; auto 10.
Qed.

Lemma assign_set_trace type path t s :
  assignActivePathData type path (set_trace t s)
  = set_trace t (assignActivePathData type path s).
Proof.
  unfold assignActivePathData, getVectorLayer, getActivePathId. simpl.
  destruct (pcGet (vectorLayers s) type) as [vl|]; [|reflexivity].
  destruct (updateLayer _ _ vl); reflexivity.
Qed.

(** What a projection returns depends on the tree, the id and the mouse
    point, not on the state it is computed in. *)
Lemma calculateProjectionOntoPath_value vl id mouse sA sB :
  valueOf (calculateProjectionOntoPath vl id mouse sA)
  = valueOf (calculateProjectionOntoPath vl id mouse sB).
Proof.
  unfold calculateProjectionOntoPath. run.
  destruct vl as [tree|]; run; [|reflexivity].
  destruct (findLayer tree id) as [layer|]; run; [|reflexivity].
  destruct (getTransformsForLayer tree id) as [ts|]; run; [|reflexivity].
  destruct (Layer_pathData layer) as [pd|]; run; [|reflexivity].
  destruct (Path_project pd _); reflexivity.
Qed.

(** C2, as the code has it.  When the drag ends on the command index it
    started from, the engine accepts the unsplit, and the projection
    recomputed on the unsplit path lands on another subpath, the commit
    raises no error: the mutator holding the unsplit is dropped, a fresh
    mutator on the starting path is built with no operation in it, and
    that path is handed to the state service.  The calls the commit
    makes are, in this order: [mutate] on the starting path, the
    unsplit, the build of the unsplit path, the projection recomputed on
    it, [mutate] on the starting path again, the hover reset, the
    selection reset, the build of the fresh mutator and
    [updateActivePath] with what it built. *)
Theorem drag_commit_gives_up_silently (mouseUp : Point)
    (projOntoPath tempProjOntoPath : ProjectionOntoPath)
    (oldSubIdx oldCmdIdx : nat) (s : Comp) (startingPath : Path) :
  let unsplit := UnsplitCommand oldSubIdx oldCmdIdx in
  let unsplitPath := PathMutator_build (mkMutator startingPath [unsplit]) in
  let s1 := assignActivePathData (canvasType s) unsplitPath s in
  let commit := commitSplitDrag mouseUp projOntoPath oldSubIdx oldCmdIdx in
  pp_cmdIdx projOntoPath = oldCmdIdx ->
  activePathData s = Some startingPath ->
  PathMutator_reject startingPath [] unsplit = None ->
  valueOf (calculateProjectionOntoPath (vectorLayer s1) (activePathId s1) mouseUp s1)
  = Some (Some tempProjOntoPath) ->
  pp_subIdx tempProjOntoPath <> oldSubIdx ->
  exists s',
    commit s = Ok tt s' /\
    mutOps (emitted commit s) = [unsplit] /\
    filter isCommit (emitted commit s)
    = [EvUpdateActivePath (canvasType s)
         (PathMutator_build (Path_mutate startingPath))] /\
    exists recomputed,
      isProject recomputed = true /\
      emitted commit s
      = [ EvMutate startingPath;
          EvMutOp unsplit;
          EvBuild (mkMutator startingPath [unsplit]);
          recomputed;
          EvMutate startingPath;
          EvHoverReset;
          EvSelectionReset;
          EvBuild (Path_mutate startingPath);
          EvUpdateActivePath (canvasType s)
            (PathMutator_build (Path_mutate startingPath)) ].
Proof.
  intros unsplit unsplitPath s1 commit Heq Hpath Hacc Hproj Hsub.
  subst commit. unfold emitted, commitSplitDrag, mutate, callOp, build,
    updateActivePath. run.
  unfold activePathData in Hpath.
  destruct (getActivePathLayer s (canvasType s)) as [layer|]; [|discriminate].
  run. rewrite Hpath. run.
  rewrite Heq, Nat.ltb_irrefl.
  cbn [mut_source mut_ops Path_mutate app]. fold unsplit. rewrite Hacc. run.
  fold unsplitPath.
  match goal with
  | |- context [calculateProjectionOntoPath (vectorLayer ?x) (activePathId ?x) _ ?x] =>
      set (s2 := x)
  end.
  assert (Hs2 : exists t, s2 = set_trace t s1).
  { eexists. subst s2 s1. rewrite <- assign_set_trace. reflexivity. }
  destruct Hs2 as [t Hs2].
  assert (Hv : valueOf (calculateProjectionOntoPath (vectorLayer s2) (activePathId s2)
                          mouseUp s2) = Some (Some tempProjOntoPath)).
  { rewrite (calculateProjectionOntoPath_value _ _ _ s2 s1), Hs2. exact Hproj. }
  destruct (calculateProjectionOntoPath_effect (vectorLayer s2) (activePathId s2)
              mouseUp s2)
    as [H|[H|(tree & lay & ts & pd & _ & _ & _ & _ & H)]];
    rewrite H in Hv |- *; try discriminate.
  simpl in Hv. injection Hv as Hv. rewrite Hv. run.
  assert (Hneq : (oldSubIdx =? pp_subIdx tempProjOntoPath)%nat = false)
    by (apply Nat.eqb_neq; auto).
  rewrite Hneq. run.
  eexists. split; [reflexivity|].
  subst s2. split; [calls_made; reflexivity|].
  split; [calls_made; reflexivity|].
  eexists. split; [|calls_made; reflexivity]. reflexivity.
Qed.

(** C2, as stated, fails: in this drag the mouse comes up on the command
    the split point started from, the projection recomputed after the
    unsplit lands on subpath 1 instead of subpath 0, and the handler
    returns normally, having handed the starting path to the state
    service; no [IndexOutOfRangeError] is raised. *)
Lemma drag_mismatch_is_not_an_error :
  let event := Sample.mouseAt (5 # 2) 2 in
  let s := Sample.dragging in
  let unsplitPath := Sample.buildPath (mkMutator Sample.path [UnsplitCommand 0 1]) in
  let s1 := assignActivePathData CanvasStart unsplitPath s in
  (exists pp,
     valueOf (calculateProjectionOntoPath (C:=Sample.collaborators)
                (vectorLayer s) (activePathId s) (pointOf event s) s)
     = Some (Some pp) /\ pp_subIdx pp = 0%nat /\ pp_cmdIdx pp = 1%nat) /\
  (exists pp,
     valueOf (calculateProjectionOntoPath (C:=Sample.collaborators)
                (vectorLayer s1) (activePathId s1) (pointOf event s) s1)
     = Some (Some pp) /\ pp_subIdx pp = 1%nat) /\
  (exists s',
     onMouseUp (C:=Sample.collaborators) event s = Ok tt s' /\
     mutOps (emitted (onMouseUp (C:=Sample.collaborators) event) s)
     = [UnsplitCommand 0 1] /\
     filter isCommit (emitted (onMouseUp (C:=Sample.collaborators) event) s)
     = [EvUpdateActivePath CanvasStart Sample.path]) /\
  (forall s',
     onMouseUp (C:=Sample.collaborators) event s
     <> Throw (EngineError IndexOutOfRangeError) s').
Proof.
  repeat split.
  - eexists. split; [vm_compute; reflexivity|]. split; reflexivity.
  - eexists. split; [vm_compute; reflexivity|]. reflexivity.
  - eexists. split; [vm_compute; reflexivity|]. split; vm_compute; reflexivity.
  - intros s'. vm_compute. discriminate.
Qed.

End DragCommit.

(** ** Splitting a filled subpath at two points *)

Section SplitFilled.
Context {C : Collaborators}.

Lemma ltQ_true x y : ltQ x y = true <-> (x < y)%Q.
Proof.
  unfold ltQ. rewrite negb_true_iff. split.
  - intros H. apply Qnot_le_lt. intros Hle.
    apply Qle_bool_iff in Hle. congruence.
  - intros H. destruct (Qle_bool y x) eqn:E; [|reflexivity].
    apply Qle_bool_iff in E. exfalso. exact (Qlt_not_le _ _ H E).
Qed.

Lemma ltQ_false x y : ltQ x y = false <-> (y <= x)%Q.
Proof.
  unfold ltQ. rewrite negb_false_iff. apply Qle_bool_iff.
Qed.

(** A list with the element at [i] replaced by two. *)
Lemma replaced_by_two {A} (cs : list A) (i : nat) (c l r : A) :
  nth_error cs i = Some c ->
  let cs' := firstn i cs ++ [l; r] ++ skipn (S i) cs in
  List.length cs' = S (List.length cs) /\
  (forall j, (j < i)%nat -> nth_error cs' j = nth_error cs j) /\
  nth_error cs' i = Some l /\
  nth_error cs' (S i) = Some r /\
  (forall j, (i < j)%nat -> nth_error cs' (S j) = nth_error cs j).
Proof.
  intros Hc cs'.
  assert (Hi : (i < List.length cs)%nat)
    by (apply nth_error_Some; rewrite Hc; discriminate).
  assert (Hlen : List.length (firstn i cs) = i)
    by (rewrite length_firstn; lia).
  subst cs'. repeat split.
  - rewrite !length_app, Hlen, length_skipn. simpl. lia.
  - intros j Hj. rewrite nth_error_app1 by lia.
    rewrite nth_error_firstn.
    destruct (Nat.ltb_spec j i); [reflexivity|lia].
  - rewrite nth_error_app2 by lia. rewrite Hlen, Nat.sub_diag. reflexivity.
  - rewrite nth_error_app2 by lia. rewrite Hlen.
    replace (S i - i)%nat with 1%nat by lia. reflexivity.
  - intros j Hj. rewrite nth_error_app2 by lia. rewrite Hlen.
    replace (S j - i)%nat with (S (S (j - S i))) by lia.
    change (nth_error ([l; r] ++ skipn (S i) cs) (S (S (j - S i))))
      with (nth_error (skipn (S i) cs) (j - S i)).
    rewrite nth_error_skipn. f_equal. lia.
Qed.

(** [splitCommand], as specified: the command at [cmdIdx] gives way to
    its two halves, the first marked as a split point; what came before
    keeps its index and what came after moves up by one. *)
Lemma SubPath_splitCommand_shift sp cmdIdx t sp' :
  SubPath_splitCommand sp cmdIdx t = inr sp' ->
  exists cmd,
    nth_error (sp_commands sp) cmdIdx = Some cmd /\
    List.length (sp_commands sp') = S (List.length (sp_commands sp)) /\
    (forall j, (j < cmdIdx)%nat ->
               nth_error (sp_commands sp') j = nth_error (sp_commands sp) j) /\
    nth_error (sp_commands sp') cmdIdx
    = Some (markSplit (fst (Command_splitAt cmd t))) /\
    nth_error (sp_commands sp') (S cmdIdx) = Some (snd (Command_splitAt cmd t)) /\
    (forall j, (cmdIdx < j)%nat ->
               nth_error (sp_commands sp') (S j) = nth_error (sp_commands sp) j).
Proof.
  unfold SubPath_splitCommand.
  destruct (nth_error (sp_commands sp) cmdIdx) as [cmd|] eqn:Hc; [|discriminate].
  destruct (ltQ 0 t && ltQ t 1); [|discriminate].
  intros [= <-]. exists cmd. split; [reflexivity|]. simpl.
  exact (replaced_by_two (sp_commands sp) cmdIdx cmd _ _ Hc).
Qed.

Lemma orderSplitPoints_sorted firstCmdIdx firstT secondCmdIdx secondT :
  let '((lo, tlo), (hi, thi)) :=
    orderSplitPoints firstCmdIdx firstT secondCmdIdx secondT in
  (lo <= hi)%nat /\ (lo = hi -> (tlo <= thi)%Q) /\
  ((lo, tlo, (hi, thi)) = (firstCmdIdx, firstT, (secondCmdIdx, secondT))
   \/ (lo, tlo, (hi, thi)) = (secondCmdIdx, secondT, (firstCmdIdx, firstT))).
Proof.
  unfold orderSplitPoints.
  destruct (Nat.ltb_spec secondCmdIdx firstCmdIdx) as [Hlt|Hge]; simpl.
  - split; [lia|]. split; [lia|]. right. reflexivity.
  - destruct (Nat.eqb_spec firstCmdIdx secondCmdIdx) as [Heq|Hne]; simpl.
    + destruct (ltQ secondT firstT) eqn:E.
      * split; [lia|]. split; [|right; reflexivity].
        intros _. apply Qlt_le_weak. apply ltQ_true. exact E.
      * split; [lia|]. split; [|left; reflexivity].
        intros _. apply ltQ_false. exact E.
    + split; [lia|]. split; [lia|]. left. reflexivity.
Qed.

Lemma initial_assign type path s :
  initialFilledSubPathProjOntoPath (assignActivePathData type path s)
  = initialFilledSubPathProjOntoPath s.
Proof.
  destruct (assignActivePathData_cases type path s) as [->|(vl & vl' & _ & _ & ->)];
    reflexivity.
Qed.

(** C4.  [splitCommand], as specified, puts the two halves of the
    command in its place and moves every later command of the subpath
    up by one.  Accordingly, for the second click on a filled subpath
    the component orders the two points by command index and then by
    [t], splits at the lower command index, then at the higher command
    index plus one, and passes the lower index and the higher index
    plus one to [splitFilledSubPath]; after the two splits those two
    positions hold the first halves of the two commands the points were
    on. *)
Theorem filled_split_targets_shifted_index
    (projOntoPath initial : ProjectionOntoPath) (s : Comp)
    (layer : Layer) (path : Path) :
  let sub := pp_subIdx projOntoPath in
  let ordered :=
    orderSplitPoints (pp_cmdIdx initial) (proj_t (pp_projection initial))
      (pp_cmdIdx projOntoPath) (proj_t (pp_projection projOntoPath)) in
  let lo := fst (fst ordered) in
  let tlo := snd (fst ordered) in
  let hi := fst (snd ordered) in
  let thi := snd (snd ordered) in
  let ops := [ SplitCommand sub lo tlo;
               SplitCommand sub (hi + 1) thi;
               SplitFilledSubPath sub lo (hi + 1) ] in
  let commit := commitSplit projOntoPath in
  appMode s = SplitSubPaths ->
  getActivePathLayer s (canvasType s) = Some layer ->
  Layer_pathData layer = Some path ->
  Layer_isFilled layer = Some true ->
  initialFilledSubPathProjOntoPath s = Some initial ->
  pp_subIdx initial = sub ->
  ((lo <= hi)%nat /\ (lo = hi -> (tlo <= thi)%Q) /\
   ((lo, tlo, (hi, thi))
    = (pp_cmdIdx initial, proj_t (pp_projection initial),
       (pp_cmdIdx projOntoPath, proj_t (pp_projection projOntoPath)))
    \/ (lo, tlo, (hi, thi))
       = (pp_cmdIdx projOntoPath, proj_t (pp_projection projOntoPath),
          (pp_cmdIdx initial, proj_t (pp_projection initial))))) /\
  (exists n, (1 <= n)%nat /\ mutOps (emitted commit s) = firstn n ops) /\
  (forall s', commit s = Ok tt s' ->
     mutOps (emitted commit s) = ops /\
     filter isCommit (emitted commit s)
     = [EvUpdateActivePath (canvasType s) (PathMutator_build (mkMutator path ops))] /\
     initialFilledSubPathProjOntoPath s' = None) /\
  (forall sp sp1,
     SubPath_splitCommand sp lo tlo = inr sp1 ->
     (exists cmd,
        nth_error (sp_commands sp) lo = Some cmd /\
        nth_error (sp_commands sp1) lo
        = Some (markSplit (fst (Command_splitAt cmd tlo))) /\
        nth_error (sp_commands sp1) (S lo) = Some (snd (Command_splitAt cmd tlo))) /\
     (forall j, (j < lo)%nat ->
                nth_error (sp_commands sp1) j = nth_error (sp_commands sp) j) /\
     (forall j, (lo < j)%nat ->
                nth_error (sp_commands sp1) (S j) = nth_error (sp_commands sp) j) /\
     (forall sp2 cmd,
        (lo < hi)%nat ->
        nth_error (sp_commands sp) hi = Some cmd ->
        SubPath_splitCommand sp1 (hi + 1) thi = inr sp2 ->
        nth_error (sp_commands sp2) (hi + 1)
        = Some (markSplit (fst (Command_splitAt cmd thi))) /\
        nth_error (sp_commands sp2) lo = nth_error (sp_commands sp1) lo)).
Proof.
  intros sub ordered lo tlo hi thi ops commit Hmode Hlayer Hpath Hfilled Hinit Hsub.
  pose proof (orderSplitPoints_sorted (pp_cmdIdx initial)
                (proj_t (pp_projection initial)) (pp_cmdIdx projOntoPath)
                (proj_t (pp_projection projOntoPath))) as Hsorted.
  fold ordered in Hsorted.
  assert (Hord : ordered = ((lo, tlo), (hi, thi)))
    by (subst lo tlo hi thi; destruct ordered as [[? ?] [? ?]]; reflexivity).
  rewrite Hord in Hsorted.
  split; [exact Hsorted|].
  assert (Hrun :
    (exists n, (1 <= n)%nat /\ mutOps (emitted commit s) = firstn n ops) /\
    (forall s', commit s = Ok tt s' ->
       mutOps (emitted commit s) = ops /\
       filter isCommit (emitted commit s)
       = [EvUpdateActivePath (canvasType s)
            (PathMutator_build (mkMutator path ops))] /\
       initialFilledSubPathProjOntoPath s' = None)).
  { subst commit. unfold emitted, commitSplit, mutate, callOp, build,
      updateActivePath. run.
    rewrite Hlayer. run. rewrite Hpath. run. rewrite Hmode. run.
    rewrite Hfilled. run. rewrite Hinit. run.
    fold sub. rewrite Hsub, Nat.eqb_refl. cbn [negb].
    fold ordered. rewrite Hord. run.
    engine_answers;
      [split; [exists 1%nat; split; [lia|calls_made; reflexivity]|discriminate]|].
    engine_answers;
      [split; [exists 2%nat; split; [lia|calls_made; reflexivity]|discriminate]|].
    engine_answers;
      [split; [exists 3%nat; split; [lia|calls_made; reflexivity]|discriminate]|].
    split; [exists 3%nat; split; [lia|calls_made; reflexivity]|].
    intros s' [= <-]. split; [calls_made; reflexivity|].
    split; [calls_made; reflexivity|].
    rewrite initial_assign. reflexivity. }
  split; [exact (proj1 Hrun)|]. split; [exact (proj2 Hrun)|].
  intros sp sp1 H1.
  destruct (SubPath_splitCommand_shift sp lo tlo sp1 H1)
    as (c1 & Hc1 & _ & Hbefore & Hat & Hnext & Hafter).
  split; [exists c1; auto|]. split; [exact Hbefore|]. split; [exact Hafter|].
  intros sp2 cmd Hlt Hcmd H2.
  rewrite Nat.add_1_r in *.
  destruct (SubPath_splitCommand_shift sp1 (S hi) thi sp2 H2)
    as (c2 & Hc2 & _ & Hbefore2 & Hat2 & _ & _).
  rewrite (Hafter hi Hlt), Hcmd in Hc2. injection Hc2 as <-.
  split; [exact Hat2|]. apply Hbefore2. lia.
Qed.

End SplitFilled.

(** ** The preview canvas interpolates only morphable paths *)

Section Preview.
Context {C : Collaborators}.

Lemma draw_throws_TypeError s e s' : draw s = Throw e s' -> e = TypeError.
Proof.
  destruct (draw_effect s) as [delta [[H|H] _]]; rewrite H; [discriminate|].
  intros [= <- _]. reflexivity.
Qed.

Lemma interpolatePreview_throws_TypeError s e s' :
  interpolatePreview s = Throw e s' -> e = TypeError.
Proof.
  unfold interpolatePreview, PathLayer_interpolate, PathLayer_isMorphableWith. run.
  repeat match goal with
         | |- context [match ?x with _ => _ end] =>
             lazymatch x with
             | draw _ => fail
             | context [match _ with _ => _ end] => fail
             | _ => destruct x eqn:?
             end; run
         end;
    try (intros [= <- _]; reflexivity);
    try discriminate;
    try (match goal with
         | |- context [draw ?x] => destruct (draw x) eqn:Hd
         end;
         [discriminate|intros [= <- _]; exact (draw_throws_TypeError _ _ _ Hd)]).
Qed.

Lemma interpolatePreview_guarded s :
  keeps (fun _ : Comp => tt) (guardedInterpolation s) s
    (stateOf (interpolatePreview s)).
Proof.
  unfold interpolatePreview, PathLayer_interpolate, PathLayer_isMorphableWith.
  repeat keeps_go; simpl; try congruence.
  match goal with
  | E : _ = Ok true _ |- _ =>
      cbv beta iota delta [bind must ret] in E; injection E as E _
  end.
  split; [reflexivity|]. eauto 10.
Qed.

(** C3.  For every state and every animated fraction, the preview
    callback asks the engine to interpolate two paths only when the
    start, preview and end path layers all exist and the start path is
    morphable with the end path; so the interpolation never fails with
    [NotMorphableError]: whatever the callback throws is a
    [TypeError]. *)
Theorem preview_interpolates_morphable_paths (fraction : Q) (s : Comp) :
  let s0 := set_animatedValue fraction s in
  Forall (guardedInterpolation s0) (emitted interpolatePreview s0) /\
  (forall e s', interpolatePreview s0 = Throw e s' -> e = TypeError) /\
  (forall s', handle (AnimatedValueChanged fraction) s
              <> Throw (EngineError NotMorphableError) s').
Proof.
  intros s0.
  split; [apply emitted_logs; exact (proj2 (interpolatePreview_guarded s0))|].
  split.
  - intros e s'. apply interpolatePreview_throws_TypeError.
  - intros s' Habs. simpl in Habs. rewrite bind_modify, bind_get in Habs.
    destruct (CanvasType_eqb _ _); [|discriminate].
    apply interpolatePreview_throws_TypeError in Habs. discriminate.
Qed.

End Preview.

(** ** Hovering changes the preview only *)

Section HoverPreview.
Context {C : Collaborators}.

Lemma updateCurrentHoverFn_frame hover s :
  keeps besidesHoverPreview (fun ev => isCommit ev = false) s
    (stateOf (updateCurrentHoverFn hover s)).
Proof.
  unfold updateCurrentHoverFn, mutate, callOp, build. repeat keeps_go.
Qed.

Lemma updateCurrentHoverFn_preview hover s s' :
  updateCurrentHoverFn hover s = Ok tt s' ->
  currentHoverPreviewPath s' = hoverPreview hover s.
Proof.
  unfold updateCurrentHoverFn, hoverPreview, hoverOp, activePathData, activePath,
    mutate, callOp, build, shouldDrawLayers. run.
  crack; try discriminate; try congruence;
    match goal with
    | |- context [drawOverlays ?x] =>
        destruct (drawOverlays_effect x) as [delta [[H|H] _]]; rewrite H
    end; try discriminate; intros [= <-]; try reflexivity; try congruence.
Qed.

(** C10.  Updating the hover preview leaves every field of the
    component and of the services as it was, the preview field and the
    log of calls apart: the vector layers, the active path ids and so
    the active path layers are unchanged, and [updateActivePath] is not
    called.  When the update runs to its end the preview field holds the
    snapshot built from the active path with the hovered operation
    applied for split, unsplit, reverse, shift-forward and shift-back
    hovers, and nothing otherwise.

    For such a hover over layers that are drawn, the active path being
    there and the engine accepting the operation, the update does build
    the snapshot and assign the field, and only then redraws: it calls
    [mutate] on the active path, the one hovered operation and [build],
    in this order, stores what was built in the preview field, and what
    it does from there on, and how it ends, is the redrawing of the
    overlays in the state that holds the snapshot; so the field holds it
    even when the redrawing throws.  Without a hover, or when the layers
    are not drawn, it clears the field and redraws the overlays. *)
Theorem hover_preview_is_local (hover : option Hover) (s : Comp) :
  let s' := stateOf (updateCurrentHoverFn hover s) in
  besidesHoverPreview s' = besidesHoverPreview s /\
  vectorLayers s' = vectorLayers s /\
  activePathIds s' = activePathIds s /\
  (forall type, getActivePathLayer s' type = getActivePathLayer s type) /\
  Forall (fun ev => isCommit ev = false) (emitted (updateCurrentHoverFn hover) s) /\
  (forall s'', updateCurrentHoverFn hover s = Ok tt s'' ->
               currentHoverPreviewPath s'' = hoverPreview hover s) /\
  (forall h op path,
     hover = Some h ->
     shouldDrawLayers s = true ->
     hoverOp h = Some op ->
     activePathData s = Some path ->
     PathMutator_reject path [] op = None ->
     let snapshot := mkMutator path [op] in
     let assigned :=
       set_currentHoverPreviewPath (Some (PathMutator_build snapshot))
         (addEvents s [EvMutate path; EvMutOp op; EvBuild snapshot]) in
     updateCurrentHoverFn hover s = drawOverlays assigned /\
     currentHoverPreviewPath s' = Some (PathMutator_build snapshot) /\
     exists redraw,
       Forall (overlayCall assigned) redraw /\
       emitted (updateCurrentHoverFn hover) s
       = EvMutate path :: EvMutOp op :: EvBuild snapshot :: redraw) /\
  (hover = None \/ shouldDrawLayers s = false ->
   updateCurrentHoverFn hover s
   = drawOverlays (set_currentHoverPreviewPath None s) /\
   currentHoverPreviewPath s' = None).
Proof.
  intros s'. destruct (updateCurrentHoverFn_frame hover s) as [Hobs L].
  fold s' in Hobs, L.
  split; [exact Hobs|].
  split; [exact (f_equal vectorLayers Hobs)|].
  split; [exact (f_equal activePathIds Hobs)|].
  split; [intros type; exact (f_equal (fun x => getActivePathLayer x type) Hobs)|].
  split; [apply emitted_logs; exact L|].
  split; [intros s''; apply updateCurrentHoverFn_preview|].
  split.
  - intros h op path -> Hdrawn Hop Hpath Haccept snapshot assigned.
    assert (Hid : truthyStr (activePathId s) = true).
    { unfold shouldDrawLayers in Hdrawn.
      destruct (vectorLayer s); [exact Hdrawn|discriminate]. }
    assert (Hrun : updateCurrentHoverFn (Some h) s = drawOverlays assigned).
    { unfold updateCurrentHoverFn, activePath, mutate, callOp, build. run.
      rewrite Hdrawn, Hid. unfold activePathData in Hpath.
      destruct (getActivePathLayer s (canvasType s)) as [layer|]; [|discriminate].
      run. rewrite Hpath. run.
      unfold hoverOp in Hop.
      destruct (hover_type h); try discriminate Hop;
        injection Hop as Hop; rewrite Hop;
        cbn [Path_mutate mut_source mut_ops app]; rewrite Haccept; run;
        f_equal; subst assigned snapshot; unfold addEvents; destruct s; cbn;
        rewrite <- !app_assoc; reflexivity. }
    split; [exact Hrun|].
    subst s'. unfold emitted. rewrite Hrun.
    destruct (drawOverlays_effect assigned) as [redraw [[H|H] F]]; rewrite H;
      (split; [reflexivity|]); exists redraw; (split; [exact F|]);
      subst assigned; calls_made; reflexivity.
  - intros Hnone. subst s'.
    assert (Hrun : updateCurrentHoverFn hover s
                   = drawOverlays (set_currentHoverPreviewPath None s)).
    { unfold updateCurrentHoverFn. run.
      destruct Hnone as [->|Hoff]; [reflexivity|].
      rewrite Hoff. destruct hover; reflexivity. }
    split; [exact Hrun|]. rewrite Hrun.
    destruct (drawOverlays_effect (set_currentHoverPreviewPath None s))
      as [redraw [[H|H] _]]; rewrite H; reflexivity.
Qed.

End HoverPreview.

(** ** Arming and cancelling a split gesture *)

Section Gestures.
Context {C : Collaborators}.

Lemma armed_assign type path s :
  shouldPerformActionOnMouseUp (assignActivePathData type path s)
  = shouldPerformActionOnMouseUp s.
Proof.
  destruct (assignActivePathData_cases type path s) as [->|(vl & vl' & _ & _ & ->)];
    reflexivity.
Qed.

Lemma armed_draw s :
  shouldPerformActionOnMouseUp (stateOf (draw s)) = shouldPerformActionOnMouseUp s.
Proof.
  destruct (draw_effect s) as [delta [[H|H] _]]; rewrite H; reflexivity.
Qed.

Lemma performHitTest_moved mouse optsArg location s :
  valueOf (performHitTest mouse optsArg (set_lastKnownMouseLocation location s))
  = valueOf (performHitTest mouse optsArg s).
Proof.
  unfold performHitTest, transformsForActiveLayer, activePath. run.
  repeat (change (vectorLayer (set_lastKnownMouseLocation location s))
            with (vectorLayer s);
          change (activePathId (set_lastKnownMouseLocation location s))
            with (activePathId s);
          change (activePathLayer (set_lastKnownMouseLocation location s))
            with (activePathLayer s);
          change (largePointRadius (set_lastKnownMouseLocation location s))
            with (largePointRadius s);
          change (canvasType (set_lastKnownMouseLocation location s))
            with (canvasType s);
          change (getActivePathLayer (set_lastKnownMouseLocation location s))
            with (getActivePathLayer s);
          match goal with
          | |- context [match ?x with _ => _ end] =>
              lazymatch x with
              | context [match _ with _ => _ end] => fail
              | _ => destruct x eqn:?
              end
          end; run);
    reflexivity.
Qed.

(** What a mouse down does to the flag: in add-points and
    split-subpaths mode it is set by the distance measured, when one
    is; otherwise it stays as it was. *)
Lemma onMouseDown_armed down s :
  shouldPerformActionOnMouseUp (stateOf (onMouseDown down s))
  = if shouldProcessMouseEvents s && splitting s then
      match distanceAtMouseDown down s with
      | Some d => ltQ d MIN_SNAP_THRESHOLD
      | None => shouldPerformActionOnMouseUp s
      end
    else shouldPerformActionOnMouseUp s.
Proof.
  destruct (shouldProcessMouseEvents s) eqn:Hproc;
    [destruct (splitting s) eqn:Hsplit|]; cbn [andb].
  - unfold distanceAtMouseDown.
    rewrite <- (performHitTest_moved _ _ (Some (pointOf down s)) s).
    unfold pointOf, onMouseDown, mouseEventToPoint. run. rewrite Hproc. cbn [negb].
    unfold splitting in Hsplit.
    destruct (appMode s); try discriminate;
      match goal with
      | |- context [performHitTest ?p ?o ?s0] =>
          destruct (performHitTest_effect p o s0)
            as [H|(ts & layer & filled & path & args & _ & _ & _ & _ & _ & _ & _ & H)];
          rewrite H; clear H
      end;
      run; cbn [valueOf]; try reflexivity;
      match goal with
      | |- context [isSegmentHit ?hr] =>
          destruct (isSegmentHit hr); run;
          [destruct (lastOf (segmentHits hr)); run; cbn [option_map]|]
      end;
      try reflexivity; rewrite armed_draw; reflexivity.
  - enough (K : keeps shouldPerformActionOnMouseUp (fun _ => True) s
                  (stateOf (onMouseDown down s))) by exact (proj1 K).
    unfold splitting in Hsplit. destruct (appMode s) eqn:Hmode; try discriminate;
      unfold onMouseDown;
      repeat keeps_go; congruence.
  - enough (K : keeps shouldPerformActionOnMouseUp (fun _ => True) s
                  (stateOf (onMouseDown down s))) by exact (proj1 K).
    unfold onMouseDown. run. rewrite Hproc. apply keeps_refl.
Qed.

(** No other input arms a gesture. *)
Lemma step_stays_disarmed i s :
  shouldPerformActionOnMouseUp s = false ->
  (forall down, i <> MouseDown down) ->
  shouldPerformActionOnMouseUp (step s i) = false.
Proof.
  intros Hoff Hi.
  enough (K : keeps shouldPerformActionOnMouseUp (fun _ => True) s (step s i))
    by (rewrite (proj1 K); exact Hoff).
  unfold step, handle.
  destruct i as [e|e|e|e|mode|hover|fraction|id| | |];
    [exfalso; exact (Hi e eq_refl)| | | | | | | | | |];
    unfold onMouseMove, onMouseUp, onMouseLeave, onAppModeChanged, onHoverChanged,
      updateCurrentHoverFn, interpolatePreview, commitSplitDrag, commitSplit,
      processHitResult, PathLayer_interpolate, PathLayer_isMorphableWith,
      updateActivePath, mutate, callOp, build;
    repeat keeps_go;
    try (apply keeps_assign; intros; apply armed_assign);
    try (apply keeps_modify; [cbn in *; congruence|reflexivity]).
Qed.

Lemma overlay_not_edit s delta :
  Forall (overlayCall s) delta -> Forall (fun ev => isEdit ev = false) delta.
Proof.
  apply Forall_impl. intros [] [H _]; try discriminate H; reflexivity.
Qed.

(** A mouse up in add-points or split-subpaths mode builds and commits
    nothing unless the gesture is armed and the mouse snaps. *)
Lemma onMouseUp_quiet up s :
  splitting s = true ->
  shouldPerformActionOnMouseUp s = false \/ snaps (distanceAtMouseUp up s) = false ->
  Forall (fun ev => isEdit ev = false) (emitted (onMouseUp up) s).
Proof.
  intros Hsplit Hoff.
  unfold emitted, onMouseUp, mouseEventToPoint. run.
  change (mkPoint ((pageX up - canvasOffsetLeft s) / cssScale s)
            ((pageY up - canvasOffsetTop s) / cssScale s)) with (pointOf up s).
  destruct (shouldProcessMouseEvents s); cbn [negb]; run;
    [|rewrite skipn_all; constructor].
  unfold splitting in Hsplit.
  destruct (appMode s); try discriminate;
    (match goal with
     | |- context [performHitTest ?p ?o ?s0] =>
         destruct (performHitTest_effect p o s0)
           as [H|(ts & layer & filled & path & args & _ & _ & _ & _ & _ & _ & _ & H)];
         rewrite H; clear H
     end; run; [calls_made; constructor|]);
    match goal with |- context [addEvents ?a ?b] => set (s1 := addEvents a b) end;
    change (shouldPerformActionOnMouseUp s1) with (shouldPerformActionOnMouseUp s);
    change (lastKnownMouseLocation s1) with (Some (pointOf up s));
    change (vectorLayer s1) with (vectorLayer s);
    change (activePathId s1) with (activePathId s);
    (destruct (shouldPerformActionOnMouseUp s) eqn:Hflag; run;
     [ destruct Hoff as [?|Hsnap]; [discriminate|];
       unfold distanceAtMouseUp, snaps in Hsnap;
       rewrite (calculateProjectionOntoPath_value _ _ _ s s1) in Hsnap;
       destruct (calculateProjectionOntoPath_effect (vectorLayer s) (activePathId s)
                   (pointOf up s) s1)
         as [H|[H|(tree & layer' & ts' & pd & _ & _ & _ & _ & H)]];
       rewrite H in *; clear H; run; cbn [valueOf] in Hsnap;
       try (destruct (Path_project pd _) as [projOntoPath|]; run;
            [rewrite Hsnap; run|])
     | ]);
    try (match goal with
         | |- context [draw ?x] =>
             destruct (draw_effect x) as [delta [[H|H] F]]; rewrite H; clear H
         end);
    subst s1; calls_made; repeat constructor;
    exact (overlay_not_edit _ _ F).
Qed.

(** The one input that arms a gesture is a mouse down that snaps. *)
Lemma step_arms i s :
  shouldPerformActionOnMouseUp s = false ->
  shouldPerformActionOnMouseUp (step s i) = true ->
  exists down,
    i = MouseDown down /\ splitting s = true /\
    snaps (distanceAtMouseDown down s) = true.
Proof.
  intros Hoff Hon.
  destruct i as [down|e|e|e|mode|hover|fraction|id| | |];
    try (rewrite step_stays_disarmed in Hon;
         [discriminate|exact Hoff|intros down; discriminate]).
  exists down. split; [reflexivity|].
  unfold step, handle in Hon. rewrite onMouseDown_armed in Hon.
  destruct (shouldProcessMouseEvents s); cbn [andb] in Hon; [|congruence].
  destruct (splitting s); [|congruence].
  split; [reflexivity|].
  destruct (distanceAtMouseDown down s) as [d|]; [exact Hon|congruence].
Qed.

Lemma run_snoc inputs i s : run (inputs ++ [i]) s = step (run inputs s) i.
Proof. unfold run. rewrite fold_left_app. reflexivity. Qed.

Lemma run_stays_disarmed inputs s :
  shouldPerformActionOnMouseUp s = false ->
  noMouseDownSnaps inputs s = true ->
  shouldPerformActionOnMouseUp (run inputs s) = false.
Proof.
  revert s. induction inputs as [|i rest IH]; intros s Hoff Hnone; [exact Hoff|].
  cbn [noMouseDownSnaps] in Hnone. apply andb_prop in Hnone as [Hi Hrest].
  cbn [run fold_left]. apply IH; [|exact Hrest].
  destruct (shouldPerformActionOnMouseUp (step s i)) eqn:Hon; [|reflexivity].
  destruct (step_arms i s Hoff Hon) as [down [-> [_ Hsnap]]].
  rewrite Hsnap in Hi. discriminate.
Qed.

(** An armed gesture was armed by a mouse down that snapped, and has
    stayed armed since. *)
Lemma armed_history inputs s0 :
  shouldPerformActionOnMouseUp s0 = false ->
  shouldPerformActionOnMouseUp (run inputs s0) = true ->
  exists before down after,
    inputs = before ++ MouseDown down :: after /\
    splitting (run before s0) = true /\
    snaps (distanceAtMouseDown down (run before s0)) = true /\
    forall k, shouldPerformActionOnMouseUp
                (run (firstn k after) (step (run before s0) (MouseDown down)))
              = true.
Proof.
  intros Hoff. induction inputs as [|i inputs IH] using rev_ind; intros Hon.
  - cbn in Hon. congruence.
  - rewrite run_snoc in Hon.
    destruct (shouldPerformActionOnMouseUp (run inputs s0)) eqn:Hbefore.
    + destruct (IH eq_refl) as (before & down & after & -> & Hmode & Hsnap & Hall).
      exists before, down, (after ++ [i]).
      rewrite <- app_assoc. split; [reflexivity|].
      split; [exact Hmode|]. split; [exact Hsnap|].
      intros k. destruct (Nat.le_gt_cases k (List.length after)) as [Hk|Hk].
      * rewrite firstn_app.
        replace (k - List.length after)%nat with 0%nat by lia.
        cbn [firstn]. rewrite app_nil_r. apply Hall.
      * rewrite firstn_all2 by (rewrite length_app; cbn; lia).
        rewrite run_snoc.
        replace (run after (step (run before s0) (MouseDown down)))
          with (run (before ++ MouseDown down :: after) s0).
        { exact Hon. }
        unfold run. rewrite fold_left_app. reflexivity.
    + destruct (step_arms i (run inputs s0) Hbefore Hon) as [down [-> [Hmode Hsnap]]].
      exists inputs, down, []. split; [reflexivity|].
      split; [exact Hmode|]. split; [exact Hsnap|].
      intros k. destruct k; exact Hon.
Qed.

(** C8, as the code has it.  In add-points and split-subpaths mode a
    mouse up builds a mutator or hands a path to the state service only
    if the gesture was armed by an earlier mouse down, in one of these
    two modes, whose distance to the segment hit was strictly below the
    snap threshold, the flag having stayed set ever since, and the
    distance of the projection recomputed at the mouse up is strictly
    below the threshold again.  The mouse down that armed the gesture
    need not be the last one before the mouse up: one that hits no
    segment leaves the flag as it finds it. *)
Theorem edit_needs_snap_at_down_and_up (inputs : list Input) (up : MouseEvent)
    (s0 : Comp) :
  let s := run inputs s0 in
  shouldPerformActionOnMouseUp s0 = false ->
  splitting s = true ->
  (exists ev, In ev (emitted (onMouseUp up) s) /\ isEdit ev = true) ->
  (exists before down after,
     inputs = before ++ MouseDown down :: after /\
     splitting (run before s0) = true /\
     snaps (distanceAtMouseDown down (run before s0)) = true /\
     forall k, shouldPerformActionOnMouseUp
                 (run (firstn k after) (step (run before s0) (MouseDown down)))
               = true) /\
  snaps (distanceAtMouseUp up s) = true.
Proof.
  intros s Hoff Hsplit [ev [Hin Hedit]].
  assert (Hboth : shouldPerformActionOnMouseUp s = true /\
                  snaps (distanceAtMouseUp up s) = true).
  { destruct (shouldPerformActionOnMouseUp s) eqn:Hflag;
      [destruct (snaps (distanceAtMouseUp up s)) eqn:Hsnap; [auto|]|];
      exfalso;
      (assert (Hquiet : Forall (fun ev => isEdit ev = false) (emitted (onMouseUp up) s))
         by (apply onMouseUp_quiet; auto));
      rewrite Forall_forall in Hquiet; specialize (Hquiet ev Hin); congruence. }
  destruct Hboth as [Hflag Hsnap].
  split; [exact (armed_history inputs s0 Hoff Hflag)|exact Hsnap].
Qed.

(** C9, as the code has it.  In add-points or split-subpaths mode a
    mouse leave that is processed, the canvas not being the preview and
    an active path id being set, clears [shouldPerformActionOnMouseUp]
    and [initialFilledSubPathProjOntoPath]; whatever inputs follow, as long
    as none of them is a mouse down that snaps to a segment, a mouse up
    in one of these two modes builds no mutator and hands nothing to the
    state service. *)
Theorem mouse_leave_cancels_gesture (leave : MouseEvent) (later : list Input)
    (up : MouseEvent) (s : Comp) :
  let left := step s (MouseLeave leave) in
  splitting s = true ->
  shouldProcessMouseEvents s = true ->
  shouldPerformActionOnMouseUp left = false /\
  initialFilledSubPathProjOntoPath left = None /\
  (noMouseDownSnaps later left = true ->
   splitting (run later left) = true ->
   Forall (fun ev => isEdit ev = false) (emitted (onMouseUp up) (run later left))).
Proof.
  intros left Hsplit Hproc.
  assert (Hcleared : shouldPerformActionOnMouseUp left = false /\
                     initialFilledSubPathProjOntoPath left = None).
  { subst left. unfold step, handle, onMouseLeave, mouseEventToPoint. run.
    rewrite Hproc. cbn [negb]. unfold splitting in Hsplit.
    destruct (appMode s); try discriminate; run;
      match goal with
      | |- context [draw ?x] =>
          destruct (draw_effect x) as [delta [[H|H] _]]; rewrite H
      end; split; reflexivity. }
  destruct Hcleared as [Hoff Hnone].
  split; [exact Hoff|]. split; [exact Hnone|].
  intros Hquiet Hmode. apply onMouseUp_quiet; [exact Hmode|left].
  apply run_stays_disarmed; assumption.
Qed.

End Gestures.
(** ** The theorems on the sample drawing *)

(** Dragging the split point of the square from its second to its
    fourth command: the split at the fourth comes before the unsplit at
    the second. *)
Lemma drag_commit_on_sample :
  let upAt := mkProjOntoPath 0 3 (mkProjection (7 # 2) 0 0 (1 # 2)) in
  let commit :=
    commitSplitDrag (C:=Sample.collaborators) (mkPoint (9 # 2) 2) upAt 0 1 in
  pp_cmdIdx upAt <> 1%nat /\
  mutOps (emitted commit Sample.dragging)
  = [SplitCommand 0 3 (1 # 2); UnsplitCommand 0 1].
Proof.
  intros upAt commit.
  assert (Hmoved : pp_cmdIdx upAt <> 1%nat) by (simpl; lia).
  split; [exact Hmoved|].
  destruct (drag_commit_higher_index_first (C:=Sample.collaborators)
              (mkPoint (9 # 2) 2) upAt 0 1 Sample.dragging Hmoved)
    as (first & second & hi & lo & Hcase & _ & _ & _ & _ & Hran).
  destruct (Hran (stateOf (commit Sample.dragging))) as [Hops _];
    [vm_compute; reflexivity|].
  fold commit in Hops. rewrite Hops.
  destruct Hcase as [(-> & -> & _)|(_ & _ & Hlt)]; [reflexivity|].
  simpl in Hlt. lia.
Defined.

(** Dropping that split point back on its own command: the projection
    recomputed after the unsplit lands on the other subpath, and the
    starting path is what the state service gets, once the hover and
    the selection have been reset. *)
Lemma drag_gives_up_on_sample :
  let mouseUp := mkPoint (5 # 2) 2 in
  let upAt := mkProjOntoPath 0 1 (mkProjection (3 # 2) 0 0 (1 # 2)) in
  let commit := commitSplitDrag (C:=Sample.collaborators) mouseUp upAt 0 1 in
  activePathData Sample.dragging = Some Sample.path /\
  exists s',
    commit Sample.dragging = Ok tt s' /\
    mutOps (emitted commit Sample.dragging) = [UnsplitCommand 0 1] /\
    filter isCommit (emitted commit Sample.dragging)
    = [EvUpdateActivePath CanvasStart Sample.path] /\
    exists recomputed,
      isProject recomputed = true /\
      emitted commit Sample.dragging
      = [ EvMutate Sample.path;
          EvMutOp (UnsplitCommand 0 1);
          EvBuild (mkMutator Sample.path [UnsplitCommand 0 1]);
          recomputed;
          EvMutate Sample.path;
          EvHoverReset;
          EvSelectionReset;
          EvBuild (Path_mutate Sample.path);
          EvUpdateActivePath CanvasStart Sample.path ].
Proof.
  intros mouseUp upAt commit. split; [reflexivity|].
  refine (drag_commit_gives_up_silently (C:=Sample.collaborators)
            mouseUp upAt (mkProjOntoPath 1 1 (mkProjection (3 # 2) 0 0 (1 # 2)))
            0 1 Sample.dragging Sample.path _ _ _ _ _).
  - reflexivity.
  - reflexivity.
  - reflexivity.
  - vm_compute. reflexivity.
  - simpl. lia.
Defined.

(** The second click on the filled square, on an edge before the one
    clicked first: the two points are put in order and the later one is
    split one command further up. *)
Lemma filled_split_on_sample :
  let commit := commitSplit (C:=Sample.collaborators) Sample.thirdEdge in
  initialFilledSubPathProjOntoPath Sample.halfSplit = Some Sample.fifthEdge /\
  mutOps (emitted commit Sample.halfSplit)
  = [ SplitCommand 0 2 (1 # 2); SplitCommand 0 5 (1 # 2);
      SplitFilledSubPath 0 2 5 ].
Proof.
  intros commit. split; [reflexivity|].
  destruct (filled_split_targets_shifted_index (C:=Sample.collaborators)
              Sample.thirdEdge Sample.fifthEdge Sample.halfSplit
              Sample.pathLayer Sample.path
              eq_refl eq_refl eq_refl eq_refl eq_refl eq_refl)
    as (_ & _ & Hran & _).
  destruct (Hran (stateOf (commit Sample.halfSplit))) as [Hops _];
    [vm_compute; reflexivity|].
  exact Hops.
Defined.

(** A mouse down a quarter of a unit off an edge arms the gesture, and
    the mouse up at the same place splits the edge. *)
Lemma armed_click_on_sample :
  let s0 := Sample.component AddPoints in
  let inputs :=
    [MouseMove Sample.away; MouseDown Sample.click; MouseMove Sample.click] in
  let s := run (C:=Sample.collaborators) inputs s0 in
  existsb isEdit (emitted (onMouseUp (C:=Sample.collaborators) Sample.click) s)
  = true /\
  (exists before down after,
     inputs = before ++ MouseDown down :: after /\
     snaps (distanceAtMouseDown (C:=Sample.collaborators) down
              (run (C:=Sample.collaborators) before s0)) = true) /\
  snaps (distanceAtMouseUp (C:=Sample.collaborators) Sample.click s) = true.
Proof.
  intros s0 inputs s.
  assert (Hedit : existsb isEdit
                    (emitted (onMouseUp (C:=Sample.collaborators) Sample.click) s)
                  = true) by (vm_compute; reflexivity).
  split; [exact Hedit|].
  destruct (edit_needs_snap_at_down_and_up (C:=Sample.collaborators)
              inputs Sample.click s0)
    as [(before & down & after & Hsplit & _ & Hsnap & _) Hup].
  - reflexivity.
  - vm_compute. reflexivity.
  - apply existsb_exists in Hedit. exact Hedit.
  - split; [exists before, down, after; split; assumption|exact Hup].
Defined.

(** The same mouse down, then the mouse leaves: the mouse up at the same
    place splits nothing, whatever the mouse does in between short of a
    mouse down that snaps. *)
Lemma left_gesture_on_sample :
  let s := run (C:=Sample.collaborators) [MouseDown Sample.click]
             (Sample.component AddPoints) in
  let left := step (C:=Sample.collaborators) s (MouseLeave Sample.outside) in
  let later := [MouseMove Sample.click; MouseDown Sample.away] in
  shouldPerformActionOnMouseUp s = true /\
  shouldPerformActionOnMouseUp left = false /\
  Forall (fun ev => isEdit ev = false)
    (emitted (onMouseUp (C:=Sample.collaborators) Sample.click)
       (run (C:=Sample.collaborators) later left)).
Proof.
  intros s left later.
  destruct (mouse_leave_cancels_gesture (C:=Sample.collaborators)
              Sample.outside later Sample.click s)
    as (Hoff & _ & Hquiet).
  - vm_compute. reflexivity.
  - vm_compute. reflexivity.
  - split; [vm_compute; reflexivity|]. split; [exact Hoff|].
    apply Hquiet; vm_compute; reflexivity.
Defined.

(** The path of the sample drawing sits under one group: its transform
    list is the five matrices of that group. *)
Lemma path_transforms_on_sample :
  ancestors Sample.drawing [Sample.drawing; Sample.group] Sample.pathLayer /\
  NoDup (layerIds Sample.drawing) /\
  getTransformsForLayer (C:=Sample.collaborators) Sample.drawing (Some "path"%string)
  = Some (pivotedTransform (C:=Sample.collaborators)
            (mkGroupTransform 12 12 1 2 0 1 1)).
Proof.
  assert (Hpath : ancestors Sample.drawing [Sample.drawing; Sample.group]
                    Sample.pathLayer).
  { eapply ancestors_down; [reflexivity|right; left; reflexivity|].
    eapply ancestors_down; [reflexivity|left; reflexivity|].
    apply ancestors_here. }
  assert (Hids : NoDup (layerIds Sample.drawing)).
  { repeat constructor; simpl; intuition discriminate. }
  split; [exact Hpath|]. split; [exact Hids|].
  destruct (getTransformsForLayer_ancestors (C:=Sample.collaborators)
              Sample.drawing "path"%string) as (_ & Hunique & _).
  rewrite (Hunique _ _ Hpath eq_refl Hids). reflexivity.
Defined.

(** A mouse down on the sample drawing in add-points mode: one hit test,
    of segments only. *)
Lemma segments_only_on_sample :
  let s := Sample.component AddPoints in
  let down := onMouseDown (C:=Sample.collaborators) Sample.click in
  Forall segmentsOnly (emitted down s) /\
  exists path point args, In (EvHitTest path point args) (emitted down s).
Proof.
  intros s down.
  destruct (hit_test_categories (C:=Sample.collaborators)
              (mkPoint 0 0) None Sample.click s) as [_ Hdown].
  destruct (Hdown (or_introl eq_refl)) as [Hsegments Hran].
  split; [exact Hsegments|].
  apply (Hran (stateOf (down s))); vm_compute; reflexivity.
Defined.

(** Hovering over the split button for the third command of the square:
    the snapshot with that command split in half is built from the
    active path and stored in the preview field, the overlays are then
    redrawn, and the update returns. *)
Lemma hover_preview_on_sample :
  let hover := Some (mkHover HoverSplit CanvasStart (mkIndex 0 2)) in
  let s := Sample.component SelectPoints in
  let update := updateCurrentHoverFn (C:=Sample.collaborators) hover in
  let snapshot := mkMutator Sample.path [SplitCommandInHalf 0 2] in
  update s = Ok tt (stateOf (update s)) /\
  currentHoverPreviewPath (stateOf (update s)) = Some (Sample.buildPath snapshot) /\
  emitted update s
  = [EvMutate Sample.path; EvMutOp (SplitCommandInHalf 0 2); EvBuild snapshot].
Proof.
  intros hover s update snapshot.
  destruct (hover_preview_is_local (C:=Sample.collaborators) hover s)
    as (_ & _ & _ & _ & _ & _ & Hbuilt & _).
  destruct (Hbuilt (mkHover HoverSplit CanvasStart (mkIndex 0 2))
              (SplitCommandInHalf 0 2) Sample.path
              eq_refl eq_refl eq_refl eq_refl eq_refl)
    as (_ & Hfield & redraw & _ & Hcalls).
  split; [vm_compute; reflexivity|].
  split; [exact Hfield|].
  subst update. rewrite Hcalls.
  assert (Hnone : redraw = []).
  { assert (H : emitted (updateCurrentHoverFn (C:=Sample.collaborators) hover) s
                = [EvMutate Sample.path; EvMutOp (SplitCommandInHalf 0 2);
                   EvBuild snapshot]) by (vm_compute; reflexivity).
    rewrite Hcalls in H. injection H as H. exact H. }
  rewrite Hnone. reflexivity.
Defined.

(** C8, as stated, fails for the mouse down that starts the gesture.  A
    mouse down next to the square arms the split; a second mouse down,
    far from the path, hits no segment, so it measures no distance and
    leaves the flag as the first one set it; the mouse up that ends this
    second gesture splits the path and hands it to the state service. *)
Lemma stale_flag_outlives_far_mouse_down :
  let s0 := Sample.component AddPoints in
  let s1 := run (C:=Sample.collaborators) [MouseDown Sample.click] s0 in
  let s := step (C:=Sample.collaborators) s1 (MouseDown Sample.away) in
  let up := onMouseUp (C:=Sample.collaborators) Sample.click in
  distanceAtMouseDown (C:=Sample.collaborators) Sample.away s1 = None /\
  snaps (distanceAtMouseDown (C:=Sample.collaborators) Sample.away s1) = false /\
  shouldPerformActionOnMouseUp s = true /\
  mutOps (emitted up s) = [SplitCommand 0 2 (1 # 2)] /\
  existsb isCommit (emitted up s) = true.
Proof.
  repeat split; vm_compute; reflexivity.
Qed.

(** C9, as stated, fails for a mouse leave the component does not
    process.  The split is armed, the active path id is then unset, and
    the mouse leaves: the handler returns at its guard and the flag stays
    set.  Once the id is back, with no mouse down in between, the mouse
    up splits the path. *)
Lemma unprocessed_leave_keeps_gesture :
  let s :=
    run (C:=Sample.collaborators) [MouseDown Sample.click; ActivePathIdChanged None]
      (Sample.component AddPoints) in
  let left := step (C:=Sample.collaborators) s (MouseLeave Sample.outside) in
  let later := [ActivePathIdChanged (Some "path"%string)] in
  let up := onMouseUp (C:=Sample.collaborators) Sample.click in
  splitting s = true /\
  shouldProcessMouseEvents s = false /\
  shouldPerformActionOnMouseUp left = true /\
  noMouseDownSnaps (C:=Sample.collaborators) later left = true /\
  splitting (run (C:=Sample.collaborators) later left) = true /\
  mutOps (emitted up (run (C:=Sample.collaborators) later left))
  = [SplitCommand 0 2 (1 # 2)].
Proof.
  repeat split; vm_compute; reflexivity.
Qed.

(** * Further properties of the component *)

(** ** Which inputs edit a path *)

Section WhoEdits.
Context {C : Collaborators}.

Lemma handle_never_commits (G : Event -> Prop) i s :
  (forall e, i <> MouseUp e) ->
  (forall ev, isEdit ev = false -> G ev) ->
  ((forall hover, i <> HoverChanged hover) \/
   (forall ev, isCommit ev = false -> G ev)) ->
  keeps (fun _ : Comp => tt) G s (stateOf (handle i s)).
Proof.
  intros Hup Hquiet Hhover.
  destruct i as [e|e|e|e|mode|hover|fraction|id| | |];
    try (exfalso; exact (Hup e eq_refl));
    unfold handle, onMouseDown, onMouseMove, onMouseLeave, onAppModeChanged,
      onHoverChanged, updateCurrentHoverFn, interpolatePreview, processHitResult,
      PathLayer_interpolate, PathLayer_isMorphableWith, mutate, callOp, build;
    repeat keeps_go;
    (destruct Hhover as [Hno|Hcommit];
     [exfalso; exact (Hno _ eq_refl)|apply Hcommit; reflexivity]).
Qed.

(** Paths are handed to the state service on mouse up and at no other
    time: whatever else reaches the component, [updateActivePath] is not
    called; and apart from the hover preview, which builds a snapshot,
    no mutator is even created. *)
Theorem commits_only_on_mouse_up (i : Input) (s : Comp) :
  (forall e, i <> MouseUp e) ->
  Forall (fun ev => isCommit ev = false) (emitted (handle i) s) /\
  ((forall hover, i <> HoverChanged hover) ->
   Forall (fun ev => isEdit ev = false) (emitted (handle i) s)).
Proof.
  intros Hup. split; [|intros Hhover]; apply emitted_logs.
  - refine (proj2 (handle_never_commits _ i s Hup _ (or_intror (fun ev H => H)))).
    intros [] H; try reflexivity; discriminate H.
  - exact (proj2 (handle_never_commits _ i s Hup (fun ev H => H) (or_introl Hhover))).
Qed.

(** A mouse up in select-points mode that finds no drag of a split
    point in progress, or whose projection misses the subpath of the
    dragged point, builds and commits nothing. *)
Lemma onMouseUp_select_quiet e s :
  appMode s = SelectPoints ->
  match pointDragger s with
  | None => True
  | Some pd =>
      pd_isDragTriggered pd = false \/ pd_selectedPointSplit pd = false \/
      match valueOf (calculateProjectionOntoPath (vectorLayer s) (activePathId s)
                       (pointOf e s) s) with
      | Some (Some projOntoPath) =>
          pp_subIdx projOntoPath <> subIdx (pd_selectedCommandIndex pd)
      | _ => True
      end
  end ->
  Forall (fun ev => isEdit ev = false) (emitted (onMouseUp e) s).
Proof.
  intros Hmode Hidle.
  unfold emitted, onMouseUp, mouseEventToPoint. run.
  destruct (shouldProcessMouseEvents s); cbn [negb]; run;
    [|rewrite skipn_all; constructor].
  rewrite Hmode.
  destruct (pointDragger s) as [pd|]; run; [|calls_made; constructor].
  cbn [PointDragger_onMouseUp pd_isDragTriggered pd_selectedPointSplit
       pd_selectedCommandIndex].
  change (mkPoint ((pageX e - canvasOffsetLeft s) / cssScale s)
            ((pageY e - canvasOffsetTop s) / cssScale s)) with (pointOf e s).
  match goal with |- context [set_pointDragger ?p ?s0] =>
    set (s2 := set_pointDragger p s0)
  end.
  destruct (pd_isDragTriggered pd); [destruct (pd_selectedPointSplit pd)|]; run.
  - destruct Hidle as [Hidle|[Hidle|Hmiss]]; try discriminate.
    rewrite (calculateProjectionOntoPath_value _ _ _ s s2) in Hmiss.
    destruct (calculateProjectionOntoPath_effect (vectorLayer s) (activePathId s)
                (pointOf e s) s2)
      as [H|[H|(tree & layer' & ts' & pd' & _ & _ & _ & _ & H)]];
      rewrite H in *; clear H; run; cbn [valueOf] in Hmiss;
      try (destruct (Path_project pd' _) as [projOntoPath|]; run;
           [apply Nat.eqb_neq in Hmiss; rewrite Hmiss; run|]);
      try (match goal with
           | |- context [draw ?x] =>
               destruct (draw_effect x) as [delta [[H|H] F]]; rewrite H; clear H
           end);
      subst s2; calls_made; repeat constructor;
      exact (overlay_not_edit _ _ F).
  - match goal with
    | |- context [draw ?x] =>
        destruct (draw_effect x) as [delta [[H|H] F]]; rewrite H; clear H
    end; subst s2; calls_made; exact (overlay_not_edit _ _ F).
  - match goal with
    | |- context [draw ?x] =>
        destruct (draw_effect x) as [delta [[H|H] F]]; rewrite H; clear H
    end; subst s2; calls_made; repeat constructor;
      exact (overlay_not_edit _ _ F).
Qed.

(** In select-points mode a mouse up builds a mutator or hands a path to
    the state service only at the end of a triggered drag of a split
    point whose projection lands on the subpath the point belongs to. *)
Theorem select_edit_needs_split_drag (e : MouseEvent) (s : Comp) :
  appMode s = SelectPoints ->
  (exists ev, In ev (emitted (onMouseUp e) s) /\ isEdit ev = true) ->
  exists pd projOntoPath,
    pointDragger s = Some pd /\
    pd_isDragTriggered pd = true /\
    pd_selectedPointSplit pd = true /\
    valueOf (calculateProjectionOntoPath (vectorLayer s) (activePathId s)
               (pointOf e s) s) = Some (Some projOntoPath) /\
    pp_subIdx projOntoPath = subIdx (pd_selectedCommandIndex pd).
Proof.
  intros Hmode [ev [Hin Hedit]].
  pose proof (onMouseUp_select_quiet e s Hmode) as Hquiet.
  assert (Hloud : ~ Forall (fun ev => isEdit ev = false) (emitted (onMouseUp e) s)).
  { intros F. rewrite Forall_forall in F. specialize (F ev Hin). congruence. }
  destruct (pointDragger s) as [pd|]; [|exfalso; exact (Hloud (Hquiet I))].
  destruct (pd_isDragTriggered pd) eqn:Hdrag;
    [|exfalso; apply Hloud, Hquiet; left; reflexivity].
  destruct (pd_selectedPointSplit pd) eqn:Hsplit;
    [|exfalso; apply Hloud, Hquiet; right; left; reflexivity].
  destruct (valueOf (calculateProjectionOntoPath (vectorLayer s) (activePathId s)
                       (pointOf e s) s)) as [[projOntoPath|]|] eqn:Hproj;
    try (exfalso; apply Hloud, Hquiet; right; right; exact I).
  destruct (Nat.eq_dec (pp_subIdx projOntoPath) (subIdx (pd_selectedCommandIndex pd)))
    as [Hsame|Hother];
    [|exfalso; apply Hloud, Hquiet; right; right; exact Hother].
  exists pd, projOntoPath. auto.
Qed.

(** A click on a point, that is a mouse up over a point the mouse went
    down on and was not dragged away from, toggles the selection of the
    point's subpath and then of the point itself, the latter added to
    the selection when shift or meta is held; it tests nothing and
    edits nothing, and once the handler has redrawn and returns, the
    point is no longer held. *)
Theorem click_toggles_selection (e : MouseEvent) (s : Comp) (pd : PointDragger) :
  let index := pd_selectedCommandIndex pd in
  appMode s = SelectPoints ->
  shouldProcessMouseEvents s = true ->
  pointDragger s = Some pd ->
  pd_isDragTriggered pd = false ->
  emitted (onMouseUp e) s
  = [ EvSelectionToggle
        (mkSelection SelectionSubPath (canvasType s) (subIdx index) None) false;
      EvSelectionToggle
        (mkSelection SelectionCommand (canvasType s) (subIdx index)
           (Some (cmdIdx index)))
        (shiftKey e || metaKey e) ] /\
  lastKnownMouseLocation (stateOf (onMouseUp e s)) = Some (pointOf e s) /\
  (forall s', onMouseUp e s = Ok tt s' -> pointDragger s' = None).
Proof.
  intros index Hmode Hproc Hpd Hdrag.
  enough (exists s',
            onMouseUp e s = Ok tt s' /\
            emitted (onMouseUp e) s
            = [ EvSelectionToggle
                  (mkSelection SelectionSubPath (canvasType s) (subIdx index) None)
                  false;
                EvSelectionToggle
                  (mkSelection SelectionCommand (canvasType s) (subIdx index)
                     (Some (cmdIdx index)))
                  (shiftKey e || metaKey e) ] /\
            pointDragger s' = None /\
            lastKnownMouseLocation s' = Some (pointOf e s))
    as (s1 & Hok & Hcalls & Hnone & Hlocation).
  { split; [exact Hcalls|]. rewrite Hok. split; [exact Hlocation|].
    intros s' Hs'. injection Hs' as <-. exact Hnone. }
  unfold emitted, onMouseUp, mouseEventToPoint, draw, drawOverlays,
    drawDraggingPoints, drawAddPointPreview, shouldDrawLayers, pointOf. run.
  rewrite Hproc, Hmode, Hpd. cbn [negb]. run.
  cbn [PointDragger_onMouseUp pd_isDragTriggered pd_selectedPointSplit
       pd_selectedCommandIndex]. rewrite Hdrag. run.
  destruct s as [ct init cw ch scale left top preview dragger armed location
                 initial mode animated layers ids log].
  cbn in Hmode, Hpd. subst mode dragger.
  unfold vectorLayer, activePathId, getVectorLayer, getActivePathId. cbn.
  destruct init; cbn; [destruct (pcGet layers ct); cbn;
                       [destruct (truthyStr (pcGet ids ct)); cbn|]|];
    (eexists; split; [reflexivity|]; split;
     [rewrite <- app_assoc, skipn_app, skipn_all, Nat.sub_diag; reflexivity
     |split; reflexivity]).
Qed.

End WhoEdits.

(** ** The drag of a point *)

Section Dragging.
Context {C : Collaborators}.

Lemma PointDragger_onMouseMove_keeps mouseMove pd :
  let pd' := PointDragger_onMouseMove mouseMove pd in
  pd_mouseDown pd' = pd_mouseDown pd /\
  pd_selectedCommandIndex pd' = pd_selectedCommandIndex pd /\
  pd_selectedPointSplit pd' = pd_selectedPointSplit pd /\
  pd_isMouseDown pd' = pd_isMouseDown pd /\
  pd_isDragTriggered pd'
  = pd_isDragTriggered pd
    || ltQ DRAG_TRIGGER_TOUCH_SLOP (MathUtil_distance (pd_mouseDown pd) mouseMove).
Proof.
  unfold PointDragger_onMouseMove.
  destruct (ltQ _ _); cbn; rewrite ?orb_true_r, ?orb_false_r; auto.
Qed.

(** A drag is triggered by the first mouse move that is farther than the
    touch slop from where the mouse went down, and stays triggered: after
    any moves the dragger is dragging exactly when it was already or one
    of the moves was that far from the mouse-down point, wherever the
    mouse is by now.  The moves change nothing else of the dragger. *)
Theorem drag_triggers_once_and_for_all (moves : list Point) (pd : PointDragger) :
  let pd' := fold_left (fun d m => PointDragger_onMouseMove m d) moves pd in
  pd_isDragTriggered pd'
  = pd_isDragTriggered pd
    || existsb (fun m => ltQ DRAG_TRIGGER_TOUCH_SLOP
                           (MathUtil_distance (pd_mouseDown pd) m)) moves /\
  pd_mouseDown pd' = pd_mouseDown pd /\
  pd_selectedCommandIndex pd' = pd_selectedCommandIndex pd /\
  pd_selectedPointSplit pd' = pd_selectedPointSplit pd /\
  pd_isMouseDown pd' = pd_isMouseDown pd.
Proof.
  revert pd. induction moves as [|m moves IH]; intros pd; cbn [fold_left existsb].
  - rewrite orb_false_r. auto.
  - destruct (PointDragger_onMouseMove_keeps m pd) as (Hd & Hi & Hs & Hm & Ht).
    destruct (IH (PointDragger_onMouseMove m pd)) as (IHt & IHd & IHi & IHs & IHm).
    cbn zeta. rewrite IHt, IHd, IHi, IHs, IHm, Ht, Hd, Hi, Hs, Hm.
    rewrite orb_assoc. auto.
Qed.

(** While a split point is being dragged a mouse move only redraws: it
    makes no hit test and leaves the hover alone; all it asks of the path
    engine is the projection the overlay shows. *)
Theorem drag_moves_do_not_hover (e : MouseEvent) (s : Comp) (pd : PointDragger) :
  appMode s = SelectPoints ->
  pointDragger s = Some pd ->
  pd_selectedPointSplit pd = true ->
  pd_isDragTriggered pd
  || ltQ DRAG_TRIGGER_TOUCH_SLOP (MathUtil_distance (pd_mouseDown pd) (pointOf e s))
  = true ->
  Forall (fun ev => isProject ev = true) (emitted (onMouseMove e) s).
Proof.
  intros Hmode Hpd Hsplit Hdrag.
  unfold emitted, onMouseMove, mouseEventToPoint. run.
  destruct (shouldProcessMouseEvents s); cbn [negb]; run;
    [|rewrite skipn_all; constructor].
  rewrite Hmode, Hpd. run.
  change (mkPoint ((pageX e - canvasOffsetLeft s) / cssScale s)
            ((pageY e - canvasOffsetTop s) / cssScale s)) with (pointOf e s).
  destruct (PointDragger_onMouseMove_keeps (pointOf e s) pd)
    as (_ & _ & Hs & _ & Ht).
  cbn zeta in Hs, Ht. rewrite Hs, Ht, Hsplit, Hdrag. cbn [andb].
  match goal with
  | |- context [draw ?x] =>
      destruct (draw_effect x) as [delta [[H|H] F]]; rewrite H; clear H
  end; calls_made;
    (eapply Forall_impl; [|exact F]); intros ev [Hev _]; exact Hev.
Qed.

End Dragging.

(** ** Splitting a filled subpath takes two clicks *)

Section FilledSplitClicks.
Context {C : Collaborators}.

(** On a filled path in split-subpaths mode the first point clicked is
    only remembered, and a second point on another subpath only makes
    the component forget the first: in both cases no operation is asked
    of the mutator, and what the state service is handed is the path
    built from no operation at all. *)
Theorem filled_split_waits_for_second_point
    (projOntoPath : ProjectionOntoPath) (s : Comp) (layer : Layer) (path : Path) :
  let commit := commitSplit projOntoPath in
  appMode s = SplitSubPaths ->
  getActivePathLayer s (canvasType s) = Some layer ->
  Layer_pathData layer = Some path ->
  Layer_isFilled layer = Some true ->
  (forall initial,
     initialFilledSubPathProjOntoPath s = Some initial ->
     pp_subIdx initial <> pp_subIdx projOntoPath) ->
  exists s',
    commit s = Ok tt s' /\
    mutOps (emitted commit s) = [] /\
    filter isCommit (emitted commit s)
    = [EvUpdateActivePath (canvasType s) (PathMutator_build (Path_mutate path))] /\
    initialFilledSubPathProjOntoPath s'
    = match initialFilledSubPathProjOntoPath s with
      | None => Some projOntoPath
      | Some _ => None
      end.
Proof.
  intros commit Hmode Hlayer Hpath Hfilled Hother.
  subst commit. unfold emitted, commitSplit, mutate, callOp, build, updateActivePath.
  run. rewrite Hlayer. run. rewrite Hpath. run. rewrite Hmode. run.
  rewrite Hfilled. run.
  destruct (initialFilledSubPathProjOntoPath s) as [initial|] eqn:Hinit; run.
  - specialize (Hother initial eq_refl). apply Nat.eqb_neq in Hother.
    rewrite Hother. cbn [negb]. run.
    eexists. split; [reflexivity|]. split; [calls_made; reflexivity|].
    split; [calls_made; reflexivity|]. rewrite initial_assign. reflexivity.
  - eexists. split; [reflexivity|]. split; [calls_made; reflexivity|].
    split; [calls_made; reflexivity|]. rewrite initial_assign. reflexivity.
Qed.

End FilledSplitClicks.

(** ** The preview canvas *)

Section PreviewCanvas.
Context {C : Collaborators}.

Lemma gesture_assign type path s :
  gesture (assignActivePathData type path s) = gesture s.
Proof.
  destruct (assignActivePathData_cases type path s) as [->|(vl & vl' & _ & _ & ->)];
    reflexivity.
Qed.

Lemma preview_step i s :
  canvasType s = CanvasPreview ->
  keeps gesture previewCall s (step s i).
Proof.
  intros Hpreview.
  assert (Hproc : shouldProcessMouseEvents s = false)
    by (unfold shouldProcessMouseEvents; rewrite Hpreview; reflexivity).
  unfold step, handle.
  destruct i as [e|e|e|e|mode|hover|fraction|id| | |].
  - unfold onMouseDown. rewrite bind_get, Hproc. apply keeps_refl.
  - unfold onMouseMove. rewrite bind_get, Hproc. apply keeps_refl.
  - unfold onMouseUp. rewrite bind_get, Hproc. apply keeps_refl.
  - unfold onMouseLeave. rewrite bind_get, Hproc. apply keeps_refl.
  - rewrite bind_modify, bind_get.
    change (canvasType (set_appMode mode s)) with (canvasType s).
    rewrite Hpreview. split; [reflexivity|]. apply logs_same_trace. reflexivity.
  - rewrite bind_get, Hpreview. apply keeps_refl.
  - rewrite bind_modify, bind_get.
    change (canvasType (set_animatedValue fraction s)) with (canvasType s).
    rewrite Hpreview. cbn [CanvasType_eqb].
    eapply keeps_trans with (s1 := set_animatedValue fraction s);
      [split; [reflexivity|apply logs_same_trace; reflexivity]|].
    unfold interpolatePreview, PathLayer_interpolate, PathLayer_isMorphableWith.
    repeat keeps_go; try exact I;
      try (apply keeps_assign; try reflexivity; intros; apply gesture_assign).
  - rewrite bind_get, bind_modify, Hpreview. cbn [CanvasType_eqb].
    match goal with |- context [set_activePathIds ?ids s] =>
      set (s1 := set_activePathIds ids s)
    end.
    eapply keeps_trans with (s1 := s1);
      [split; [reflexivity|apply logs_same_trace; reflexivity]|].
    unfold interpolatePreview, PathLayer_interpolate, PathLayer_isMorphableWith.
    repeat keeps_go; try exact I;
      try (apply keeps_assign; try reflexivity; intros; apply gesture_assign).
  - rewrite bind_get, Hpreview. apply keeps_refl.
  - rewrite bind_get, Hpreview. cbn [CanvasType_eqb]. repeat keeps_go.
  - rewrite bind_get, Hpreview. cbn [CanvasType_eqb]. repeat keeps_go.
Qed.

(** A preview canvas is for watching: whatever reaches it, mouse events
    included, it keeps no trace of a gesture, and all it ever asks of
    its collaborators are interpolations and the projections of its
    overlay; it makes no hit test, builds no mutator, hands no path to
    the state service and calls neither the hover nor the selection
    service. *)
Theorem preview_canvas_only_interpolates (inputs : list Input) (s : Comp) :
  canvasType s = CanvasPreview ->
  gesture (run inputs s) = gesture s /\
  logs previewCall s (run inputs s).
Proof.
  revert s. induction inputs as [|i inputs IH]; intros s Hpreview.
  - split; [reflexivity|apply logs_refl].
  - destruct (preview_step i s Hpreview) as [Hg Hl].
    assert (Hpreview' : canvasType (step s i) = CanvasPreview).
    { unfold gesture in Hg. injection Hg as -> _ _ _ _ _. exact Hpreview. }
    destruct (IH (step s i) Hpreview') as [IHg IHl].
    cbn [run fold_left]. fold (run inputs (step s i)).
    split; [rewrite IHg; exact Hg|exact (logs_trans _ _ _ _ Hl IHl)].
Qed.

End PreviewCanvas.

(** ** Changing the app mode cancels the gesture *)

Section ModeChange.
Context {C : Collaborators}.

Lemma pointDragger_assign type path s :
  pointDragger (assignActivePathData type path s) = pointDragger s.
Proof.
  destruct (assignActivePathData_cases type path s) as [->|(vl & vl' & _ & _ & ->)];
    reflexivity.
Qed.

(** Without a mouse down no point dragger appears. *)
Lemma step_stays_undragged i s :
  pointDragger s = None ->
  (forall down, i <> MouseDown down) ->
  pointDragger (step s i) = None.
Proof.
  intros Hnone Hi.
  enough (K : keeps pointDragger (fun _ => True) s (step s i))
    by (rewrite (proj1 K); exact Hnone).
  unfold step, handle.
  destruct i as [e|e|e|e|mode|hover|fraction|id| | |];
    [exfalso; exact (Hi e eq_refl)| | | | | | | | | |];
    unfold onMouseMove, onMouseUp, onMouseLeave, onAppModeChanged, onHoverChanged,
      updateCurrentHoverFn, interpolatePreview, commitSplitDrag, commitSplit,
      processHitResult, PathLayer_interpolate, PathLayer_isMorphableWith,
      updateActivePath, mutate, callOp, build;
    repeat keeps_go;
    try (apply keeps_assign; intros; apply pointDragger_assign);
    try (apply keeps_modify; [cbn in *; congruence|reflexivity]).
Qed.

Lemma run_stays_idle inputs s :
  pointDragger s = None ->
  shouldPerformActionOnMouseUp s = false ->
  (forall down, ~ In (MouseDown down) inputs) ->
  pointDragger (run inputs s) = None /\
  shouldPerformActionOnMouseUp (run inputs s) = false.
Proof.
  revert s. induction inputs as [|i inputs IH]; intros s Hnone Hoff Hdown;
    [split; assumption|].
  assert (Hi : forall down, i <> MouseDown down)
    by (intros down ->; exact (Hdown down (or_introl eq_refl))).
  cbn [run fold_left]. apply IH.
  - exact (step_stays_undragged i s Hnone Hi).
  - exact (step_stays_disarmed i s Hoff Hi).
  - intros down Hin. exact (Hdown down (or_intror Hin)).
Qed.

(** With no point picked up and no split armed, a mouse up builds and
    commits nothing, in any mode. *)
Lemma onMouseUp_idle_quiet up s :
  pointDragger s = None ->
  shouldPerformActionOnMouseUp s = false ->
  Forall (fun ev => isEdit ev = false) (emitted (onMouseUp up) s).
Proof.
  intros Hnone Hoff. destruct (appMode s) eqn:Hmode.
  - apply onMouseUp_select_quiet; [exact Hmode|]. rewrite Hnone. exact I.
  - apply onMouseUp_quiet; [unfold splitting; rewrite Hmode; reflexivity|].
    left. exact Hoff.
  - unfold emitted, onMouseUp, mouseEventToPoint. run.
    destruct (shouldProcessMouseEvents s); cbn [negb]; run;
      [|rewrite skipn_all; constructor].
    rewrite Hmode.
    match goal with
    | |- context [performHitTest ?p ?o ?s0] =>
        destruct (performHitTest_effect p o s0)
          as [H|(ts & layer & filled & path & args & _ & _ & _ & _ & _ & _ & _ & H)];
        rewrite H; clear H
    end; run; calls_made; repeat constructor.
  - apply onMouseUp_quiet; [unfold splitting; rewrite Hmode; reflexivity|].
    left. exact Hoff.
Qed.

(** A change of app mode on a start or end canvas drops the point
    dragger, the pending split and its first point, and the last mouse
    location; until the mouse goes down again, whatever else happens, a
    mouse up builds no mutator and hands nothing to the state service,
    in whichever mode it comes. *)
Theorem mode_change_cancels_gesture (mode : AppMode) (later : list Input)
    (up : MouseEvent) (s : Comp) :
  let changed := step s (AppModeChanged mode) in
  canvasType s <> CanvasPreview ->
  (forall down, ~ In (MouseDown down) later) ->
  appMode changed = mode /\
  pointDragger changed = None /\
  shouldPerformActionOnMouseUp changed = false /\
  lastKnownMouseLocation changed = None /\
  initialFilledSubPathProjOntoPath changed = None /\
  Forall (fun ev => isEdit ev = false) (emitted (onMouseUp up) (run later changed)).
Proof.
  intros changed Hcanvas Hdown.
  assert (Hcleared :
    appMode changed = mode /\ pointDragger changed = None /\
    shouldPerformActionOnMouseUp changed = false /\
    lastKnownMouseLocation changed = None /\
    initialFilledSubPathProjOntoPath changed = None).
  { subst changed. unfold step, handle, onAppModeChanged. run.
    change (canvasType (set_appMode mode s)) with (canvasType s).
    destruct (canvasType s); try (exfalso; exact (Hcanvas eq_refl));
      cbn [CanvasType_eqb]; run;
      match goal with
      | |- context [draw ?x] =>
          destruct (draw_effect x) as [delta [[H|H] _]]; rewrite H
      end; repeat split; reflexivity. }
  destruct Hcleared as (Hmode & Hnone & Hoff & Hloc & Hfirst).
  repeat (split; [assumption|]).
  destruct (run_stays_idle later changed Hnone Hoff Hdown) as [Hnone' Hoff'].
  exact (onMouseUp_idle_quiet up _ Hnone' Hoff').
Qed.

End ModeChange.

(** ** What the mouse hovers over *)

Section HoverChoice.
Context {C : Collaborators}.

Lemma mapM_Ok {A B} (f : A -> M B) (l : list A) s bs s' :
  (forall x, readOnly (f x)) ->
  mapM f l s = Ok bs s' ->
  s' = s /\ Forall2 (fun x b => f x s = Ok b s) l bs.
Proof.
  intros Hf. revert bs s'. induction l as [|x rest IH]; intros bs s'; cbn [mapM].
  - intros [= <- <-]. split; [reflexivity|constructor].
  - unfold bind at 1. destruct (f x s) as [b s1|e s1] eqn:Ex; [|discriminate].
    assert (s1 = s) as -> by (rewrite <- (Hf x s), Ex; reflexivity).
    unfold bind at 1. destruct (mapM f rest s) as [bs' s2|e s2] eqn:Erest;
      [|discriminate].
    destruct (IH bs' s2 eq_refl) as [-> Hall].
    intros [= <- <-]. split; [reflexivity|constructor; assumption].
Qed.

Lemma findFirstM_Ok {A} (pred : A -> M bool) (l : list A) s r s' :
  (forall x, readOnly (pred x)) ->
  findFirstM pred l s = Ok r s' ->
  s' = s /\
  match r with
  | Some x =>
      exists before after,
        l = before ++ x :: after /\ pred x s = Ok true s /\
        Forall (fun y => pred y s = Ok false s) before
  | None => Forall (fun y => pred y s = Ok false s) l
  end.
Proof.
  intros Hp. induction l as [|x rest IH]; cbn [findFirstM].
  - intros [= <- <-]. split; [reflexivity|constructor].
  - unfold bind at 1. destruct (pred x s) as [b s1|e s1] eqn:Ex; [|discriminate].
    assert (s1 = s) as -> by (rewrite <- (Hp x s), Ex; reflexivity).
    destruct b.
    + intros [= <- <-]. split; [reflexivity|].
      exists [], rest. split; [reflexivity|]. split; [exact Ex|constructor].
    + intros Hrest. destruct (IH Hrest) as [-> Hr]. split; [reflexivity|].
      destruct r as [y|].
      * destruct Hr as (before & after & -> & Hy & Hbefore).
        exists (x :: before), after. split; [reflexivity|].
        split; [exact Hy|constructor; assumption].
      * constructor; assumption.
Qed.

Lemma lastOf_Some {A} (l : list A) (x : A) :
  lastOf l = Some x -> exists init, l = init ++ [x].
Proof.
  unfold lastOf. destruct (rev l) as [|y rest] eqn:E; [discriminate|].
  intros [= ->]. exists (rev rest).
  rewrite <- (rev_involutive l), E. reflexivity.
Qed.

(** The choice both branches of [processHitResult] make among the hits
    they are given. *)
Lemma choose_last_split {B} (f : CommandIndex -> M (CommandIndex * B))
    (pred : CommandIndex * B -> M bool) (isSplit : CommandIndex -> bool)
    (hits : list CommandIndex) s infos lastSplit chosen :
  (forall x, readOnly (f x)) ->
  (forall b, readOnly (pred b)) ->
  (forall x b, f x s = Ok b s ->
     fst b = x /\ forall r, pred b s = Ok r s -> isSplit x = r) ->
  mapM f hits s = Ok infos s ->
  findFirstM pred (rev infos) s = Ok lastSplit s ->
  match lastSplit with Some info => Some info | None => lastOf infos end
  = Some chosen ->
  lastSplitOrLast isSplit hits (fst chosen).
Proof.
  intros Hf Hp Hsound Hmap Hfind Hchosen.
  destruct (mapM_Ok f hits s infos s Hf Hmap) as [_ Hall].
  assert (Hhits : hits = map fst infos).
  { clear - Hall Hsound. induction Hall as [|x b l bs Hxb _ IH]; [reflexivity|].
    cbn. rewrite (proj1 (Hsound x b Hxb)), <- IH. reflexivity. }
  assert (Hinfo : forall b r, In b infos -> pred b s = Ok r s -> isSplit (fst b) = r).
  { clear - Hall Hsound. induction Hall as [|x b l bs Hxb _ IH]; intros b' r [].
    - subst b'. destruct (Hsound x b Hxb) as [<- Hr]. exact (Hr r).
    - apply IH; assumption. }
  assert (Hnot : forall l, (forall b, In b l -> In b infos) ->
                           Forall (fun y => pred y s = Ok false s) l ->
                           Forall (fun index => isSplit index = false) (map fst l)).
  { intros l Hin F. induction F as [|y l' Hy _ IH]; [constructor|].
    cbn. constructor.
    - apply (Hinfo y false); [apply Hin; left; reflexivity|exact Hy].
    - apply IH. intros b Hb. apply Hin. right. exact Hb. }
  destruct (findFirstM_Ok pred (rev infos) s lastSplit s Hp Hfind) as [_ Hlast].
  destruct lastSplit as [info|].
  - injection Hchosen as ->.
    destruct Hlast as (before & after & Hrev & Htrue & Hbefore).
    assert (Hinfos : infos = rev after ++ chosen :: rev before).
    { rewrite <- (rev_involutive infos), Hrev, rev_app_distr. cbn.
      rewrite <- app_assoc. reflexivity. }
    exists (map fst (rev after)), (map fst (rev before)).
    split; [rewrite Hhits, Hinfos, map_app; reflexivity|]. split.
    + apply Hnot.
      * intros b Hb. rewrite Hinfos. apply in_or_app. right. right. exact Hb.
      * apply Forall_rev. exact Hbefore.
    + left. apply (Hinfo chosen true); [|exact Htrue].
      rewrite Hinfos. apply in_or_app. right. left. reflexivity.
  - destruct (lastOf_Some infos chosen Hchosen) as [init Hinit].
    exists (map fst init), [].
    split; [rewrite Hhits, Hinit, map_app; reflexivity|].
    split; [constructor|]. right. split; [reflexivity|].
    apply Hnot.
    + intros b Hb. rewrite Hinit. apply in_or_app. left. exact Hb.
    + apply Forall_rev in Hlast. rewrite rev_involutive, Hinit in Hlast.
      apply Forall_app in Hlast. exact (proj1 Hlast).
Qed.

Lemma activePath_cases s :
  activePath s = Throw TypeError s \/ exists path, activePath s = Ok path s.
Proof.
  unfold activePath. run.
  destruct (truthyStr (activePathId s)); run; [|right; eexists; reflexivity].
  destruct (getActivePathLayer s (canvasType s)); run;
    [right; eexists; reflexivity|left; reflexivity].
Qed.

(** Where the hover goes when the mouse moves.  A miss resets it.  Of
    the end points hit, the last one that is a split point gets it, or
    the last of all when none is split; when no end point is hit, the
    same choice is made among the shapes hit, by split subpath; and a
    hit of segments alone leaves the hover as it was. *)
Theorem hover_goes_to_last_split_hit (hitResult : HitResult) (s s' : Comp) :
  let calls := emitted (processHitResult hitResult) s in
  processHitResult hitResult s = Ok tt s' ->
  if negb (isHit hitResult) then calls = [EvHoverReset]
  else
    match endPointHits hitResult, shapeHits hitResult with
    | [], [] => calls = []
    | _ :: _, _ =>
        exists path index,
          valueOf (activePath s) = Some (Some path) /\
          lastSplitOrLast (hitsSplitCommand path) (endPointHits hitResult) index /\
          calls = [EvSetHover (mkHover HoverCommand (canvasType s) index)]
    | [], _ :: _ =>
        exists path index,
          valueOf (activePath s) = Some (Some path) /\
          lastSplitOrLast (hitsSplitSubPath path) (shapeHits hitResult) index /\
          calls = [EvSetHover (mkHover HoverSubPath (canvasType s) index)]
    end.
Proof.
  intros calls. subst calls. unfold emitted, processHitResult.
  destruct (isHit hitResult); cbn [negb];
    [|intros _; run; calls_made; reflexivity].
  destruct (activePath_cases s) as [Hpath|[path Hpath]].
  - destruct (endPointHits hitResult) as [|h hs];
      [destruct (shapeHits hitResult) as [|h hs];
       [intros _; run; rewrite skipn_all; reflexivity|]|];
      cbn [mapM]; unfold bind; rewrite Hpath; discriminate.
  - destruct path as [path|];
      [|destruct (endPointHits hitResult) as [|h hs];
        [destruct (shapeHits hitResult) as [|h hs];
         [intros _; run; rewrite skipn_all; reflexivity|]|];
        cbn [mapM]; unfold bind; rewrite Hpath; cbn; discriminate].
    destruct (endPointHits hitResult) as [|h hs] eqn:Hends;
      [destruct (shapeHits hitResult) as [|h hs] eqn:Hshapes;
       [intros _; run; rewrite skipn_all; reflexivity|]|].
    + match goal with |- bind (mapM ?f ?l) ?k s = _ -> _ =>
        assert (Hf : forall x, readOnly (f x)) by (intros; read_only);
        destruct (mapM f l s) as [infos s1|e s1] eqn:Emap;
        [rewrite !(bind_Ok _ k s infos s1 Emap)
        |rewrite (bind_Throw _ k s e s1 Emap); discriminate];
        destruct (mapM_Ok f l s infos s1 Hf Emap) as [-> _]
      end.
      match goal with |- bind (findFirstM ?p ?l) ?k s = _ -> _ =>
        assert (Hp : forall x, readOnly (p x)) by (intros; read_only);
        destruct (findFirstM p l s) as [lastSplit s1|e s1] eqn:Efind;
        [rewrite !(bind_Ok _ k s lastSplit s1 Efind)
        |rewrite (bind_Throw _ k s e s1 Efind); discriminate];
        destruct (findFirstM_Ok p l s lastSplit s1 Hp Efind) as [-> _]
      end.
      destruct (match lastSplit with Some info => Some info | None => lastOf infos end)
        as [chosen|] eqn:Hchosen; run; [|discriminate].
      intros _. exists path, (fst chosen).
      split; [rewrite Hpath; reflexivity|].
      split; [|calls_made; reflexivity].
      eapply choose_last_split; [exact Hf|exact Hp| |exact Emap|exact Efind|exact Hchosen].
      intros x b. unfold bind at 1. rewrite Hpath. cbn [must]. run.
      intros [= <-]. split; [reflexivity|].
      intros r. unfold hitsSplitSubPath. cbn [snd].
      destruct (nth_error path (subIdx x)); run; [|discriminate].
      intros [= <-]. reflexivity.
    + match goal with |- bind (mapM ?f ?l) ?k s = _ -> _ =>
        assert (Hf : forall x, readOnly (f x)) by (intros; read_only);
        destruct (mapM f l s) as [infos s1|e s1] eqn:Emap;
        [rewrite !(bind_Ok _ k s infos s1 Emap)
        |rewrite (bind_Throw _ k s e s1 Emap); discriminate];
        destruct (mapM_Ok f l s infos s1 Hf Emap) as [-> _]
      end.
      match goal with |- bind (findFirstM ?p ?l) ?k s = _ -> _ =>
        assert (Hp : forall x, readOnly (p x)) by (intros; read_only);
        destruct (findFirstM p l s) as [lastSplit s1|e s1] eqn:Efind;
        [rewrite !(bind_Ok _ k s lastSplit s1 Efind)
        |rewrite (bind_Throw _ k s e s1 Efind); discriminate];
        destruct (findFirstM_Ok p l s lastSplit s1 Hp Efind) as [-> _]
      end.
      destruct (match lastSplit with Some info => Some info | None => lastOf infos end)
        as [chosen|] eqn:Hchosen; run; [|discriminate].
      intros _. exists path, (fst chosen).
      split; [rewrite Hpath; reflexivity|].
      split; [|calls_made; reflexivity].
      eapply choose_last_split; [exact Hf|exact Hp| |exact Emap|exact Efind|exact Hchosen].
      intros x b. unfold bind at 1. rewrite Hpath. cbn [must]. run.
      unfold hitsSplitCommand, Path_commandAt.
      destruct (nth_error path (subIdx x)) as [subPath|]; run; [|discriminate].
      intros [= <-]. split; [reflexivity|].
      intros r. cbn [snd fst].
      destruct (nth_error (sp_commands subPath) (cmdIdx x)); run; [|discriminate].
      intros [= <-]. reflexivity.
Qed.

End HoverChoice.

(** ** Sizing the canvas *)


Section SizingFacts.
Context {C : Collaborators}.
Variable Number_div : Q -> Q -> Q.
Variable Number_mul : Q -> Q -> Q.

Lemma draw_keeps_size s :
  cssScale (stateOf (draw s)) = cssScale s /\
  cssContainerWidth (stateOf (draw s)) = cssContainerWidth s /\
  cssContainerHeight (stateOf (draw s)) = cssContainerHeight s /\
  isViewInit (stateOf (draw s)) = isViewInit s.
Proof.
  destruct (draw_effect s) as [delta [[H|H] _]]; rewrite H; repeat split.
Qed.

Lemma Qdiv_pos (a b : Q) : 0 < a -> 0 < b -> 0 < a / b.
Proof.
  intros Ha Hb. apply Qlt_shift_div_l; [exact Hb|]. lra.
Qed.

Lemma resizeAndDraw_container devicePixelRatio v :
  let v' := resizeAndDraw Number_div Number_mul devicePixelRatio v in
  cssContainerWidth (comp v') = cssContainerWidth (comp v) /\
  cssContainerHeight (comp v') = cssContainerHeight (comp v).
Proof.
  unfold resizeAndDraw. destruct (isViewInit (comp v)); cbn [negb comp];
    [|split; reflexivity].
  match goal with |- context [draw ?x] =>
    destruct (draw_keeps_size x) as (_ & -> & -> & _)
  end. split; reflexivity.
Qed.

Lemma set_container_same s :
  set_cssContainerHeight (cssContainerHeight s)
    (set_cssContainerWidth (cssContainerWidth s) s) = s.
Proof. destruct s; reflexivity. Qed.

(** A resize of the window leaves the container what the window
    offers less the margin on both sides, and never less than one CSS
    pixel either way, whatever size is announced; and the same size
    announced again changes nothing and redraws nothing. *)
Theorem canvas_resize_is_bounded_and_idempotent (devicePixelRatio : Q)
    (size : Size) (v : Sized) :
  let v' := onCanvasResize Number_div Number_mul devicePixelRatio size v in
  cssContainerWidth (comp v') = Qmax 1 (size_width size - CANVAS_MARGIN * 2) /\
  cssContainerHeight (comp v') = Qmax 1 (size_height size - CANVAS_MARGIN * 2) /\
  1 <= cssContainerWidth (comp v') /\
  1 <= cssContainerHeight (comp v') /\
  onCanvasResize Number_div Number_mul devicePixelRatio size v' = v'.
Proof.
  intros v'.
  assert (Hsize :
    cssContainerWidth (comp v') = Qmax 1 (size_width size - CANVAS_MARGIN * 2) /\
    cssContainerHeight (comp v') = Qmax 1 (size_height size - CANVAS_MARGIN * 2)).
  { subst v'. unfold onCanvasResize.
    destruct (negb _ || negb _); [|split; reflexivity].
    match goal with |- context [resizeAndDraw _ _ ?d ?x] =>
      destruct (resizeAndDraw_container d x) as [-> ->]
    end. split; reflexivity. }
  destruct Hsize as [Hw Hh].
  split; [exact Hw|]. split; [exact Hh|].
  split; [rewrite Hw; apply Q.le_max_l|]. split; [rewrite Hh; apply Q.le_max_l|].
  unfold onCanvasResize at 1.
  cbn [cssContainerWidth cssContainerHeight set_cssContainerWidth
       set_cssContainerHeight].
  rewrite <- Hw, <- Hh.
  rewrite !(proj2 (Qeq_bool_iff _ _) (Qeq_refl _)). cbn [negb orb].
  rewrite set_container_same. destruct v'; reflexivity.
Qed.

(** The radius of a point, in viewport units: a hundredth of the
    smaller side of the container as long as the scale is at most 2,
    that divided by half the scale beyond; so it is positive and never
    more than that hundredth. *)
Theorem point_radius_is_bounded (s : Comp) :
  let size := Qmin (cssContainerWidth s) (cssContainerHeight s) in
  0 < cssContainerWidth s -> 0 < cssContainerHeight s ->
  0 < largePointRadius s /\
  largePointRadius s <= size / 100 /\
  (cssScale s <= 2 -> largePointRadius s == size / 100) /\
  (2 <= cssScale s -> largePointRadius s == size / 100 / (cssScale s / 2)).
Proof.
  intros size Hw Hh. unfold largePointRadius. fold size.
  assert (Hsize : 0 < size) by (subst size; apply Q.min_glb_lt; assumption).
  assert (Hmax : 2 <= Qmax 2 (cssScale s)) by apply Q.le_max_l.
  assert (Hpos : 0 < Qmax 2 (cssScale s)) by lra.
  split; [apply Qdiv_pos; [apply Qdiv_pos; lra|exact Hpos]|].
  split.
  { apply Qle_shift_div_r; [exact Hpos|].
    assert (Hk : 0 < size / 100) by (apply Qdiv_pos; lra).
    assert (E : size / 50 == 2 * (size / 100)) by field.
    rewrite E. nra. }
  split.
  - intros Hle. rewrite (Q.max_l 2 (cssScale s) Hle). field.
  - intros Hge. rewrite (Q.max_r 2 (cssScale s) Hge). field. lra.
Qed.

End SizingFacts.

(** ** The ruler *)

Lemma round_comp (x y : Q) : x == y -> round x = round y.
Proof. intros E. unfold round. rewrite E. reflexivity. Qed.

(** The point the rulers are shown is the point the handlers work with,
    rounded to whole viewport units, as long as a viewport unit is at
    least one CSS pixel; below that scale the rulers are shown the
    rounded offset in CSS pixels instead. *)
Theorem ruler_shows_handler_point (event : MouseEvent) (s : Comp) :
  (1 <= cssScale s ->
   showRuler event s
   = mkPoint (inject_Z (round (px (pointOf event s))))
             (inject_Z (round (py (pointOf event s))))) /\
  (cssScale s <= 1 ->
   showRuler event s
   = mkPoint (inject_Z (round (pageX event - canvasOffsetLeft s)))
             (inject_Z (round (pageY event - canvasOffsetTop s)))).
Proof.
  unfold showRuler, pointOf. cbn [px py]. split; intros H.
  - f_equal; f_equal; apply round_comp; rewrite (Q.max_r 1 (cssScale s) H);
      reflexivity.
  - f_equal; f_equal; apply round_comp; rewrite (Q.max_l 1 (cssScale s) H);
      field.
Qed.


(** ** The labelled points of the overlay *)


Section LabeledPointFacts.
Context {C : Collaborators}.
Variable SubPath_isCollapsing : SubPath -> bool.
Variable selections : list Selection.
Variable currentHover : option Hover.
Variable settingsShouldLabelPoints : bool.

Lemma filter_twice {A} (f g : A -> bool) (l : list A) :
  filter f (filter g l) = filter (fun x => g x && f x) l.
Proof.
  induction l as [|x l IH]; [reflexivity|]. cbn.
  destruct (g x); cbn; [destruct (f x)|]; rewrite IH; reflexivity.
Qed.

Lemma moveToEnd_permutation {A} (pred : A -> bool) (l : list A) :
  Permutation (moveToEnd pred l) l.
Proof.
  unfold moveToEnd. induction l as [|x l IH]; [constructor|]. cbn.
  destruct (pred x); cbn.
  - apply Permutation_sym, Permutation_cons_app, Permutation_sym, IH.
  - constructor. exact IH.
Qed.

(** The points are painted in four groups, later ones over earlier
    ones: those neither selected nor hovered, those selected only, those
    hovered only, and last those both hovered and selected; within a
    group the order of the path is kept, and no point is lost or
    doubled. *)
Theorem hovered_points_are_painted_last (pointInfos : list PointInfo) :
  let hovering := isPointInfoHoveringFn currentHover in
  let selected := isPointInfoSelectedFn selections in
  paintOrder selections currentHover pointInfos
  = filter (fun p => negb (selected p) && negb (hovering p)) pointInfos
    ++ filter (fun p => selected p && negb (hovering p)) pointInfos
    ++ filter (fun p => negb (selected p) && hovering p) pointInfos
    ++ filter (fun p => selected p && hovering p) pointInfos
  /\ Permutation (paintOrder selections currentHover pointInfos) pointInfos.
Proof.
  intros hovering selected. split.
  - unfold paintOrder, moveToEnd. fold hovering selected.
    rewrite !filter_app, !filter_twice, <- !app_assoc. reflexivity.
  - unfold paintOrder.
    eapply Permutation_trans; apply moveToEnd_permutation.
Qed.

Lemma In_combine_seq {A} (l : list A) (k i : nat) (x : A) :
  In (i, x) (combine (seq k (List.length l)) l)
  <-> (k <= i)%nat /\ nth_error l (i - k) = Some x.
Proof.
  revert k. induction l as [|y l IH]; intros k; cbn [List.length seq combine].
  - split; [intros []|]. intros [_ H]. destruct (i - k)%nat; discriminate.
  - cbn [In]. rewrite IH. split.
    + intros [[= <- <-]|[Hle Hnth]].
      * split; [lia|]. rewrite Nat.sub_diag. reflexivity.
      * split; [lia|]. replace (i - k)%nat with (S (i - S k)) by lia. exact Hnth.
    + intros [Hle Hnth]. destruct (Nat.eq_dec i k) as [->|Hne].
      * left. rewrite Nat.sub_diag in Hnth. injection Hnth as ->. reflexivity.
      * right. split; [lia|].
        replace (i - k)%nat with (S (i - S k)) in Hnth by lia. exact Hnth.
Qed.

Lemma In_indexed {A} (l : list A) (i : nat) (x : A) :
  In (i, x) (indexed l) <-> nth_error l i = Some x.
Proof.
  unfold indexed. rewrite In_combine_seq, Nat.sub_0_r. intuition lia.
Qed.

(** The points listed for a path are the commands of its subpaths that
    are not collapsing, each under the index pair that finds it once the
    collapsing subpaths are taken out; so when no subpath is collapsing,
    each command is listed under its own subpath and command index. *)
Theorem point_infos_index_the_kept_subpaths (path : Path) :
  let kept := filter (fun subPath => negb (SubPath_isCollapsing subPath)) path in
  (forall cmd subIdx cmdIdx,
     In (mkPointInfo cmd subIdx cmdIdx) (pathDataPointInfos SubPath_isCollapsing path)
     <-> Path_commandAt kept subIdx cmdIdx = Some cmd) /\
  ((forall subPath, In subPath path -> SubPath_isCollapsing subPath = false) ->
   kept = path).
Proof.
  intros kept. split.
  - intros cmd i j. unfold pathDataPointInfos, Path_commandAt. fold kept.
    rewrite in_flat_map. split.
    + intros [[i' subPath] [Hsub Hcmd]]. apply In_indexed in Hsub.
      apply in_map_iff in Hcmd. destruct Hcmd as [[j' cmd'] [[= <- <- <-] Hcmd]].
      apply In_indexed in Hcmd. rewrite Hsub. exact Hcmd.
    + destruct (nth_error kept i) as [subPath|] eqn:Hsub; [|discriminate].
      intros Hcmd. exists (i, subPath). split; [apply In_indexed; exact Hsub|].
      apply in_map_iff. exists (j, cmd). split; [reflexivity|].
      apply In_indexed. exact Hcmd.
  - intros Hnone. subst kept. induction path as [|subPath path IH]; [reflexivity|].
    cbn. rewrite (Hnone subPath (or_introl eq_refl)). cbn. f_equal.
    apply IH. intros sp Hsp. apply Hnone. right. exact Hsp.
Qed.













End LabeledPointFacts.

(** ** Painting: the dash pattern of a trimmed path and the pixel grid *)

Lemma remainderOfOne_nonneg (x : Q) :
  0 <= x -> 0 <= remainderOfOne x /\ remainderOfOne x < 1.
Proof.
  intros Hx. unfold remainderOfOne.
  assert (Hq : Z.quot (Qnum x) (Zpos (Qden x)) = Qfloor x).
  { destruct x as [n d]. cbn [Qnum Qden Qfloor].
    apply Z.quot_div_nonneg; [|reflexivity].
    unfold Qle in Hx. cbn in Hx. lia. }
  rewrite Hq.
  pose proof (Qfloor_le x) as Hle. pose proof (Qlt_floor x) as Hlt.
  rewrite inject_Z_plus in Hlt. change (inject_Z 1) with 1 in Hlt.
  split; lra.
Qed.

Section TrimFacts.
Variable rnd : Q -> Q.
Hypothesis rnd_monotone : forall x y, x <= y -> rnd x <= rnd y.
Hypothesis rnd_zero : rnd 0 == 0.
Hypothesis rnd_one : rnd 1 == 1.
Hypothesis rnd_minus_one : rnd (- (1)) == - (1).

Lemma rnd_nonneg (x : Q) : 0 <= x -> 0 <= rnd x.
Proof. intros H. rewrite <- rnd_zero. apply rnd_monotone. exact H. Qed.

Lemma rnd_at_most (x bound : Q) : rnd bound == bound -> x <= bound -> rnd x <= bound.
Proof. intros Hb H. rewrite <- Hb. apply rnd_monotone. exact H. Qed.

Lemma rnd_at_least (x bound : Q) : rnd bound == bound -> bound <= x -> bound <= rnd x.
Proof. intros Hb H. rewrite <- Hb. apply rnd_monotone. exact H. Qed.

(** The dash pattern of a path layer, in the arithmetic of doubles:
    every operation rounds, monotonically, and 0, 1, -1 and the path
    length are doubles.  An untrimmed layer gets no dash pattern.  A
    trimmed one gets a dash, a gap and a dash offset; with the trim
    start and end between 0 and 1 the dash is not negative and not
    longer than the path, and the gap is not negative, so that
    [setLineDash] is handed no negative length; and with start and
    offset not adding up to less than 0 the dash offset lies between 0
    and the path length. *)
Theorem trim_dash_stays_within_the_path (trimPathStart trimPathEnd trimPathOffset
    pathLength : Q) :
  let dash := trimDash rnd trimPathStart trimPathEnd trimPathOffset pathLength in
  (trimPathStart == 0 /\ trimPathEnd == 1 /\ trimPathOffset == 0 ->
   dash = ([], None)) /\
  (~ (trimPathStart == 0 /\ trimPathEnd == 1 /\ trimPathOffset == 0) ->
   exists shown gap offset,
     dash = ([shown; gap], Some offset) /\
     (0 <= pathLength -> rnd pathLength == pathLength ->
      0 <= trimPathStart <= 1 -> 0 <= trimPathEnd <= 1 ->
      0 <= shown <= pathLength /\ 0 <= gap) /\
     (0 <= pathLength -> rnd pathLength == pathLength ->
      0 <= trimPathStart + trimPathOffset ->
      0 <= offset <= pathLength)).
Proof.
  intros dash. subst dash. unfold trimDash. split.
  - intros (Hs & He & Ho).
    rewrite (proj2 (Qeq_bool_iff _ _) Hs), (proj2 (Qeq_bool_iff _ _) He),
      (proj2 (Qeq_bool_iff _ _) Ho). reflexivity.
  - intros Htrim.
    destruct (negb (Qeq_bool trimPathStart 0) || negb (Qeq_bool trimPathEnd 1)
              || negb (Qeq_bool trimPathOffset 0)) eqn:Hcond.
    + eexists _, _, _. split; [reflexivity|]. split.
      * intros HL Hexact [Hs0 Hs1] [He0 He1].
        set (shownFraction :=
               if ltQ trimPathEnd trimPathStart
               then rnd (rnd (trimPathEnd - trimPathStart) + 1)
               else rnd (trimPathEnd - trimPathStart)).
        assert (Hfraction : 0 <= shownFraction <= 1).
        { subst shownFraction. destruct (ltQ trimPathEnd trimPathStart) eqn:Hwrap.
          - apply ltQ_true in Hwrap.
            assert (Hlow : - (1) <= rnd (trimPathEnd - trimPathStart))
              by (apply rnd_at_least; [exact rnd_minus_one|lra]).
            assert (Hhigh : rnd (trimPathEnd - trimPathStart) <= 0)
              by (apply rnd_at_most; [exact rnd_zero|lra]).
            split; [apply rnd_nonneg; lra|apply rnd_at_most; [exact rnd_one|lra]].
          - apply ltQ_false in Hwrap.
            split; [apply rnd_nonneg; lra|apply rnd_at_most; [exact rnd_one|lra]]. }
        destruct Hfraction as [Hf0 Hf1].
        split; [split|].
        -- apply rnd_nonneg. nra.
        -- apply rnd_at_most; [exact Hexact|]. nra.
        -- apply rnd_nonneg.
           assert (Hrest : 0 <= rnd (1 - shownFraction)) by (apply rnd_nonneg; lra).
           assert (Hmilli : 0 <= rnd (1 # 1000)) by (apply rnd_nonneg; lra).
           assert (Hsum : 0 <= rnd (rnd (1 - shownFraction) + rnd (1 # 1000)))
             by (apply rnd_nonneg; lra).
           nra.
      * intros HL Hexact Hso.
        assert (Hsum : 0 <= rnd (trimPathStart + trimPathOffset))
          by (apply rnd_nonneg; exact Hso).
        destruct (remainderOfOne_nonneg _ Hsum) as [Hr0 Hr1].
        set (r := remainderOfOne (rnd (trimPathStart + trimPathOffset))) in *.
        assert (Hk0 : 0 <= rnd (1 - r)) by (apply rnd_nonneg; lra).
        assert (Hk1 : rnd (1 - r) <= 1) by (apply rnd_at_most; [exact rnd_one|lra]).
        split; [apply rnd_nonneg; nra|apply rnd_at_most; [exact Hexact|nra]].
    + exfalso. apply Htrim.
      apply orb_false_elim in Hcond. destruct Hcond as [Hcond Ho].
      apply orb_false_elim in Hcond. destruct Hcond as [Hs He].
      apply negb_false_iff in Hs, He, Ho.
      repeat split; apply Qeq_bool_iff; assumption.
Qed.

End TrimFacts.

Lemma gridLoop_seq (fuel : nat) (x : Z) (limit : Q) (line : Q -> Rect) :
  limit <= inject_Z (x + Z.of_nat fuel) ->
  exists n,
    gridLoop fuel x limit line
    = map (fun k => line (inject_Z (x + Z.of_nat k))) (seq 0 n) /\
    forall k, (k < n)%nat <-> inject_Z (x + Z.of_nat k) < limit.
Proof.
  revert x. induction fuel as [|fuel IH]; intros x Hfuel; cbn [gridLoop].
  - exists 0%nat. split; [reflexivity|]. intros k. split; [lia|].
    intros Hk. exfalso. rewrite Z.add_0_r in Hfuel.
    assert (inject_Z x <= inject_Z (x + Z.of_nat k))
      by (rewrite <- Zle_Qle; lia). lra.
  - destruct (ltQ (inject_Z x) limit) eqn:Hin.
    + apply ltQ_true in Hin.
      destruct (IH (x + 1)%Z) as [n [Hlist Hn]].
      { replace (x + 1 + Z.of_nat fuel)%Z with (x + Z.of_nat (S fuel))%Z by lia.
        exact Hfuel. }
      exists (S n). split.
      * cbn [seq map]. rewrite Z.add_0_r. f_equal.
        rewrite Hlist, <- seq_shift, map_map.
        apply map_ext. intros k. do 2 f_equal. lia.
      * intros [|k].
        { rewrite Z.add_0_r. split; [intros _; exact Hin|lia]. }
        { replace (x + Z.of_nat (S k))%Z with (x + 1 + Z.of_nat k)%Z by lia.
          rewrite <- Hn. lia. }
    + apply ltQ_false in Hin. exists 0%nat. split; [reflexivity|].
      intros k. split; [lia|]. intros Hk. exfalso.
      assert (inject_Z x <= inject_Z (x + Z.of_nat k))
        by (rewrite <- Zle_Qle; lia). lra.
Qed.

Lemma gridLoop_from_one (limit : Q) (line : Q -> Rect) :
  exists n,
    gridLoop (Z.to_nat (Qceiling limit)) 1 limit line
    = map (fun k => line (inject_Z (Z.of_nat k))) (seq 1 n) /\
    forall k, (1 <= k)%nat -> ((k <= n)%nat <-> inject_Z (Z.of_nat k) < limit).
Proof.
  destruct (gridLoop_seq (Z.to_nat (Qceiling limit)) 1 limit line) as [n [Hlist Hn]].
  { pose proof (Qle_ceiling limit) as Hc.
    assert (inject_Z (Qceiling limit)
            <= inject_Z (1 + Z.of_nat (Z.to_nat (Qceiling limit))))
      by (rewrite <- Zle_Qle; lia). lra. }
  exists n. split.
  - rewrite Hlist, <- seq_shift, map_map. apply map_ext. intros k.
    do 2 f_equal. lia.
  - intros [|k] Hk; [lia|].
    replace (Z.of_nat (S k)) with (1 + Z.of_nat k)%Z by lia.
    rewrite <- Hn. lia.
Qed.

(** The pixel grid is painted only when a viewport unit is more than four
    CSS pixels.  Its lines are one device pixel thick, span the whole
    viewport, and are centred on the whole coordinates that lie strictly
    inside the viewport: one vertical line for each whole [x] from 1 up
    to, and not including, the width, then one horizontal line for each
    such [y] below the height; none falls on the border. *)
Theorem pixel_grid_lines_lie_inside (windowDevicePixelRatio : option Q)
    (cssScale attrScale : Q) (vlSize : Size) :
  let grid := pixelGrid windowDevicePixelRatio cssScale attrScale vlSize in
  let devicePixelRatio :=
    match windowDevicePixelRatio with
    | Some r => if Qeq_bool r 0 then 1 else r
    | None => 1
    end in
  let vertical (k : nat) :=
    mkRect (inject_Z (Z.of_nat k) * attrScale - (1 # 2) * devicePixelRatio) 0
      devicePixelRatio (size_height vlSize * attrScale) in
  let horizontal (k : nat) :=
    mkRect 0 (inject_Z (Z.of_nat k) * attrScale - (1 # 2) * devicePixelRatio)
      (size_width vlSize * attrScale) devicePixelRatio in
  (cssScale <= 4 -> grid = []) /\
  (4 < cssScale ->
   exists columns rows,
     grid = map vertical (seq 1 columns) ++ map horizontal (seq 1 rows) /\
     (forall k, (1 <= k)%nat ->
        ((k <= columns)%nat <-> inject_Z (Z.of_nat k) < size_width vlSize)) /\
     (forall k, (1 <= k)%nat ->
        ((k <= rows)%nat <-> inject_Z (Z.of_nat k) < size_height vlSize))).
Proof.
  intros grid devicePixelRatio vertical horizontal. subst grid.
  unfold pixelGrid. fold devicePixelRatio. split; intros Hscale.
  - apply ltQ_false in Hscale. rewrite Hscale. reflexivity.
  - apply ltQ_true in Hscale. rewrite Hscale.
    match goal with |- context [gridLoop _ 1 (size_width vlSize) ?line] =>
      destruct (gridLoop_from_one (size_width vlSize) line) as [columns [-> Hc]]
    end.
    match goal with |- context [gridLoop _ 1 (size_height vlSize) ?line] =>
      destruct (gridLoop_from_one (size_height vlSize) line) as [rows [-> Hr]]
    end.
    exists columns, rows. split; [reflexivity|]. split; assumption.
Qed.

(** ** Adding a point *)

Section AddingAPoint.
Context {C : Collaborators}.

Lemma overlay_adds_no_edit s delta :
  Forall (overlayCall s) delta ->
  mutOps delta = [] /\ filter isCommit delta = [].
Proof.
  induction 1 as [|ev delta [Hev _] _ [IHm IHc]]; [split; reflexivity|].
  destruct ev; try discriminate Hev. cbn. split; assumption.
Qed.

(** In add-points mode, the mouse coming up on an armed gesture within
    the snap distance of the path splits the one command the mouse
    projects onto, at the projected parameter, and hands the path built
    from that one split to the state service; the gesture is disarmed
    whether the redraw that follows succeeds or not. *)
Theorem armed_mouse_up_adds_one_point (e : MouseEvent) (s : Comp)
    (layer : Layer) (filled : bool) (path : Path)
    (projOntoPath : ProjectionOntoPath) :
  let split :=
    SplitCommand (pp_subIdx projOntoPath) (pp_cmdIdx projOntoPath)
      (proj_t (pp_projection projOntoPath)) in
  let up := onMouseUp e in
  appMode s = AddPoints ->
  shouldProcessMouseEvents s = true ->
  shouldPerformActionOnMouseUp s = true ->
  getActivePathLayer s (canvasType s) = Some layer ->
  Layer_isFilled layer = Some filled ->
  Layer_pathData layer = Some path ->
  valueOf (calculateProjectionOntoPath (vectorLayer s) (activePathId s)
             (pointOf e s) s) = Some (Some projOntoPath) ->
  proj_d (pp_projection projOntoPath) < MIN_SNAP_THRESHOLD ->
  PathMutator_reject path [] split = None ->
  mutOps (emitted up s) = [split] /\
  filter isCommit (emitted up s)
  = [EvUpdateActivePath (canvasType s) (PathMutator_build (mkMutator path [split]))] /\
  shouldPerformActionOnMouseUp (stateOf (up s)) = false.
Proof.
  intros split up Hmode Hproc Harmed Hlayer Hfilled Hpath Hproj Hnear Haccept.
  pose proof Hproc as Hid. unfold shouldProcessMouseEvents in Hid.
  apply andb_true_iff in Hid. destruct Hid as [_ Hid].
  set (mouse := pointOf e s).
  set (s1 := set_lastKnownMouseLocation (Some mouse) s).
  destruct (calculateProjectionOntoPath_effect (vectorLayer s) (activePathId s) mouse s)
    as [E|[E|(tree & found & ts & pathData & Htree & Hfound & Hts & HpathData & _)]];
    [fold mouse in Hproj; rewrite E in Hproj; discriminate Hproj ..|].
  assert (Hhit : exists hitResult call,
             performHitTest mouse None s1 = Ok hitResult (addEvents s1 [call])
             /\ isEdit call = false).
  { unfold performHitTest, transformsForActiveLayer, activePath, activePathLayer. run.
    change (vectorLayer s1) with (vectorLayer s).
    change (activePathId s1) with (activePathId s).
    change (getActivePathLayer s1 (canvasType s1)) with (getActivePathLayer s (canvasType s)).
    rewrite Htree. run. rewrite Hts. run.
    change (activePathId s1) with (activePathId s).
    change (getActivePathLayer s1 (canvasType s1)) with (getActivePathLayer s (canvasType s)).
    rewrite Hid, Hlayer. run. rewrite Hfilled. run.
    change (activePathId s1) with (activePathId s).
    change (getActivePathLayer s1 (canvasType s1)) with (getActivePathLayer s (canvasType s)).
    rewrite Hid, Hlayer. run. rewrite Hpath.
    eexists _, _. split; reflexivity. }
  destruct Hhit as (hitResult & hit & Hhit & Hquiet).
  set (s2 := addEvents s1 [hit]).
  destruct (calculateProjectionOntoPath_effect (vectorLayer s) (activePathId s) mouse s2)
    as [E|[E|(tree' & found' & ts' & pathData' & _ & _ & _ & _ & E)]];
    pose proof (calculateProjectionOntoPath_value (vectorLayer s) (activePathId s)
                  mouse s2 s) as V;
    fold mouse in Hproj; rewrite Hproj, E in V; try discriminate V.
  injection V as V.
  assert (Hup : exists s3 delta,
             Forall (overlayCall s3) delta /\
             (trace (stateOf (onMouseUp e s))
              = trace s ++ hit :: EvProject pathData'
                                    (toLocal MathUtil_flattenTransforms ts' mouse)
                  :: EvMutate path :: EvMutOp split
                  :: EvBuild (mkMutator path [split])
                  :: EvUpdateActivePath (canvasType s)
                       (PathMutator_build (mkMutator path [split])) :: delta) /\
             shouldPerformActionOnMouseUp (stateOf (onMouseUp e s)) = false).
  { unfold onMouseUp, mouseEventToPoint. run.
    rewrite Hproc, Hmode. cbn [negb]. run.
    change (mkPoint ((pageX e - canvasOffsetLeft s) / cssScale s)
              ((pageY e - canvasOffsetTop s) / cssScale s)) with mouse.
    fold s1. rewrite Hhit. fold s2.
    change (shouldPerformActionOnMouseUp s2) with (shouldPerformActionOnMouseUp s).
    rewrite Harmed.
    change (lastKnownMouseLocation s2) with (Some mouse).
    change (vectorLayer s2) with (vectorLayer s).
    change (activePathId s2) with (activePathId s).
    run. rewrite E. run. rewrite V.
    rewrite (proj2 (ltQ_true _ _) Hnear).
    unfold commitSplit, mutate, callOp, build, updateActivePath. run.
    set (s3 := addEvents s2 _).
    change (getActivePathLayer s3 (canvasType s3))
      with (getActivePathLayer s (canvasType s)).
    rewrite Hlayer. run. rewrite Hpath. run.
    change (appMode s3) with (appMode s). rewrite Hmode.
    unfold Path_mutate. cbn [mut_source mut_ops app]. fold split.
    rewrite Haccept.
    change (canvasType s3) with (canvasType s).
    match goal with
    | |- context [draw ?s4] =>
        destruct (draw_effect s4) as [delta [[D|D] F]]; rewrite D;
        exists s4, delta; (split; [exact F|])
    end.
    all: cbn [stateOf addEvents trace set_trace set_shouldPerformActionOnMouseUp
              shouldPerformActionOnMouseUp].
    all: rewrite ?trace_assign.
    all: split; [|reflexivity].
    all: subst s3 s2 s1;
      cbn [trace set_trace addEvents set_lastKnownMouseLocation];
      rewrite <- !app_assoc; reflexivity. }
  destruct Hup as (s3 & delta & Hdelta & Htrace & Hflag).
  destruct (overlay_adds_no_edit s3 delta Hdelta) as [Hops Hcommits].
  subst up. rewrite (emitted_of_trace _ _ _ Htrace).
  destruct hit; try discriminate Hquiet.
  all: cbn [mutOps flat_map filter isCommit app].
  all: fold (mutOps delta); rewrite Hops, Hcommits.
  all: repeat split; try reflexivity; exact Hflag.
Qed.

End AddingAPoint.

(** ** The further properties on the sample drawing *)

(** A mouse down that arms a split commits nothing yet. *)
Lemma mouse_down_commits_nothing_on_sample :
  Forall (fun ev => isCommit ev = false)
    (emitted (handle (C:=Sample.collaborators) (MouseDown Sample.click))
       (Sample.component AddPoints)).
Proof.
  refine (proj1 (commits_only_on_mouse_up (C:=Sample.collaborators)
                   (MouseDown Sample.click) (Sample.component AddPoints) _)).
  intros e. discriminate.
Defined.

(** The drag of the sample's split point along the square edits the
    path: the dragger is there, triggered, on a split point, and the
    mouse comes up over the subpath the point is on. *)
Lemma split_drag_edits_on_sample :
  let up := Sample.mouseAt (9 # 2) 2 in
  existsb isEdit (emitted (onMouseUp (C:=Sample.collaborators) up) Sample.dragging)
  = true /\
  exists pd projOntoPath,
    pointDragger Sample.dragging = Some pd /\
    pd_isDragTriggered pd = true /\
    pd_selectedPointSplit pd = true /\
    pp_subIdx projOntoPath = subIdx (pd_selectedCommandIndex pd).
Proof.
  intros up.
  assert (Hedit : existsb isEdit
                    (emitted (onMouseUp (C:=Sample.collaborators) up) Sample.dragging)
                  = true) by (vm_compute; reflexivity).
  split; [exact Hedit|].
  destruct (select_edit_needs_split_drag (C:=Sample.collaborators) up Sample.dragging)
    as (pd & projOntoPath & Hpd & Hdrag & Hsplit & _ & Hsub).
  - reflexivity.
  - apply existsb_exists in Hedit. exact Hedit.
  - exists pd, projOntoPath. auto.
Defined.

(** A click on the third point of the square selects it. *)
Lemma click_selects_on_sample :
  let pressed :=
    step (C:=Sample.collaborators) (Sample.component SelectPoints)
      (MouseDown Sample.click) in
  let up := onMouseUp (C:=Sample.collaborators) Sample.click in
  option_map pd_selectedCommandIndex (pointDragger pressed) = Some (mkIndex 0 2) /\
  emitted up pressed
  = [ EvSelectionToggle (mkSelection SelectionSubPath CanvasStart 0 None) false;
      EvSelectionToggle (mkSelection SelectionCommand CanvasStart 0 (Some 2%nat))
        false ] /\
  pointDragger (stateOf (up pressed)) = None.
Proof.
  intros pressed up.
  assert (Hpd : pointDragger pressed
                = Some (mkPointDragger (mkPoint (70 # 20) (90 # 40)) (mkIndex 0 2)
                          false false true)) by (vm_compute; reflexivity).
  split; [rewrite Hpd; reflexivity|].
  destruct (click_toggles_selection (C:=Sample.collaborators) Sample.click pressed
              _ eq_refl eq_refl Hpd eq_refl)
    as (Hcalls & _ & Hnone).
  split; [exact Hcalls|]. apply Hnone. vm_compute. reflexivity.
Defined.

(** While the sample's split point is dragged, a mouse move tests no
    hit. *)
Lemma drag_move_on_sample :
  Forall (fun ev => isProject ev = true)
    (emitted (onMouseMove (C:=Sample.collaborators) (Sample.mouseAt 5 2))
       Sample.dragging).
Proof.
  refine (drag_moves_do_not_hover (C:=Sample.collaborators) (Sample.mouseAt 5 2)
            Sample.dragging _ eq_refl eq_refl eq_refl eq_refl).
Defined.

(** The first point clicked on the filled square is remembered, and no
    operation is asked of the mutator. *)
Lemma first_point_on_sample :
  let s := Sample.component SplitSubPaths in
  let commit := commitSplit (C:=Sample.collaborators) Sample.thirdEdge in
  initialFilledSubPathProjOntoPath s = None /\
  mutOps (emitted commit s) = [] /\
  initialFilledSubPathProjOntoPath (stateOf (commit s)) = Some Sample.thirdEdge.
Proof.
  intros s commit. split; [reflexivity|].
  destruct (filled_split_waits_for_second_point (C:=Sample.collaborators)
              Sample.thirdEdge s Sample.pathLayer Sample.path
              eq_refl eq_refl eq_refl eq_refl)
    as (s' & Hok & Hops & _ & Hfirst).
  - intros initial. discriminate.
  - split; [exact Hops|]. subst commit. rewrite Hok. exact Hfirst.
Defined.

(** The preview canvas of the sample ignores the mouse. *)
Lemma preview_on_sample :
  let inputs := [MouseDown Sample.click; AnimatedValueChanged (1 # 2);
                 MouseUp Sample.click] in
  canvasType Sample.previewCanvas = CanvasPreview /\
  lastKnownMouseLocation (run (C:=Sample.collaborators) inputs Sample.previewCanvas)
  = None.
Proof.
  intros inputs. split; [reflexivity|].
  destruct (preview_canvas_only_interpolates (C:=Sample.collaborators) inputs
              Sample.previewCanvas eq_refl) as [Hgesture _].
  exact (f_equal (fun g => snd (fst (fst g))) Hgesture).
Defined.

(** Switching to add-points mode in the middle of the sample's drag
    drops the drag: the mouse up that follows edits nothing. *)
Lemma mode_change_on_sample :
  let changed :=
    step (C:=Sample.collaborators) Sample.dragging (AppModeChanged AddPoints) in
  let later := [MouseMove (Sample.mouseAt (9 # 2) 2)] in
  canvasType Sample.dragging <> CanvasPreview /\
  pointDragger changed = None /\
  Forall (fun ev => isEdit ev = false)
    (emitted (onMouseUp (C:=Sample.collaborators) (Sample.mouseAt (9 # 2) 2))
       (run (C:=Sample.collaborators) later changed)).
Proof.
  intros changed later.
  assert (Hcanvas : canvasType Sample.dragging <> CanvasPreview) by discriminate.
  split; [exact Hcanvas|].
  destruct (mode_change_cancels_gesture (C:=Sample.collaborators) AddPoints later
              (Sample.mouseAt (9 # 2) 2) Sample.dragging Hcanvas)
    as (_ & Hnone & _ & _ & _ & Hquiet).
  - intros down [H|[]]. discriminate H.
  - split; assumption.
Defined.

(** Over the second and third points of the square the hover goes to
    the second, which is a split point. *)
Lemma hover_choice_on_sample :
  let s := Sample.component SelectPoints in
  let process := processHitResult Sample.twoPoints in
  process s = Ok tt (stateOf (process s)) /\
  emitted process s = [EvSetHover (mkHover HoverCommand CanvasStart (mkIndex 0 1))].
Proof.
  intros s process.
  assert (Hok : process s = Ok tt (stateOf (process s)))
    by (vm_compute; reflexivity).
  split; [exact Hok|].
  pose proof (hover_goes_to_last_split_hit
                Sample.twoPoints s _ Hok) as H.
  cbn [negb isHit Sample.twoPoints endPointHits] in H.
  destruct H as (path & index & Hpath & Hchoice & Hcalls).
  fold process in Hcalls. rewrite Hcalls.
  vm_compute in Hpath. injection Hpath as <-.
  destruct Hchoice as (before & after & Hhits & Hafter & Hlast).
  destruct before as [|b1 before].
  - injection Hhits as <- <-. reflexivity.
  - injection Hhits as <- Hrest. exfalso.
    destruct before as [|b2 before]; [|destruct before; discriminate Hrest].
    injection Hrest as <- <-. destruct Hlast as [Hsplit|[_ Hbefore]].
    + vm_compute in Hsplit. discriminate Hsplit.
    + inversion Hbefore as [|? ? Hno _]. vm_compute in Hno. discriminate Hno.
Defined.

(** On the sample canvas, scaled by 10, the radius of a point is under a
    hundredth of the container side. *)
Lemma point_radius_on_sample :
  0 < largePointRadius (Sample.component SelectPoints) /\
  largePointRadius (Sample.component SelectPoints) <= 240 / 100.
Proof.
  assert (Hpos : 0 < 240) by reflexivity.
  destruct (point_radius_is_bounded (Sample.component SelectPoints) Hpos Hpos)
    as (Hradius & Hbound & _).
  split; [exact Hradius|exact Hbound].
Defined.


(** On the sample drawing, a click a quarter of a unit off the third
    edge of the square adds one point in the middle of that edge. *)
Lemma point_added_on_sample :
  let s := run (C:=Sample.collaborators) [MouseDown Sample.click]
             (Sample.component AddPoints) in
  mutOps (emitted (onMouseUp (C:=Sample.collaborators) Sample.click) s)
  = [SplitCommand 0 2 (1 # 2)].
Proof.
  intros s.
  exact (proj1 (armed_mouse_up_adds_one_point (C:=Sample.collaborators)
                  Sample.click s Sample.pathLayer true Sample.path Sample.thirdEdge
                  eq_refl eq_refl eq_refl eq_refl eq_refl eq_refl eq_refl
                  eq_refl eq_refl)).
Defined.

Lemma toGrid_monotone (x y : Q) : x <= y -> Sample.toGrid x <= Sample.toGrid y.
Proof.
  intros Hxy. unfold Sample.toGrid.
  apply Qmult_le_compat_r; [|discriminate].
  rewrite <- Zle_Qle. apply Qfloor_resp_le. lra.
Qed.

(** A layer trimmed from three quarters round to one quarter, on a path
    of length 8, with results rounded to 1/1024: the dash is half the
    path, the gap is not negative and the offset is within the path. *)
Lemma trim_dash_on_sample :
  let dash := trimDash Sample.toGrid (3 # 4) (1 # 4) (1 # 2) 8 in
  exists shown gap offset,
    dash = ([shown; gap], Some offset) /\
    shown == 4 /\
    0 <= shown <= 8 /\ 0 <= gap /\ 0 <= offset <= 8.
Proof.
  intros dash.
  destruct (trim_dash_stays_within_the_path Sample.toGrid toGrid_monotone
              eq_refl eq_refl eq_refl (3 # 4) (1 # 4) (1 # 2) 8)
    as [_ Htrimmed].
  destruct Htrimmed as (shown & gap & offset & Hdash & Hlengths & Hoffset).
  { intros (H & _). discriminate H. }
  exists shown, gap, offset. split; [exact Hdash|].
  destruct Hlengths as [Hshown Hgap];
    [discriminate|reflexivity|split; discriminate|split; discriminate|].
  destruct Hoffset as [Ho0 Ho1]; [discriminate|reflexivity|discriminate|].
  split; [|auto].
  subst dash. vm_compute in Hdash. injection Hdash as <- <- <-. reflexivity.
Defined.
